(** * FBPIC spectral field kernels ([fbpic/fields/cuda_methods.py])

    A shallow embedding of the CUDA kernels that erase, normalise, correct,
    push and filter the spectral fields of the Fourier-Bessel PIC code, and
    the properties of these kernels.

    Numbers.  A [float64] is read as the rational it denotes and a
    [complex128] as a pair of such rationals; the arithmetic is exact
    (rounding, infinities and NaN are outside the model).  Every statement
    below is therefore a statement about the formulas the kernels evaluate.
    The two filter kernels are embedded a second time, over IEEE 754
    binary64 numbers ([Binary64]), to show that filtering twice is
    filtering with the squared weights in exact arithmetic only.

    Memory.  The kernels receive device arrays and update them in place.
    The device memory is a store from array handles to two-dimensional
    arrays; two arguments of a kernel may be the same handle.  CUDA does no
    bounds checking: an access outside an array is undefined, which the
    model renders as failure ([None]).

    Threads.  A kernel body is the code of one thread, which obtains its
    cell [(iz, ir)] from [cuda.grid(2)].  A launch runs the body once for
    every thread of the grid. *)

From Stdlib Require Import PrimFloat QArith Qcanon Ring Field.
From stdpp Require Import numbers base option list gmap.

Local Open Scope Qc_scope.

(** ** Exact complex numbers *)

Record complex : Type := Cx { Re : Qc; Im : Qc }.

Declare Scope complex_scope.
Delimit Scope complex_scope with C.
Bind Scope complex_scope with complex.

Definition RtoC (x : Qc) : complex := Cx x 0.
Coercion RtoC : Qc >-> complex.

Definition C0 : complex := RtoC 0.
Definition C1 : complex := RtoC 1.
(** The Python literal [1.j]. *)
Definition Ci : complex := Cx 0 1.
(** The Python literal [0.5]. *)
Definition half : Qc := Q2Qc (1 # 2).

Definition Cadd (z w : complex) : complex := Cx (Re z + Re w) (Im z + Im w).
Definition Copp (z : complex) : complex := Cx (- Re z) (- Im z).
Definition Csub (z w : complex) : complex := Cx (Re z - Re w) (Im z - Im w).
Definition Cmul (z w : complex) : complex :=
  Cx (Re z * Re w - Im z * Im w) (Re z * Im w + Im z * Re w).

Infix "+" := Cadd : complex_scope.
Infix "-" := Csub : complex_scope.
Infix "*" := Cmul : complex_scope.
Notation "- z" := (Copp z) : complex_scope.

(** Equality of complex numbers is decidable by comparing the underlying
    fractions. *)
Definition Ceqb (z w : complex) : bool :=
  Qeq_bool (Re z) (Re w) && Qeq_bool (Im z) (Im w).

(** ** Device memory *)

(** Array handles, one type per element type and rank of the numba
    signatures: [complex128[:,:]], [float64[:,:]] and [float64[:]]. *)
Inductive c128_2d : Set := C128 (l : positive).
Inductive f64_2d : Set := F64 (l : positive).
Inductive f64_1d : Set := F64v (l : positive).

#[global] Instance c128_2d_eq_dec : EqDecision c128_2d.
Proof. solve_decision. Defined.
#[global] Instance f64_2d_eq_dec : EqDecision f64_2d.
Proof. solve_decision. Defined.
#[global] Instance f64_1d_eq_dec : EqDecision f64_1d.
Proof. solve_decision. Defined.

#[global] Instance c128_2d_countable : Countable c128_2d :=
  inj_countable' (λ a, match a with C128 l => l end) C128
    (λ a, match a with C128 _ => eq_refl end).
#[global] Instance f64_2d_countable : Countable f64_2d :=
  inj_countable' (λ a, match a with F64 l => l end) F64
    (λ a, match a with F64 _ => eq_refl end).
#[global] Instance f64_1d_countable : Countable f64_1d :=
  inj_countable' (λ a, match a with F64v l => l end) F64v
    (λ a, match a with F64v _ => eq_refl end).

Record heap : Type := Heap {
  c128 : gmap c128_2d (list (list complex));
  f64 : gmap f64_2d (list (list Qc));
  f64v : gmap f64_1d (list Qc)
}.

(** [arr[iz, ir]] on a row-major array; [None] outside the array. *)
Definition lookup2 {A} (arr : list (list A)) (iz ir : nat) : option A :=
  row ← arr !! iz; row !! ir.

Definition update2 {A} (arr : list (list A)) (iz ir : nat) (v : A)
  : list (list A) :=
  alter (λ row, <[ir := v]> row) iz arr.

(** [arr.shape] of a rectangular array. *)
Definition shape {A} (arr : list (list A)) : nat * nat :=
  (length arr, match arr with [] => 0%nat | row :: _ => length row end).

(** The lengths of the rows of an array. *)
Definition dims {A} (arr : list (list A)) : list nat := length <$> arr.

Definition has_shape {A} (arr : list (list A)) (Nz Nr : nat) : Prop :=
  length arr = Nz ∧ Forall (λ row, length row = Nr) arr.

(** ** Expressions and statements of a kernel body *)

(** An expression reads the memory and yields a complex number; a
    statement updates the memory.  Both fail on an access out of bounds. *)
Definition expr : Type := heap → option complex.
Definition guard : Type := heap → option bool.
Definition stmt : Type := heap → option heap.

Declare Scope expr_scope.
Delimit Scope expr_scope with E.
Bind Scope expr_scope with expr.
Declare Scope stmt_scope.
Delimit Scope stmt_scope with S.
Bind Scope stmt_scope with stmt.

Definition lit (z : complex) : expr := λ _, Some z.

Definition e_add (e1 e2 : expr) : expr :=
  λ h, x ← e1 h; y ← e2 h; Some (x + y)%C.
Definition e_sub (e1 e2 : expr) : expr :=
  λ h, x ← e1 h; y ← e2 h; Some (x - y)%C.
Definition e_mul (e1 e2 : expr) : expr :=
  λ h, x ← e1 h; y ← e2 h; Some (x * y)%C.
Definition e_opp (e : expr) : expr :=
  λ h, x ← e h; Some (- x)%C.

(** Subscripting.  [a.[iz, ir]] names the cell [a[iz, ir]] of an array and
    [v.[ir]] the entry [v[ir]] of a vector. *)
Inductive place (R : Type) : Type := At (a : R) (iz ir : nat).
Inductive entry (R : Type) : Type := AtV (a : R) (ir : nat).
Arguments At {R} a iz ir.
Arguments AtV {R} a ir.

Notation "a .[ iz , ir ]" := (At a iz%nat ir%nat)
  (at level 1, left associativity, format "a .[ iz ,  ir ]").
Notation "a .[ ir ]" := (AtV a ir%nat)
  (at level 1, left associativity, format "a .[ ir ]").

Definition rd (a : c128_2d) (iz ir : nat) : expr :=
  λ h, arr ← c128 h !! a; lookup2 arr iz ir.
Definition rdf (a : f64_2d) (iz ir : nat) : expr :=
  λ h, arr ← f64 h !! a; x ← lookup2 arr iz ir; Some (RtoC x).
Definition rdv (a : f64_1d) (ir : nat) : expr :=
  λ h, arr ← f64v h !! a; x ← arr !! ir; Some (RtoC x).

(** The operands of an arithmetic operation: literals, local variables and
    array cells.  A [float64] operand of a complex operation is promoted to
    [complex128]; as the arithmetic is exact, promoting it where it is read
    gives the same value ([RtoC_add], [RtoC_mul]). *)
Class Operand (A : Type) := operand : A → expr.
#[global] Instance operand_expr : Operand expr := λ e, e.
#[global] Instance operand_complex : Operand complex := lit.
#[global] Instance operand_float : Operand Qc := λ x, lit (RtoC x).
#[global] Instance operand_c128 : Operand (place c128_2d) :=
  λ p, match p with At a iz ir => rd a iz ir end.
#[global] Instance operand_f64 : Operand (place f64_2d) :=
  λ p, match p with At a iz ir => rdf a iz ir end.
#[global] Instance operand_f64v : Operand (entry f64_1d) :=
  λ p, match p with AtV a ir => rdv a ir end.

Notation "x + y" := (e_add (operand x) (operand y)) : expr_scope.
Notation "x - y" := (e_sub (operand x) (operand y)) : expr_scope.
Notation "x * y" := (e_mul (operand x) (operand y)) : expr_scope.
Notation "- x" := (e_opp (operand x)) : expr_scope.

(** [(iz < a.shape[0]) and (ir < a.shape[1])]. *)
Definition in_shape (a : c128_2d) (iz ir : nat) : guard :=
  λ h, arr ← c128 h !! a;
       Some (bool_decide (iz < (shape arr).1)%nat
             && bool_decide (ir < (shape arr).2)%nat).

Definition skip : stmt := λ h, Some h.
Definition then_ (s1 s2 : stmt) : stmt := λ h, h' ← s1 h; s2 h'.

(** The memory after [a[iz, ir]] has received [v]. *)
Definition store (a : c128_2d) (iz ir : nat) (v : complex) (h : heap) : heap :=
  Heap (alter (λ arr, update2 arr iz ir v) a (c128 h)) (f64 h) (f64v h).

(** [a[iz, ir] = e]: the right-hand side is evaluated, then stored in the
    cell, which has to exist. *)
Definition wr (a : c128_2d) (iz ir : nat) (e : expr) : stmt :=
  λ h, v ← e h; _ ← rd a iz ir h; Some (store a iz ir v h).
Definition assign (p : place c128_2d) (e : expr) : stmt :=
  match p with At a iz ir => wr a iz ir e end.

(** A local variable of the thread: [x = e]. *)
Definition let_ (e : expr) (body : complex → stmt) : stmt :=
  λ h, v ← e h; body v h.

(** [if g : s]. *)
Definition when (g : guard) (s : stmt) : stmt :=
  λ h, b ← g h; if b : bool then s h else Some h.

Notation "s1 ;; s2" := (then_ s1%S s2%S)
  (at level 100, s2 at level 200, right associativity) : stmt_scope.
Notation "p ::= e" := (assign p (operand e%E))
  (at level 90, no associativity) : stmt_scope.
Notation "p +::= e" := (assign p (e_add (operand p) (operand e%E)))
  (at level 90, no associativity) : stmt_scope.
Notation "'var' x ::= e 'in' s" := (let_ (operand e%E) (λ x, s%S))
  (at level 10, x name, e at level 89, s at level 200) : stmt_scope.

(** The thread's bounds test [(iz < Nz) and (ir < Nr)]. *)
Definition in_grid (iz ir Nz Nr : nat) : bool :=
  bool_decide (iz < Nz)%nat && bool_decide (ir < Nr)%nat.

(** ** The kernels

    Each definition is the body of one thread; its last two arguments are
    the thread's position [iz, ir = cuda.grid(2)].  The [int32] sizes and
    positions are natural numbers, and the two [int8] switches of the field
    push, which the caller sets from Python booleans and the kernel only
    tests for truth, are booleans. *)

(** *** Erasing functions *)

Definition cuda_erase_scalar (mode0 mode1 : c128_2d) (iz ir : nat) : stmt :=
  when (in_shape mode0 iz ir) (
    mode0.[iz, ir] ::= C0 ;;
    mode1.[iz, ir] ::= C0 )%S.

Definition cuda_erase_vector (mode0r mode1r mode0t mode1t mode0z mode1z : c128_2d)
  (iz ir : nat) : stmt :=
  when (in_shape mode0r iz ir) (
    mode0r.[iz, ir] ::= C0 ;;
    mode0t.[iz, ir] ::= C0 ;;
    mode0z.[iz, ir] ::= C0 ;;
    mode1r.[iz, ir] ::= C0 ;;
    mode1t.[iz, ir] ::= C0 ;;
    mode1z.[iz, ir] ::= C0 )%S.

(** *** Divide by volume functions *)

Definition cuda_divide_scalar_by_volume (mode0 mode1 : c128_2d)
  (invvol0 invvol1 : f64_1d) (iz ir : nat) : stmt :=
  when (in_shape mode0 iz ir) (
    mode0.[iz, ir] ::= mode0.[iz, ir] * invvol0.[ir] ;;
    mode1.[iz, ir] ::= mode1.[iz, ir] * invvol1.[ir] )%S.

Definition cuda_divide_vector_by_volume
  (mode0r mode1r mode0t mode1t mode0z mode1z : c128_2d)
  (invvol0 invvol1 : f64_1d) (iz ir : nat) : stmt :=
  when (in_shape mode0r iz ir) (
    mode0r.[iz, ir] ::= mode0r.[iz, ir] * invvol0.[ir] ;;
    mode0t.[iz, ir] ::= mode0t.[iz, ir] * invvol0.[ir] ;;
    mode0z.[iz, ir] ::= mode0z.[iz, ir] * invvol0.[ir] ;;
    mode1r.[iz, ir] ::= mode1r.[iz, ir] * invvol1.[ir] ;;
    mode1t.[iz, ir] ::= mode1t.[iz, ir] * invvol1.[ir] ;;
    mode1z.[iz, ir] ::= mode1z.[iz, ir] * invvol1.[ir] )%S.

(** *** Methods of the SpectralGrid object *)

Definition cuda_correct_currents
  (rho_prev rho_next Jp Jm Jz : c128_2d) (kz kr inv_k2 : f64_2d)
  (j_corr_coef T : c128_2d) (inv_dt : Qc) (Nz Nr : nat)
  (iz ir : nat) : stmt :=
  if in_grid iz ir Nz Nr then (
    var F ::= - inv_k2.[iz, ir] * ( j_corr_coef.[iz, ir]
            * (rho_next.[iz, ir] - rho_prev.[iz, ir] * T.[iz, ir])
            + Ci * kz.[iz, ir] * Jz.[iz, ir]
            + kr.[iz, ir] * ( Jp.[iz, ir] - Jm.[iz, ir] ) ) in
    Jp.[iz, ir] +::= half * kr.[iz, ir] * F ;;
    Jm.[iz, ir] +::= - half * kr.[iz, ir] * F ;;
    Jz.[iz, ir] +::= - Ci * kz.[iz, ir] * F )%S
  else skip.

Section PhysicalConstants.

(** [from scipy.constants import c, epsilon_0, mu_0]: the values come from
    outside the repository and are left as parameters. *)
Variables c epsilon_0 mu_0 : Qc.

(** [c2 = c**2] *)
Definition c2 : Qc := c ^ 2.

(** In the branch with particle feedback, [rho_diff] is assigned in either
    arm of [if use_true_rho] and the twelve lines that push E and B follow
    the two arms; [push] names these lines. *)
Definition cuda_push_eb_with
  (Ep Em Ez Bp Bm Bz Jp Jm Jz rho_prev rho_next : c128_2d)
  (rho_prev_coef rho_next_coef j_coef : c128_2d)
  (C S_w : f64_2d) (T T_rho : c128_2d) (kr kz : f64_2d) (dt V : Qc)
  (ptcl_feedback use_true_rho : bool) (Nz Nr : nat)
  (iz ir : nat) : stmt :=
  if in_grid iz ir Nz Nr then (
    var Ep_old ::= Ep.[iz, ir] in
    var Em_old ::= Em.[iz, ir] in
    var Ez_old ::= Ez.[iz, ir] in
    if ptcl_feedback then
      let push (rho_diff : complex) : stmt := (
        Ep.[iz, ir] ::=
            T.[iz, ir]*C.[iz, ir]*Ep.[iz, ir] + half*kr.[iz, ir]*rho_diff
            + j_coef.[iz, ir]*Ci*kz.[iz, ir]*V*Jp.[iz, ir]
            + c2*T.[iz, ir]*S_w.[iz, ir]*( - Ci*half*kr.[iz, ir]*Bz.[iz, ir]
            + kz.[iz, ir]*Bp.[iz, ir] - mu_0*Jp.[iz, ir] ) ;;
        Em.[iz, ir] ::=
            T.[iz, ir]*C.[iz, ir]*Em.[iz, ir] - half*kr.[iz, ir]*rho_diff
            + j_coef.[iz, ir]*Ci*kz.[iz, ir]*V*Jm.[iz, ir]
            + c2*T.[iz, ir]*S_w.[iz, ir]*( - Ci*half*kr.[iz, ir]*Bz.[iz, ir]
            - kz.[iz, ir]*Bm.[iz, ir] - mu_0*Jm.[iz, ir] ) ;;
        Ez.[iz, ir] ::=
            T.[iz, ir]*C.[iz, ir]*Ez.[iz, ir] - Ci*kz.[iz, ir]*rho_diff
            + j_coef.[iz, ir]*Ci*kz.[iz, ir]*V*Jz.[iz, ir]
            + c2*T.[iz, ir]*S_w.[iz, ir]*( Ci*kr.[iz, ir]*Bp.[iz, ir]
            + Ci*kr.[iz, ir]*Bm.[iz, ir] - mu_0*Jz.[iz, ir] ) ;;
        Bp.[iz, ir] ::= T.[iz, ir]*C.[iz, ir]*Bp.[iz, ir]
            - T.[iz, ir]*S_w.[iz, ir]*( - Ci*half*kr.[iz, ir]*Ez_old
                        + kz.[iz, ir]*Ep_old )
            + j_coef.[iz, ir]*( - Ci*half*kr.[iz, ir]*Jz.[iz, ir]
                        + kz.[iz, ir]*Jp.[iz, ir] ) ;;
        Bm.[iz, ir] ::= T.[iz, ir]*C.[iz, ir]*Bm.[iz, ir]
            - T.[iz, ir]*S_w.[iz, ir]*( - Ci*half*kr.[iz, ir]*Ez_old
                        - kz.[iz, ir]*Em_old )
            + j_coef.[iz, ir]*( - Ci*half*kr.[iz, ir]*Jz.[iz, ir]
                        - kz.[iz, ir]*Jm.[iz, ir] ) ;;
        Bz.[iz, ir] ::= T.[iz, ir]*C.[iz, ir]*Bz.[iz, ir]
            - T.[iz, ir]*S_w.[iz, ir]*( Ci*kr.[iz, ir]*Ep_old
                        + Ci*kr.[iz, ir]*Em_old )
            + j_coef.[iz, ir]*( Ci*kr.[iz, ir]*Jp.[iz, ir]
                        + Ci*kr.[iz, ir]*Jm.[iz, ir] ) )%S in
      if use_true_rho then
        var rho_diff ::= rho_next_coef.[iz, ir] * rho_next.[iz, ir]
                - rho_prev_coef.[iz, ir] * rho_prev.[iz, ir] in
        push rho_diff
      else
        var divE ::= kr.[iz, ir]*( Ep.[iz, ir] - Em.[iz, ir] )
            + Ci*kz.[iz, ir]*Ez.[iz, ir] in
        var divJ ::= kr.[iz, ir]*( Jp.[iz, ir] - Jm.[iz, ir] )
            + Ci*kz.[iz, ir]*Jz.[iz, ir] in
        var rho_diff ::= ( T.[iz, ir] * rho_next_coef.[iz, ir]
          - rho_prev_coef.[iz, ir] )
          * epsilon_0 * divE + T_rho.[iz, ir]
          * rho_next_coef.[iz, ir] * dt * divJ in
        push rho_diff
    else
      Ep.[iz, ir] ::= T.[iz, ir]*C.[iz, ir]*Ep.[iz, ir]
          + c2*T.[iz, ir]*S_w.[iz, ir]*( - Ci*half*kr.[iz, ir]*Bz.[iz, ir]
          + kz.[iz, ir]*Bp.[iz, ir] ) ;;
      Em.[iz, ir] ::= T.[iz, ir]*C.[iz, ir]*Em.[iz, ir]
          + c2*T.[iz, ir]*S_w.[iz, ir]*( - Ci*half*kr.[iz, ir]*Bz.[iz, ir]
          - kz.[iz, ir]*Bm.[iz, ir] ) ;;
      Ez.[iz, ir] ::= T.[iz, ir]*C.[iz, ir]*Ez.[iz, ir]
          + c2*T.[iz, ir]*S_w.[iz, ir]*( Ci*kr.[iz, ir]*Bp.[iz, ir]
          + Ci*kr.[iz, ir]*Bm.[iz, ir] ) ;;
      Bp.[iz, ir] ::= T.[iz, ir]*C.[iz, ir]*Bp.[iz, ir]
          - T.[iz, ir]*S_w.[iz, ir]*( - Ci*half*kr.[iz, ir]*Ez_old
                      + kz.[iz, ir]*Ep_old ) ;;
      Bm.[iz, ir] ::= T.[iz, ir]*C.[iz, ir]*Bm.[iz, ir]
          - T.[iz, ir]*S_w.[iz, ir]*( - Ci*half*kr.[iz, ir]*Ez_old
                      - kz.[iz, ir]*Em_old ) ;;
      Bz.[iz, ir] ::= T.[iz, ir]*C.[iz, ir]*Bz.[iz, ir]
          - T.[iz, ir]*S_w.[iz, ir]*( Ci*kr.[iz, ir]*Ep_old
                      + Ci*kr.[iz, ir]*Em_old ) )%S
  else skip.

End PhysicalConstants.

Definition cuda_push_rho (rho_prev rho_next : c128_2d) (Nz Nr : nat)
  (iz ir : nat) : stmt :=
  if in_grid iz ir Nz Nr then (
    rho_prev.[iz, ir] ::= rho_next.[iz, ir] ;;
    rho_next.[iz, ir] ::= C0 )%S
  else skip.

Definition cuda_filter_scalar (field : c128_2d) (filter_array : f64_2d)
  (Nz Nr : nat) (iz ir : nat) : stmt :=
  if in_grid iz ir Nz Nr then (
    field.[iz, ir] ::= filter_array.[iz, ir]*field.[iz, ir] )%S
  else skip.

Definition cuda_filter_vector (fieldr fieldt fieldz : c128_2d)
  (filter_array : f64_2d) (Nz Nr : nat) (iz ir : nat) : stmt :=
  if in_grid iz ir Nz Nr then (
    fieldr.[iz, ir] ::= filter_array.[iz, ir]*fieldr.[iz, ir] ;;
    fieldt.[iz, ir] ::= filter_array.[iz, ir]*fieldt.[iz, ir] ;;
    fieldz.[iz, ir] ::= filter_array.[iz, ir]*fieldz.[iz, ir] )%S
  else skip.

(** ** Kernel launches *)

(** The threads of a grid of [gz] by [gr] threads. *)
Definition threads (gz gr : nat) : list (nat * nat) :=
  iz ← seq 0%nat gz; pair iz <$> seq 0%nat gr.

(** The threads of a launch are run one after the other.  Every kernel of
    this file reads and writes the cell of its thread only, so that the
    order of the threads does not matter ([run_threads_order] below). *)
Fixpoint run_threads (k : nat → nat → stmt) (ts : list (nat * nat)) : stmt :=
  match ts with
  | [] => skip
  | (iz, ir) :: ts' => λ h, h' ← k iz ir h; run_threads k ts' h'
  end.

Definition launch (k : nat → nat → stmt) (gz gr : nat) : stmt :=
  run_threads k (threads gz gr).

(** ** Vocabulary of the specifications *)

(** The row lengths of [a], when [a] is allocated. *)
Definition shape_of (h : heap) (a : c128_2d) : option (list nat) :=
  dims <$> c128 h !! a.

(** The pointwise product [a * b] of two real arrays. *)
Definition pointwise_mul (a b : list (list Qc)) : list (list Qc) :=
  zip_with (zip_with Qcmult) a b.

(** An array handle denotes an array of [Nz] by [Nr] cells. *)
Definition alloc (h : heap) (Nz Nr : nat) (a : c128_2d) : Prop :=
  ∃ arr, c128 h !! a = Some arr ∧ has_shape arr Nz Nr.
Definition allocf (h : heap) (Nz Nr : nat) (a : f64_2d) : Prop :=
  ∃ arr, f64 h !! a = Some arr ∧ has_shape arr Nz Nr.
Definition allocv (h : heap) (Nr : nat) (a : f64_1d) : Prop :=
  ∃ arr, f64v h !! a = Some arr ∧ length arr = Nr.

(** Two memories that a thread working on the cell [(iz, ir)] cannot tell
    apart: the same complex values at that cell, the same shapes and the
    same real coefficients. *)
Record cell_eq (iz ir : nat) (h1 h2 : heap) : Prop := CellEq {
  ce_rd : ∀ a, rd a iz ir h1 = rd a iz ir h2;
  ce_shape : ∀ a, shape_of h1 a = shape_of h2 a;
  ce_f64 : f64 h1 = f64 h2;
  ce_f64v : f64v h1 = f64v h2
}.

(** An expression, a guard or a statement that depends only on the cell
    [(iz, ir)]. *)
Definition e_local (iz ir : nat) (e : expr) : Prop :=
  ∀ h1 h2, cell_eq iz ir h1 h2 → e h1 = e h2.
Definition g_local (iz ir : nat) (g : guard) : Prop :=
  ∀ h1 h2, cell_eq iz ir h1 h2 → g h1 = g h2.
Definition s_local (iz ir : nat) (s : stmt) : Prop :=
  ∀ h1 h2, cell_eq iz ir h1 h2 →
    option_Forall2 (cell_eq iz ir) (s h1) (s h2).

(** A statement that leaves every cell other than [(iz, ir)] as it is. *)
Definition s_frame (iz ir : nat) (s : stmt) : Prop :=
  ∀ h h', s h = Some h' → ∀ i j, (i, j) ≠ (iz, ir) → cell_eq i j h h'.

(** A statement that writes to no array outside [W]. *)
Definition s_writes (W : list c128_2d) (s : stmt) : Prop :=
  ∀ h h', s h = Some h' →
    (∀ a, a ∉ W → c128 h' !! a = c128 h !! a)
    ∧ f64 h' = f64 h ∧ f64v h' = f64v h.

(** The arrays [L] and the real arrays [Lf] are allocated with [Nz] by
    [Nr] cells. *)
Definition allocated (L : list c128_2d) (Lf : list f64_2d) (Nz Nr : nat)
  (h : heap) : Prop :=
  Forall (alloc h Nz Nr) L ∧ Forall (allocf h Nz Nr) Lf.

(** An expression or a statement that stays within such arrays, and
    therefore does not fail. *)
Definition e_safe L Lf Nz Nr (e : expr) : Prop :=
  ∀ h, allocated L Lf Nz Nr h → is_Some (e h).
Definition s_safe L Lf Nz Nr (s : stmt) : Prop :=
  ∀ h, allocated L Lf Nz Nr h → ∃ h', s h = Some h' ∧ allocated L Lf Nz Nr h'.

(** ** The field push, cell by cell *)

(** The values that the twenty arrays of [cuda_push_eb_with] hold at one
    cell. *)
Record cellv : Type := CellV {
  v_Ep : complex; v_Em : complex; v_Ez : complex;
  v_Bp : complex; v_Bm : complex; v_Bz : complex;
  v_Jp : complex; v_Jm : complex; v_Jz : complex;
  v_rho_prev : complex; v_rho_next : complex;
  v_rho_prev_coef : complex; v_rho_next_coef : complex; v_j_coef : complex;
  v_C : Qc; v_S_w : Qc; v_T : complex; v_T_rho : complex;
  v_kr : Qc; v_kz : Qc
}.

(** The memory [h] holds the values [s] at the cell [(iz, ir)] of the
    arrays passed to the kernel. *)
Definition cell_at
  (Ep Em Ez Bp Bm Bz Jp Jm Jz rho_prev rho_next : c128_2d)
  (rho_prev_coef rho_next_coef j_coef : c128_2d)
  (C S_w : f64_2d) (T T_rho : c128_2d) (kr kz : f64_2d)
  (h : heap) (iz ir : nat) (s : cellv) : Prop :=
  rd Ep iz ir h = Some (v_Ep s) ∧ rd Em iz ir h = Some (v_Em s)
  ∧ rd Ez iz ir h = Some (v_Ez s) ∧ rd Bp iz ir h = Some (v_Bp s)
  ∧ rd Bm iz ir h = Some (v_Bm s) ∧ rd Bz iz ir h = Some (v_Bz s)
  ∧ rd Jp iz ir h = Some (v_Jp s) ∧ rd Jm iz ir h = Some (v_Jm s)
  ∧ rd Jz iz ir h = Some (v_Jz s)
  ∧ rd rho_prev iz ir h = Some (v_rho_prev s)
  ∧ rd rho_next iz ir h = Some (v_rho_next s)
  ∧ rd rho_prev_coef iz ir h = Some (v_rho_prev_coef s)
  ∧ rd rho_next_coef iz ir h = Some (v_rho_next_coef s)
  ∧ rd j_coef iz ir h = Some (v_j_coef s)
  ∧ rdf C iz ir h = Some (RtoC (v_C s))
  ∧ rdf S_w iz ir h = Some (RtoC (v_S_w s))
  ∧ rd T iz ir h = Some (v_T s) ∧ rd T_rho iz ir h = Some (v_T_rho s)
  ∧ rdf kr iz ir h = Some (RtoC (v_kr s))
  ∧ rdf kz iz ir h = Some (RtoC (v_kz s)).

Section FieldPushFormulas.

Variables c epsilon_0 mu_0 : Qc.
Variables dt V : Qc.
Variable s : cellv.

Local Abbreviation c2 := (c2 c).
Local Abbreviation Ep := (v_Ep s).
Local Abbreviation Em := (v_Em s).
Local Abbreviation Ez := (v_Ez s).
Local Abbreviation Bp := (v_Bp s).
Local Abbreviation Bm := (v_Bm s).
Local Abbreviation Bz := (v_Bz s).
Local Abbreviation Jp := (v_Jp s).
Local Abbreviation Jm := (v_Jm s).
Local Abbreviation Jz := (v_Jz s).
Local Abbreviation rho_prev := (v_rho_prev s).
Local Abbreviation rho_next := (v_rho_next s).
Local Abbreviation rho_prev_coef := (v_rho_prev_coef s).
Local Abbreviation rho_next_coef := (v_rho_next_coef s).
Local Abbreviation j_coef := (v_j_coef s).
Local Abbreviation C := (v_C s).
Local Abbreviation S_w := (v_S_w s).
Local Abbreviation T := (v_T s).
Local Abbreviation T_rho := (v_T_rho s).
Local Abbreviation kr := (v_kr s).
Local Abbreviation kz := (v_kz s).
Local Abbreviation i := Ci.

(** The charge-density source term, from the deposited charge or from the
    divergences of E and J. *)
Definition rho_diff_true : complex :=
  rho_next_coef*rho_next - rho_prev_coef*rho_prev.

Definition divE : complex := kr*(Ep - Em) + i*kz*Ez.
Definition divJ : complex := kr*(Jp - Jm) + i*kz*Jz.

Definition rho_diff_div : complex :=
  (T*rho_next_coef - rho_prev_coef)*epsilon_0*divE
  + T_rho*rho_next_coef*dt*divJ.

Definition rho_diff_of (use_true_rho : bool) : complex :=
  if use_true_rho then rho_diff_true else rho_diff_div.

(** The per-component formulas of the push with particle feedback. *)
Definition Ep_push (rho_diff : complex) : complex :=
  T*C*Ep + half*kr*rho_diff + j_coef*i*kz*V*Jp
  + c2*T*S_w*(-i*half*kr*Bz + kz*Bp - mu_0*Jp).

Definition Em_push (rho_diff : complex) : complex :=
  T*C*Em - half*kr*rho_diff + j_coef*i*kz*V*Jm
  + c2*T*S_w*(-i*half*kr*Bz - kz*Bm - mu_0*Jm).

Definition Ez_push (rho_diff : complex) : complex :=
  T*C*Ez - i*kz*rho_diff + j_coef*i*kz*V*Jz
  + c2*T*S_w*(i*kr*Bp + i*kr*Bm - mu_0*Jz).

Definition Bp_push : complex :=
  T*C*Bp - T*S_w*(-i*half*kr*Ez + kz*Ep) + j_coef*(-i*half*kr*Jz + kz*Jp).

Definition Bm_push : complex :=
  T*C*Bm - T*S_w*(-i*half*kr*Ez - kz*Em) + j_coef*(-i*half*kr*Jz - kz*Jm).

Definition Bz_push : complex :=
  T*C*Bz - T*S_w*(i*kr*Ep + i*kr*Em) + j_coef*(i*kr*Jp + i*kr*Jm).

(** The source-free update: [E_new = T*C*E + c2*T*S_w*curl(B)] and
    [B_new = T*C*B - T*S_w*curl(E_old)]. *)
Definition Ep_vacuum : complex := T*C*Ep + c2*T*S_w*(-i*half*kr*Bz + kz*Bp).
Definition Em_vacuum : complex := T*C*Em + c2*T*S_w*(-i*half*kr*Bz - kz*Bm).
Definition Ez_vacuum : complex := T*C*Ez + c2*T*S_w*(i*kr*Bp + i*kr*Bm).
Definition Bp_vacuum : complex := T*C*Bp - T*S_w*(-i*half*kr*Ez + kz*Ep).
Definition Bm_vacuum : complex := T*C*Bm - T*S_w*(-i*half*kr*Ez - kz*Em).
Definition Bz_vacuum : complex := T*C*Bz - T*S_w*(i*kr*Ep + i*kr*Em).

(** The cell after the push: the six field components are replaced, the
    sources and the coefficients are kept. *)
Definition with_fields (Ep' Em' Ez' Bp' Bm' Bz' : complex) : cellv :=
  CellV Ep' Em' Ez' Bp' Bm' Bz' Jp Jm Jz rho_prev rho_next
    rho_prev_coef rho_next_coef j_coef C S_w T T_rho kr kz.

Definition push_cell (ptcl_feedback use_true_rho : bool) : cellv :=
  if ptcl_feedback then
    let rho_diff := rho_diff_of use_true_rho in
    with_fields (Ep_push rho_diff) (Em_push rho_diff) (Ez_push rho_diff)
      Bp_push Bm_push Bz_push
  else
    with_fields Ep_vacuum Em_vacuum Ez_vacuum Bp_vacuum Bm_vacuum Bz_vacuum.

End FieldPushFormulas.

(** The cell with its currents and charge densities set to zero. *)
Definition without_sources (s : cellv) : cellv :=
  CellV (v_Ep s) (v_Em s) (v_Ez s) (v_Bp s) (v_Bm s) (v_Bz s)
    C0 C0 C0 C0 C0
    (v_rho_prev_coef s) (v_rho_next_coef s) (v_j_coef s)
    (v_C s) (v_S_w s) (v_T s) (v_T_rho s) (v_kr s) (v_kz s).

(** ** The current correction, cell by cell *)

(** The values that the ten arrays of [cuda_correct_currents] hold at one
    cell. *)
Record jcell : Type := JCell {
  u_rho_prev : complex; u_rho_next : complex;
  u_Jp : complex; u_Jm : complex; u_Jz : complex;
  u_kz : Qc; u_kr : Qc; u_inv_k2 : Qc;
  u_j_corr_coef : complex; u_T : complex
}.

Definition jcell_at (rho_prev rho_next Jp Jm Jz : c128_2d)
  (kz kr inv_k2 : f64_2d) (j_corr_coef T : c128_2d)
  (h : heap) (iz ir : nat) (s : jcell) : Prop :=
  rd rho_prev iz ir h = Some (u_rho_prev s)
  ∧ rd rho_next iz ir h = Some (u_rho_next s)
  ∧ rd Jp iz ir h = Some (u_Jp s) ∧ rd Jm iz ir h = Some (u_Jm s)
  ∧ rd Jz iz ir h = Some (u_Jz s)
  ∧ rdf kz iz ir h = Some (RtoC (u_kz s))
  ∧ rdf kr iz ir h = Some (RtoC (u_kr s))
  ∧ rdf inv_k2 iz ir h = Some (RtoC (u_inv_k2 s))
  ∧ rd j_corr_coef iz ir h = Some (u_j_corr_coef s)
  ∧ rd T iz ir h = Some (u_T s).

Section CurrentCorrectionFormulas.

Variable s : jcell.

Local Abbreviation rho_prev := (u_rho_prev s).
Local Abbreviation rho_next := (u_rho_next s).
Local Abbreviation Jp := (u_Jp s).
Local Abbreviation Jm := (u_Jm s).
Local Abbreviation Jz := (u_Jz s).
Local Abbreviation kz := (u_kz s).
Local Abbreviation kr := (u_kr s).
Local Abbreviation inv_k2 := (u_inv_k2 s).
Local Abbreviation j_corr_coef := (u_j_corr_coef s).
Local Abbreviation T := (u_T s).
Local Abbreviation i := Ci.

(** The left-hand side of the continuity equation in spectral space. *)
Definition residual : complex :=
  j_corr_coef*(rho_next - rho_prev*T) + i*kz*Jz + kr*(Jp - Jm).

(** The correction scalar. *)
Definition correction_F : complex :=
  - inv_k2 * ( j_corr_coef*(rho_next - rho_prev*T) + i*kz*Jz + kr*(Jp - Jm) ).

(** The cell after the correction: [Jp += 0.5*kr*F], [Jm += -0.5*kr*F],
    [Jz += -i*kz*F]. *)
Definition corrected : jcell :=
  let F := correction_F in
  JCell rho_prev rho_next
    (Jp + half*kr*F) (Jm + - half*kr*F) (Jz + - i*kz*F)
    kz kr inv_k2 j_corr_coef T.

End CurrentCorrectionFormulas.

(** ** The regression scenario

    A grid of 4 by 4 cells and a single mode.  [kz] and [kr] are zero
    except at the cell [(2, 1)], where [kz = 1] and [kr = 0.5]; [Jz = 1 + 0i]
    at that cell; all fields, the other currents and the charge densities
    are zero; [T = C = 1], [S_w = dt], [T_rho = 1] and [j_coef = dt].  The
    scenario leaves the timestep [dt] and the coefficients [rho_prev_coef]
    and [rho_next_coef] open; here they are uniform, with the values [rpc]
    and [rnc]. *)

Definition uniform {A} (Nz Nr : nat) (x : A) : list (list A) :=
  replicate Nz (replicate Nr x).

Definition g_Ep := C128 1.
Definition g_Em := C128 2.
Definition g_Ez := C128 3.
Definition g_Bp := C128 4.
Definition g_Bm := C128 5.
Definition g_Bz := C128 6.
Definition g_Jp := C128 7.
Definition g_Jm := C128 8.
Definition g_Jz := C128 9.
Definition g_rho_prev := C128 10.
Definition g_rho_next := C128 11.
Definition g_rho_prev_coef := C128 12.
Definition g_rho_next_coef := C128 13.
Definition g_j_coef := C128 14.
Definition g_T := C128 15.
Definition g_T_rho := C128 16.
Definition g_C := F64 1.
Definition g_S_w := F64 2.
Definition g_kr := F64 3.
Definition g_kz := F64 4.
(** Two more coefficient arrays: the pointwise square of [kr], and the
    regularised inverse of [kz^2 + kr^2]. *)
Definition g_kr2 := F64 5.
Definition g_inv_k2 := F64 6.

Definition golden (dt : Qc) (rpc rnc : complex) : heap :=
  let zero := uniform 4 4 C0 in
  Heap
    (list_to_map
       [(g_Ep, zero); (g_Em, zero); (g_Ez, zero);
        (g_Bp, zero); (g_Bm, zero); (g_Bz, zero);
        (g_Jp, zero); (g_Jm, zero); (g_Jz, update2 zero 2 1 C1);
        (g_rho_prev, zero); (g_rho_next, zero);
        (g_rho_prev_coef, uniform 4 4 rpc);
        (g_rho_next_coef, uniform 4 4 rnc);
        (g_j_coef, uniform 4 4 (RtoC dt));
        (g_T, uniform 4 4 C1); (g_T_rho, uniform 4 4 C1)])
    (list_to_map
       [(g_C, uniform 4 4 1); (g_S_w, uniform 4 4 dt);
        (g_kr, update2 (uniform 4 4 0) 2 1 half);
        (g_kz, update2 (uniform 4 4 0) 2 1 1)])
    ∅.

(** The values of the scenario at one cell. *)
Definition golden_cell (dt : Qc) (rpc rnc : complex) (iz ir : nat) : cellv :=
  let here := Nat.eqb iz 2 && Nat.eqb ir 1 in
  CellV C0 C0 C0 C0 C0 C0
    C0 C0 (if here then C1 else C0) C0 C0
    rpc rnc (RtoC dt)
    1 dt C1 C1
    (if here then half else 0) (if here then 1 else 0).

(** The memory of the scenario with [dt = 1], [rho_prev_coef = 0] and
    [rho_next_coef = 1], and with the two further coefficient arrays. *)
Definition example_heap : heap :=
  let h := golden 1 C0 C1 in
  let kr := update2 (uniform 4 4 0) 2 1 half in
  Heap (c128 h)
    (<[g_kr2 := pointwise_mul kr kr]>
       (<[g_inv_k2 := update2 (uniform 4 4 0) 2 1 (Q2Qc (4 # 5))]> (f64 h)))
    ∅.

(** The memory of the scenario without its current. *)
Definition golden_no_sources (dt : Qc) (rpc rnc : complex) : heap :=
  Heap (<[g_Jz := uniform 4 4 C0]> (c128 (golden dt rpc rnc)))
       (f64 (golden dt rpc rnc)) ∅.

(** The push of the scenario. *)
Definition golden_push (c epsilon_0 mu_0 dt V : Qc)
  (ptcl_feedback use_true_rho : bool) : nat → nat → stmt :=
  cuda_push_eb_with c epsilon_0 mu_0
    g_Ep g_Em g_Ez g_Bp g_Bm g_Bz g_Jp g_Jm g_Jz g_rho_prev g_rho_next
    g_rho_prev_coef g_rho_next_coef g_j_coef g_C g_S_w g_T g_T_rho
    g_kr g_kz dt V ptcl_feedback use_true_rho 4 4.

(** Decimal values of [scipy.constants.c], [epsilon_0] and [mu_0] (CODATA
    2018), for the places where a number is needed. *)
Definition c_SI : Qc := Q2Qc 299792458.
Definition epsilon_0_SI : Qc := Q2Qc (88541878128 # 10000000000000000000000).
Definition mu_0_SI : Qc := Q2Qc (125663706212 # 100000000000000000).

(** What a launch leaves in the cell [a[iz, ir]]. *)
Definition observe (a : c128_2d) (iz ir : nat) (r : option heap)
  : option complex :=
  h ← r; rd a iz ir h.

(** The example memory with one more array, of 2 by 2 cells, and with two
    vectors of inverse cell volumes, one entry per radial cell. *)
Definition g_small := C128 17.
Definition g_invvol0 := F64v 1.
Definition g_invvol1 := F64v 2.

Definition example_heap_vol : heap :=
  Heap (<[g_small := uniform 2 2 C1]> (c128 example_heap))
    (f64 example_heap)
    (list_to_map
       [(g_invvol0, [1; half; half; half]); (g_invvol1, [half; 1; 1; 1])]).

(** ** The spectral filter in binary64

    The kernels compute in IEEE 754 binary64, where every operation
    rounds its result.  The two filter kernels are embedded here once
    more, over binary64 numbers (the primitive floats), with the same
    memory of array handles.  A decimal literal denotes the nearest
    binary64 number, as it does in Python. *)

#[local] Set Warnings "-inexact-float".

Module Binary64.

Record complex128 : Type := Complex128 { real : float; imag : float }.

(** A [float64] operand of a complex operation is promoted to
    [complex128], with imaginary part zero. *)
Definition promote (x : float) : complex128 := Complex128 x 0%float.

(** The product of two [complex128] values, [(ac - bd) + i(ad + bc)],
    where each of the six operations rounds to binary64. *)
Definition cmul (x y : complex128) : complex128 :=
  let a := real x in let b := imag x in
  let c := real y in let d := imag y in
  Complex128 (a * c - b * d)%float (a * d + b * c)%float.

Record heap : Type := Heap {
  c128 : gmap c128_2d (list (list complex128));
  f64 : gmap f64_2d (list (list float))
}.

Definition rd (a : c128_2d) (iz ir : nat) (h : heap) : option complex128 :=
  arr ← c128 h !! a; lookup2 arr iz ir.
Definition rdf (a : f64_2d) (iz ir : nat) (h : heap) : option complex128 :=
  arr ← f64 h !! a; x ← lookup2 arr iz ir; Some (promote x).

(** [a[iz, ir] = v], for a cell that exists. *)
Definition wr (a : c128_2d) (iz ir : nat) (v : complex128) (h : heap)
  : option heap :=
  _ ← rd a iz ir h;
  Some (Heap (alter (λ arr, update2 arr iz ir v) a (c128 h)) (f64 h)).

Definition cuda_filter_scalar (field : c128_2d) (filter_array : f64_2d)
  (Nz Nr : nat) (iz ir : nat) (h : heap) : option heap :=
  if in_grid iz ir Nz Nr then
    w ← rdf filter_array iz ir h; x ← rd field iz ir h;
    wr field iz ir (cmul w x) h
  else Some h.

Definition cuda_filter_vector (fieldr fieldt fieldz : c128_2d)
  (filter_array : f64_2d) (Nz Nr : nat) (iz ir : nat) (h : heap)
  : option heap :=
  if in_grid iz ir Nz Nr then
    h1 ← (w ← rdf filter_array iz ir h; x ← rd fieldr iz ir h;
          wr fieldr iz ir (cmul w x) h);
    h2 ← (w ← rdf filter_array iz ir h1; x ← rd fieldt iz ir h1;
          wr fieldt iz ir (cmul w x) h1);
    w ← rdf filter_array iz ir h2; x ← rd fieldz iz ir h2;
    wr fieldz iz ir (cmul w x) h2
  else Some h.

Fixpoint run_threads (k : nat → nat → heap → option heap)
  (ts : list (nat * nat)) (h : heap) : option heap :=
  match ts with
  | [] => Some h
  | (iz, ir) :: ts' => h' ← k iz ir h; run_threads k ts' h'
  end.

Definition launch (k : nat → nat → heap → option heap) (gz gr : nat)
  : heap → option heap :=
  run_threads k (threads gz gr).

(** The pointwise product [a * b] of two [float64] arrays, as numpy
    computes it. *)
Definition pointwise_mul (a b : list (list float)) : list (list float) :=
  zip_with (zip_with PrimFloat.mul) a b.

(** A memory of 2 by 2 cells: every component holds [3 + 3i] in every
    cell, the weights are [1], [0.5], [0.3] and [0], and [g_kr2] holds
    their pointwise product with themselves. *)
Definition weights : list (list float) :=
  [[1; 0.5]; [0.3; 0]]%float.

Definition example_heap : heap :=
  let f := uniform 2 2 (Complex128 3 3)%float in
  Heap (list_to_map [(g_Ep, f); (g_Jp, f); (g_Jm, f); (g_Jz, f)])
       (list_to_map [(g_kr, weights); (g_kr2, pointwise_mul weights weights)]).

(** The two runs that the claim compares, observed at the cell
    [a[iz, ir]]. *)
Definition twice (k : f64_2d → nat → nat → nat → nat → heap → option heap)
  (a : c128_2d) (iz ir : nat) : option complex128 :=
  h1 ← launch (k g_kr 2 2)%nat 2 2 example_heap;
  h2 ← launch (k g_kr 2 2)%nat 2 2 h1;
  rd a iz ir h2.

Definition once_squared
  (k : f64_2d → nat → nat → nat → nat → heap → option heap)
  (a : c128_2d) (iz ir : nat) : option complex128 :=
  h3 ← launch (k g_kr2 2 2)%nat 2 2 example_heap;
  rd a iz ir h3.

End Binary64.

(** ** The kernels as a family *)

(** The thread body of one of the nine kernels, for some arguments. *)
Inductive kernel : (nat → nat → stmt) → Prop :=
  | K_erase_scalar mode0 mode1 :
      kernel (cuda_erase_scalar mode0 mode1)
  | K_erase_vector mode0r mode1r mode0t mode1t mode0z mode1z :
      kernel (cuda_erase_vector mode0r mode1r mode0t mode1t mode0z mode1z)
  | K_divide_scalar mode0 mode1 invvol0 invvol1 :
      kernel (cuda_divide_scalar_by_volume mode0 mode1 invvol0 invvol1)
  | K_divide_vector mode0r mode1r mode0t mode1t mode0z mode1z invvol0 invvol1 :
      kernel (cuda_divide_vector_by_volume mode0r mode1r mode0t mode1t
                mode0z mode1z invvol0 invvol1)
  | K_correct_currents rho_prev rho_next Jp Jm Jz kz kr inv_k2 j_corr_coef T
      inv_dt Nz Nr :
      kernel (cuda_correct_currents rho_prev rho_next Jp Jm Jz kz kr inv_k2
                j_corr_coef T inv_dt Nz Nr)
  | K_push_eb_with c epsilon_0 mu_0 Ep Em Ez Bp Bm Bz Jp Jm Jz
      rho_prev rho_next rho_prev_coef rho_next_coef j_coef C S_w T T_rho
      kr kz dt V ptcl_feedback use_true_rho Nz Nr :
      kernel (cuda_push_eb_with c epsilon_0 mu_0 Ep Em Ez Bp Bm Bz Jp Jm Jz
                rho_prev rho_next rho_prev_coef rho_next_coef j_coef C S_w
                T T_rho kr kz dt V ptcl_feedback use_true_rho Nz Nr)
  | K_push_rho rho_prev rho_next Nz Nr :
      kernel (cuda_push_rho rho_prev rho_next Nz Nr)
  | K_filter_scalar field filter_array Nz Nr :
      kernel (cuda_filter_scalar field filter_array Nz Nr)
  | K_filter_vector fieldr fieldt fieldz filter_array Nz Nr :
      kernel (cuda_filter_vector fieldr fieldt fieldz filter_array Nz Nr).

(** The divergence of B at a cell, in the basis (p, m, z). *)
Definition divB (s : cellv) : complex :=
  (v_kr s * (v_Bp s - v_Bm s) + Ci * v_kz s * v_Bz s)%C.

(** * Properties *)

(** ** Complex arithmetic *)

Lemma half_double : half + half = 1.
Proof. apply Qc_is_canon. reflexivity. Qed.

Lemma half_inv : half = / (1 + 1).
Proof. apply Qc_is_canon. reflexivity. Qed.

Lemma two_neq_0 : (1 + 1 : Qc) ≠ 0.
Proof. intros H. apply (f_equal this) in H. discriminate H. Qed.

Lemma complex_eq (z w : complex) : Re z = Re w → Im z = Im w → z = w.
Proof. destruct z, w; simpl; congruence. Qed.

Lemma Ceqb_eq (z w : complex) : Ceqb z w = true → z = w.
Proof.
  unfold Ceqb. intros [H1 H2]%andb_true_iff.
  apply complex_eq; apply Qc_is_canon; by apply Qeq_bool_eq.
Qed.

Lemma Ceqb_neq (z w : complex) : Ceqb z w = false → z ≠ w.
Proof.
  unfold Ceqb. intros H ->. rewrite !Qeq_bool_refl in H. discriminate H.
Qed.

(** Equations between complex polynomials, component by component. *)
Ltac cx_ring :=
  apply complex_eq;
  cbn [Re Im Cadd Csub Cmul Copp RtoC Ci C0 C1];
  ring.

(** Promotion to complex commutes with the real operations. *)
Lemma RtoC_mul x y : (RtoC x * RtoC y)%C = RtoC (x * y).
Proof. cx_ring. Qed.

Lemma RtoC_add x y : (RtoC x + RtoC y)%C = RtoC (x + y).
Proof. cx_ring. Qed.

(** ** Arrays *)

Section Arrays.
Context {A : Type}.
Implicit Types (arr : list (list A)) (v : A).

Lemma lookup2_update2_eq arr iz ir v :
  lookup2 (update2 arr iz ir v) iz ir = (λ _, v) <$> lookup2 arr iz ir.
Proof.
  unfold lookup2, update2. rewrite list_lookup_alter_eq.
  destruct (arr !! iz) as [row|]; simpl; [|done].
  destruct (decide (ir < length row)%nat) as [Hlt|Hge].
  - rewrite list_lookup_insert_eq by done.
    by destruct (lookup_lt_is_Some_2 row ir Hlt) as [x ->].
  - rewrite list_insert_ge by lia. by rewrite lookup_ge_None_2 by lia.
Qed.

Lemma lookup2_update2_ne arr iz ir v i j :
  (i, j) ≠ (iz, ir) → lookup2 (update2 arr iz ir v) i j = lookup2 arr i j.
Proof.
  intros Hne. unfold lookup2, update2.
  destruct (decide (iz = i)) as [->|Hi].
  - rewrite list_lookup_alter_eq.
    destruct (arr !! i) as [row|]; simpl; [|done].
    apply list_lookup_insert_ne. congruence.
  - by rewrite list_lookup_alter_ne.
Qed.

Lemma shape_update2 arr iz ir v : shape (update2 arr iz ir v) = shape arr.
Proof.
  unfold shape, update2. rewrite length_alter. f_equal.
  destruct arr as [|row arr]; [done|].
  destruct iz; simpl; [apply length_insert | done].
Qed.

Lemma dims_update2 arr iz ir v : dims (update2 arr iz ir v) = dims arr.
Proof.
  unfold dims, update2. apply list_eq. intros i.
  rewrite !list_lookup_fmap. destruct (decide (iz = i)) as [->|Hne].
  - rewrite list_lookup_alter_eq. destruct (arr !! i); simpl; [|done].
    by rewrite length_insert.
  - by rewrite list_lookup_alter_ne.
Qed.

Lemma dims_shape (arr1 arr2 : list (list A)) :
  dims arr1 = dims arr2 → shape arr1 = shape arr2.
Proof.
  unfold dims, shape. intros Hd.
  destruct arr1, arr2; simpl in Hd; try done.
  injection Hd as Hrow Hrest. f_equal; [|done].
  apply (f_equal length) in Hrest. rewrite !length_fmap in Hrest.
  simpl. by f_equal.
Qed.

Lemma has_shape_dims arr Nz Nr :
  has_shape arr Nz Nr ↔ length (dims arr) = Nz ∧ Forall (λ n, n = Nr) (dims arr).
Proof. unfold has_shape, dims. by rewrite length_fmap, Forall_fmap. Qed.

Lemma has_shape_update2 arr iz ir v Nz Nr :
  has_shape arr Nz Nr → has_shape (update2 arr iz ir v) Nz Nr.
Proof.
  intros [Hlen Hrows]. split.
  - unfold update2. by rewrite length_alter.
  - unfold update2. apply Forall_alter; [done|].
    intros row _ Hrow. by rewrite length_insert.
Qed.

Lemma lookup2_is_Some arr Nz Nr iz ir :
  has_shape arr Nz Nr → (iz < Nz)%nat → (ir < Nr)%nat →
  is_Some (lookup2 arr iz ir).
Proof.
  intros [Hlen Hrows] Hz Hr. unfold lookup2.
  destruct (lookup_lt_is_Some_2 arr iz) as [row Hrow]; [lia|].
  rewrite Hrow. simpl. apply lookup_lt_is_Some_2.
  eapply Forall_lookup_1 in Hrows; [|done]. simpl in Hrows. lia.
Qed.

End Arrays.

(** ** Reading and writing the memory *)

Lemma rd_store a iz ir v h a' i j :
  rd a' i j (store a iz ir v h)
  = if decide (a' = a ∧ i = iz ∧ j = ir)
    then (λ _, v) <$> rd a iz ir h else rd a' i j h.
Proof.
  unfold rd, store; simpl. case_decide as Hc.
  - destruct Hc as (-> & -> & ->). rewrite lookup_alter_eq.
    destruct (c128 h !! a); simpl; [apply lookup2_update2_eq | done].
  - destruct (decide (a' = a)) as [->|Ha].
    + rewrite lookup_alter_eq. destruct (c128 h !! a); simpl; [|done].
      apply lookup2_update2_ne. intros [= -> ->]. by apply Hc.
    + by rewrite lookup_alter_ne.
Qed.

Lemma rd_store_same a iz ir v h :
  is_Some (rd a iz ir h) → rd a iz ir (store a iz ir v h) = Some v.
Proof.
  intros [x Hx]. rewrite rd_store, decide_True by done. by rewrite Hx.
Qed.

Lemma rd_store_other a iz ir v h a' i j x :
  a' ≠ a ∨ (i, j) ≠ (iz, ir) → rd a' i j h = Some x →
  rd a' i j (store a iz ir v h) = Some x.
Proof.
  intros Hne Hx. rewrite rd_store, decide_False; [done|].
  intros (-> & -> & ->). by destruct Hne.
Qed.

Lemma shape_of_store a iz ir v h a' :
  shape_of (store a iz ir v h) a' = shape_of h a'.
Proof.
  unfold shape_of, store; simpl. destruct (decide (a' = a)) as [->|Ha].
  - rewrite lookup_alter_eq. destruct (c128 h !! a); simpl; [|done].
    by rewrite dims_update2.
  - by rewrite lookup_alter_ne.
Qed.

Lemma store_lookup_ne a iz ir v h a' :
  a' ≠ a → c128 (store a iz ir v h) !! a' = c128 h !! a'.
Proof. intros Ha. unfold store; simpl. by rewrite lookup_alter_ne. Qed.

Lemma alloc_store a iz ir v h Nz Nr a' :
  alloc h Nz Nr a' → alloc (store a iz ir v h) Nz Nr a'.
Proof.
  intros (arr & Harr & Hshape). unfold alloc, store; simpl.
  destruct (decide (a' = a)) as [->|Ha].
  - rewrite lookup_alter_eq, Harr. simpl. eexists; split; [done|].
    by apply has_shape_update2.
  - rewrite lookup_alter_ne by done. eauto.
Qed.

Lemma wr_Some a iz ir e h h' :
  wr a iz ir e h = Some h' ↔
  ∃ v, e h = Some v ∧ is_Some (rd a iz ir h) ∧ h' = store a iz ir v h.
Proof.
  unfold wr. split.
  - destruct (e h) as [v|]; simpl; [|done].
    destruct (rd a iz ir h); simpl; [|done].
    intros [= <-]. eauto.
  - intros (v & -> & [x ->] & ->). done.
Qed.

Lemma rd_alloc h Nz Nr a iz ir :
  alloc h Nz Nr a → (iz < Nz)%nat → (ir < Nr)%nat → is_Some (rd a iz ir h).
Proof.
  intros (arr & Harr & Hshape) Hz Hr. unfold rd. rewrite Harr. simpl.
  by eapply lookup2_is_Some.
Qed.

Lemma rdf_allocf h Nz Nr a iz ir :
  allocf h Nz Nr a → (iz < Nz)%nat → (ir < Nr)%nat →
  ∃ x : Qc, rdf a iz ir h = Some (RtoC x).
Proof.
  intros (arr & Harr & Hshape) Hz Hr. unfold rdf. rewrite Harr. simpl.
  destruct (lookup2_is_Some arr Nz Nr iz ir) as [x ->]; by eauto.
Qed.

(** ** Cell equivalence *)

#[global] Instance cell_eq_equiv iz ir : Equivalence (cell_eq iz ir).
Proof.
  split.
  - by intros h.
  - intros h1 h2 [Hrd Hsh Hf Hv]. by split.
  - intros h1 h2 h3 [Hrd Hsh Hf Hv] [Hrd' Hsh' Hf' Hv'].
    split; intros; etrans; eauto.
Qed.

Lemma cell_eq_store_other a iz ir v h i j :
  (i, j) ≠ (iz, ir) → cell_eq i j h (store a iz ir v h).
Proof.
  intros Hne. split; [| |done|done].
  - intros a'. rewrite rd_store, decide_False; [done|].
    intros (-> & -> & ->). done.
  - intros a'. by rewrite shape_of_store.
Qed.

Lemma cell_eq_store a iz ir v h1 h2 :
  cell_eq iz ir h1 h2 →
  cell_eq iz ir (store a iz ir v h1) (store a iz ir v h2).
Proof.
  intros [Hrd Hsh Hf Hv]. split; [| |done|done].
  - intros a'. rewrite !rd_store. case_decide; [|done]. by rewrite Hrd.
  - intros a'. by rewrite !shape_of_store.
Qed.

(** ** Locality of expressions and statements *)

Create HintDb kernel.

Lemma e_local_lit iz ir z : e_local iz ir (lit z).
Proof. by intros h1 h2 _. Qed.

Lemma e_local_rd iz ir a : e_local iz ir (rd a iz ir).
Proof. intros h1 h2 Heq. apply Heq. Qed.

Lemma e_local_rdf iz ir a i j : e_local iz ir (rdf a i j).
Proof. intros h1 h2 Heq. unfold rdf. by rewrite (ce_f64 _ _ _ _ Heq). Qed.

Lemma e_local_rdv iz ir a j : e_local iz ir (rdv a j).
Proof. intros h1 h2 Heq. unfold rdv. by rewrite (ce_f64v _ _ _ _ Heq). Qed.

Lemma e_local_add iz ir e1 e2 :
  e_local iz ir e1 → e_local iz ir e2 → e_local iz ir (e_add e1 e2).
Proof. intros H1 H2 h1 h2 Heq. unfold e_add. by rewrite (H1 _ _ Heq), (H2 _ _ Heq). Qed.

Lemma e_local_sub iz ir e1 e2 :
  e_local iz ir e1 → e_local iz ir e2 → e_local iz ir (e_sub e1 e2).
Proof. intros H1 H2 h1 h2 Heq. unfold e_sub. by rewrite (H1 _ _ Heq), (H2 _ _ Heq). Qed.

Lemma e_local_mul iz ir e1 e2 :
  e_local iz ir e1 → e_local iz ir e2 → e_local iz ir (e_mul e1 e2).
Proof. intros H1 H2 h1 h2 Heq. unfold e_mul. by rewrite (H1 _ _ Heq), (H2 _ _ Heq). Qed.

Lemma e_local_opp iz ir e : e_local iz ir e → e_local iz ir (e_opp e).
Proof. intros H1 h1 h2 Heq. unfold e_opp. by rewrite (H1 _ _ Heq). Qed.

Lemma g_local_in_shape iz ir a i j : g_local iz ir (in_shape a i j).
Proof.
  intros h1 h2 Heq. unfold in_shape.
  pose proof (ce_shape _ _ _ _ Heq a) as Hs. unfold shape_of in Hs.
  destruct (c128 h1 !! a) as [arr1|], (c128 h2 !! a) as [arr2|]; try done.
  cbn [fmap option_fmap option_map] in Hs. cbn [mbind option_bind].
  assert (shape arr1 = shape arr2) as -> by (apply dims_shape; congruence).
  done.
Qed.

Lemma s_local_skip iz ir : s_local iz ir skip.
Proof. intros h1 h2 Heq. by constructor. Qed.

Lemma s_local_wr iz ir a e : e_local iz ir e → s_local iz ir (wr a iz ir e).
Proof.
  intros He h1 h2 Heq. unfold wr. rewrite (He _ _ Heq).
  destruct (e h2) as [v|]; simpl; [|constructor].
  rewrite (ce_rd _ _ _ _ Heq a).
  destruct (rd a iz ir h2); simpl; constructor. by apply cell_eq_store.
Qed.

Lemma s_local_then iz ir s1 s2 :
  s_local iz ir s1 → s_local iz ir s2 → s_local iz ir (then_ s1 s2).
Proof.
  intros H1 H2 h1 h2 Heq. unfold then_.
  destruct (H1 _ _ Heq); simpl; [by apply H2 | constructor].
Qed.

Lemma s_local_let iz ir e body :
  e_local iz ir e → (∀ v, s_local iz ir (body v)) → s_local iz ir (let_ e body).
Proof.
  intros He Hb h1 h2 Heq. unfold let_. rewrite (He _ _ Heq).
  destruct (e h2) as [v|]; simpl; [by apply Hb | constructor].
Qed.

Lemma s_local_when iz ir g s :
  g_local iz ir g → s_local iz ir s → s_local iz ir (when g s).
Proof.
  intros Hg Hs h1 h2 Heq. unfold when. rewrite (Hg _ _ Heq).
  destruct (g h2) as [[]|]; simpl; [by apply Hs | by constructor | constructor].
Qed.

(** ** Frame of a statement *)

Lemma s_frame_skip iz ir : s_frame iz ir skip.
Proof. by intros h h' [= <-] i j _. Qed.

Lemma s_frame_wr iz ir a e : s_frame iz ir (wr a iz ir e).
Proof.
  intros h h' (v & _ & _ & ->)%wr_Some i j Hne. by apply cell_eq_store_other.
Qed.

Lemma s_frame_then iz ir s1 s2 :
  s_frame iz ir s1 → s_frame iz ir s2 → s_frame iz ir (then_ s1 s2).
Proof.
  intros H1 H2 h h' Hs i j Hne. unfold then_ in Hs.
  destruct (s1 h) as [hm|] eqn:Hm; simplify_eq/=.
  etrans; [by eapply H1 | by eapply H2].
Qed.

Lemma s_frame_let iz ir e body :
  (∀ v, s_frame iz ir (body v)) → s_frame iz ir (let_ e body).
Proof.
  intros Hb h h' Hs. unfold let_ in Hs.
  destruct (e h) as [v|]; simplify_eq/=. by eapply Hb.
Qed.

Lemma s_frame_when iz ir g s : s_frame iz ir s → s_frame iz ir (when g s).
Proof.
  intros Hb h h' Hs. unfold when in Hs.
  destruct (g h) as [[]|]; simplify_eq/=; [by eapply Hb | done].
Qed.

(** ** Arrays written by a statement *)

Lemma s_writes_skip W : s_writes W skip.
Proof. by intros h h' [= <-]. Qed.

Lemma s_writes_wr W a iz ir e : a ∈ W → s_writes W (wr a iz ir e).
Proof.
  intros Ha h h' (v & _ & _ & ->)%wr_Some. split; [|done].
  intros a' Ha'. apply store_lookup_ne. by intros ->.
Qed.

Lemma s_writes_then W s1 s2 :
  s_writes W s1 → s_writes W s2 → s_writes W (then_ s1 s2).
Proof.
  intros H1 H2 h h' Hs. unfold then_ in Hs.
  destruct (s1 h) as [hm|] eqn:Hm; simplify_eq/=.
  destruct (H1 _ _ Hm) as (Hc & Hf & Hv), (H2 _ _ Hs) as (Hc' & Hf' & Hv').
  split_and!; [|congruence..]. intros a Ha. by rewrite Hc', Hc.
Qed.

Lemma s_writes_let W e body :
  (∀ v, s_writes W (body v)) → s_writes W (let_ e body).
Proof.
  intros Hb h h' Hs. unfold let_ in Hs.
  destruct (e h) as [v|]; simplify_eq/=. by eapply Hb.
Qed.

Lemma s_writes_when W g s : s_writes W s → s_writes W (when g s).
Proof.
  intros Hb h h' Hs. unfold when in Hs.
  destruct (g h) as [[]|]; simplify_eq/=; [by eapply Hb | done].
Qed.

(** ** Accesses within the arrays *)

Section Safe.

Variables (L : list c128_2d) (Lf : list f64_2d) (Nz Nr : nat).

Lemma e_safe_lit z : e_safe L Lf Nz Nr (lit z).
Proof. by intros h _. Qed.

Lemma e_safe_rd a iz ir :
  a ∈ L → (iz < Nz)%nat → (ir < Nr)%nat → e_safe L Lf Nz Nr (rd a iz ir).
Proof.
  intros Ha Hz Hr h [Hc _]. eapply rd_alloc; [|done..].
  by eapply Forall_forall in Hc.
Qed.

Lemma e_safe_rdf a iz ir :
  a ∈ Lf → (iz < Nz)%nat → (ir < Nr)%nat → e_safe L Lf Nz Nr (rdf a iz ir).
Proof.
  intros Ha Hz Hr h [_ Hf]. eapply Forall_forall in Hf; [|done].
  destruct (rdf_allocf _ _ _ _ iz ir Hf Hz Hr) as [x ->]. by eexists.
Qed.

Lemma e_safe_add e1 e2 :
  e_safe L Lf Nz Nr e1 → e_safe L Lf Nz Nr e2 → e_safe L Lf Nz Nr (e_add e1 e2).
Proof.
  intros H1 H2 h Hh. unfold e_add.
  destruct (H1 h Hh) as [x ->], (H2 h Hh) as [y ->]. by eexists.
Qed.

Lemma e_safe_sub e1 e2 :
  e_safe L Lf Nz Nr e1 → e_safe L Lf Nz Nr e2 → e_safe L Lf Nz Nr (e_sub e1 e2).
Proof.
  intros H1 H2 h Hh. unfold e_sub.
  destruct (H1 h Hh) as [x ->], (H2 h Hh) as [y ->]. by eexists.
Qed.

Lemma e_safe_mul e1 e2 :
  e_safe L Lf Nz Nr e1 → e_safe L Lf Nz Nr e2 → e_safe L Lf Nz Nr (e_mul e1 e2).
Proof.
  intros H1 H2 h Hh. unfold e_mul.
  destruct (H1 h Hh) as [x ->], (H2 h Hh) as [y ->]. by eexists.
Qed.

Lemma e_safe_opp e : e_safe L Lf Nz Nr e → e_safe L Lf Nz Nr (e_opp e).
Proof. intros H1 h Hh. unfold e_opp. destruct (H1 h Hh) as [x ->]. by eexists. Qed.

Lemma s_safe_skip : s_safe L Lf Nz Nr skip.
Proof. intros h Hh. by exists h. Qed.

Lemma s_safe_wr a iz ir e :
  a ∈ L → (iz < Nz)%nat → (ir < Nr)%nat →
  e_safe L Lf Nz Nr e → s_safe L Lf Nz Nr (wr a iz ir e).
Proof.
  intros Ha Hz Hr He h Hh. destruct (He h Hh) as [v Hv].
  exists (store a iz ir v h). split.
  - apply wr_Some. exists v. split_and!; [done| |done].
    by apply (e_safe_rd a iz ir).
  - destruct Hh as [Hc Hf]. split; [|done].
    eapply Forall_impl; [exact Hc|]. intros a' Ha'. by apply alloc_store.
Qed.

Lemma s_safe_then s1 s2 :
  s_safe L Lf Nz Nr s1 → s_safe L Lf Nz Nr s2 → s_safe L Lf Nz Nr (then_ s1 s2).
Proof.
  intros H1 H2 h Hh. unfold then_.
  destruct (H1 h Hh) as (hm & -> & Hm). by apply H2.
Qed.

Lemma s_safe_let e body :
  e_safe L Lf Nz Nr e → (∀ v, s_safe L Lf Nz Nr (body v)) →
  s_safe L Lf Nz Nr (let_ e body).
Proof.
  intros He Hb h Hh. unfold let_. destruct (He h Hh) as [v ->]. by apply Hb.
Qed.

Lemma run_threads_safe k ts :
  (∀ iz ir, s_safe L Lf Nz Nr (k iz ir)) → s_safe L Lf Nz Nr (run_threads k ts).
Proof.
  intros Hk. induction ts as [|[i j] ts IH]; [apply s_safe_skip|].
  intros h Hh. simpl. destruct (Hk i j h Hh) as (hm & -> & Hm). by apply IH.
Qed.

End Safe.

#[global] Hint Resolve e_safe_lit e_safe_rd e_safe_rdf e_safe_add e_safe_sub
  e_safe_mul e_safe_opp s_safe_skip s_safe_wr s_safe_then s_safe_let : kernel.

#[global] Hint Resolve e_local_lit e_local_rd e_local_rdf e_local_rdv
  e_local_add e_local_sub e_local_mul e_local_opp g_local_in_shape
  s_local_skip s_local_wr s_local_then s_local_let s_local_when
  s_frame_skip s_frame_wr s_frame_then s_frame_let s_frame_when
  s_writes_skip s_writes_wr s_writes_then s_writes_let s_writes_when
  : kernel.

(** ** Launches *)

Lemma elem_of_threads gz gr iz ir :
  (iz, ir) ∈ threads gz gr ↔ (iz < gz)%nat ∧ (ir < gr)%nat.
Proof.
  unfold threads. rewrite list_elem_of_bind. split.
  - intros (i & Hin & Hi). apply list_elem_of_fmap in Hin as (j & [= -> ->] & Hj).
    apply elem_of_seq in Hi, Hj. lia.
  - intros [Hz Hr]. exists iz. split; [|apply elem_of_seq; lia].
    apply list_elem_of_fmap. exists ir. split; [done|]. apply elem_of_seq. lia.
Qed.

Lemma NoDup_threads gz gr : NoDup (threads gz gr).
Proof.
  unfold threads. apply NoDup_bind; [| |apply NoDup_seq].
  - intros i1 i2 [i j] _ _ H1 H2.
    apply list_elem_of_fmap in H1 as (? & [= -> ->] & _).
    by apply list_elem_of_fmap in H2 as (? & [= -> ->] & _).
  - intros i _. apply NoDup_fmap_2; [|apply NoDup_seq].
    by intros j1 j2 [= ->].
Qed.

Section Launch.

Variable k : nat → nat → stmt.
Hypothesis k_local : ∀ iz ir, s_local iz ir (k iz ir).
Hypothesis k_frame : ∀ iz ir, s_frame iz ir (k iz ir).

(** A cell that has no thread keeps its contents. *)
Lemma run_threads_frame ts h h' iz ir :
  run_threads k ts h = Some h' → (iz, ir) ∉ ts → cell_eq iz ir h h'.
Proof.
  revert h. induction ts as [|[i j] ts IH]; intros h Hrun Hnotin.
  - by injection Hrun as ->.
  - simpl in Hrun. destruct (k i j h) as [hm|] eqn:Hm; simplify_eq/=.
    apply not_elem_of_cons in Hnotin as [Hne Hnotin].
    etrans; [by eapply k_frame | by apply IH].
Qed.

(** The cell of a thread ends as that thread alone leaves it. *)
Lemma run_threads_at ts h h' iz ir :
  NoDup ts → run_threads k ts h = Some h' → (iz, ir) ∈ ts →
  ∃ h1, k iz ir h = Some h1 ∧ cell_eq iz ir h1 h'.
Proof.
  intros Hnd. revert h. induction Hnd as [|[i j] ts Hnotin Hnd IH];
    intros h Hrun Hin; [by apply elem_of_nil in Hin|].
  simpl in Hrun. destruct (k i j h) as [hm|] eqn:Hm; simplify_eq/=.
  apply elem_of_cons in Hin as [[= -> ->]|Hin].
  - exists hm. split; [done|]. by eapply run_threads_frame.
  - destruct (IH _ Hrun Hin) as (h1' & Hk' & Heq').
    assert ((iz, ir) ≠ (i, j)) as Hne by (by intros [= -> ->]).
    pose proof (k_frame _ _ _ _ Hm _ _ Hne) as Hfr.
    pose proof (k_local iz ir _ _ Hfr) as Hloc. rewrite Hk' in Hloc.
    inversion Hloc as [h1 ? Heq1 Hk|]; simplify_eq.
    exists h1. split; [done|]. by etrans.
Qed.

(** A launch fails only if one of its threads fails on the initial
    memory. *)
Lemma run_threads_is_Some ts h :
  NoDup ts → (∀ iz ir, (iz, ir) ∈ ts → is_Some (k iz ir h)) →
  is_Some (run_threads k ts h).
Proof.
  intros Hnd. revert h. induction Hnd as [|[i j] ts Hnotin Hnd IH];
    intros h Hok; [done|].
  simpl. destruct (Hok i j) as [hm Hm]; [by left|]. rewrite Hm. simpl.
  apply IH. intros iz ir Hin.
  assert ((iz, ir) ≠ (i, j)) as Hne by (by intros [= -> ->]).
  pose proof (k_frame _ _ _ _ Hm _ _ Hne) as Hfr.
  pose proof (k_local iz ir _ _ Hfr) as Hloc.
  destruct (Hok iz ir) as [h1 Hk]; [by right|]. rewrite Hk in Hloc.
  inversion Hloc. by eexists.
Qed.

Lemma launch_spec gz gr h :
  (∀ iz ir, (iz < gz)%nat → (ir < gr)%nat → is_Some (k iz ir h)) →
  ∃ h', launch k gz gr h = Some h'
    ∧ (∀ iz ir, (iz < gz)%nat → (ir < gr)%nat →
         ∃ h1, k iz ir h = Some h1 ∧ cell_eq iz ir h1 h')
    ∧ (∀ iz ir, ¬ ((iz < gz)%nat ∧ (ir < gr)%nat) → cell_eq iz ir h h').
Proof.
  intros Hok. unfold launch.
  destruct (run_threads_is_Some (threads gz gr) h) as [h' Hrun].
  { apply NoDup_threads. }
  { intros iz ir [??]%elem_of_threads. by apply Hok. }
  exists h'. split_and!; [done|..].
  - intros iz ir Hz Hr. eapply run_threads_at; [apply NoDup_threads|done|].
    by apply elem_of_threads.
  - intros iz ir Hout. eapply run_threads_frame; [done|].
    by rewrite elem_of_threads.
Qed.

(** Two orders of the same threads leave the same contents in every
    cell. *)
Lemma run_threads_order ts ts' h h1 h2 iz ir :
  NoDup ts → ts ≡ₚ ts' →
  run_threads k ts h = Some h1 → run_threads k ts' h = Some h2 →
  cell_eq iz ir h1 h2.
Proof.
  intros Hnd Hperm Hrun1 Hrun2.
  assert (NoDup ts') as Hnd' by (by rewrite <- Hperm).
  destruct (decide ((iz, ir) ∈ ts)) as [Hin|Hnotin].
  - destruct (run_threads_at ts h h1 iz ir) as (h0 & Hk & Heq); [done..|].
    destruct (run_threads_at ts' h h2 iz ir) as (h0' & Hk' & Heq'); [done..| |].
    { by rewrite <- Hperm. }
    rewrite Hk in Hk'. injection Hk' as <-. by rewrite <- Heq.
  - transitivity h; [symmetry|]; eapply run_threads_frame; try done.
    by rewrite <- Hperm.
Qed.

End Launch.

Lemma run_threads_writes W k ts :
  (∀ iz ir, s_writes W (k iz ir)) → s_writes W (run_threads k ts).
Proof.
  intros Hk. induction ts as [|[i j] ts IH]; [apply s_writes_skip|].
  intros h h' Hrun. simpl in Hrun.
  destruct (k i j h) as [hm|] eqn:Hm; simplify_eq/=.
  destruct (Hk _ _ _ _ Hm) as (Hc & Hf & Hv), (IH _ _ Hrun) as (Hc' & Hf' & Hv').
  split_and!; [|congruence..]. intros a Ha. by rewrite Hc', Hc.
Qed.

(** ** The kernels are cell-local *)

Ltac kernel_body :=
  intros;
  unfold cuda_erase_scalar, cuda_erase_vector, cuda_divide_scalar_by_volume,
    cuda_divide_vector_by_volume, cuda_correct_currents, cuda_push_eb_with,
    cuda_push_rho, cuda_filter_scalar, cuda_filter_vector;
  unfold assign, operand, operand_expr, operand_complex, operand_float,
    operand_c128, operand_f64, operand_f64v;
  cbv beta iota zeta;
  repeat match goal with |- context [if ?b then _ else _] => destruct b end.

#[global] Hint Resolve list_elem_of_here list_elem_of_further : kernel.

Lemma cuda_push_rho_local rho_prev rho_next Nz Nr iz ir :
  s_local iz ir (cuda_push_rho rho_prev rho_next Nz Nr iz ir).
Proof. kernel_body; auto 20 with kernel. Qed.

Lemma cuda_push_rho_frame rho_prev rho_next Nz Nr iz ir :
  s_frame iz ir (cuda_push_rho rho_prev rho_next Nz Nr iz ir).
Proof. kernel_body; auto 20 with kernel. Qed.

Lemma cuda_push_rho_writes rho_prev rho_next Nz Nr iz ir :
  s_writes [rho_prev; rho_next] (cuda_push_rho rho_prev rho_next Nz Nr iz ir).
Proof. kernel_body; auto 20 with kernel. Qed.

(** ** Running one thread symbolically *)

Lemma e_add_eval e1 e2 h x y :
  e1 h = Some x → e2 h = Some y → e_add e1 e2 h = Some (x + y)%C.
Proof. unfold e_add. by intros -> ->. Qed.

Lemma e_sub_eval e1 e2 h x y :
  e1 h = Some x → e2 h = Some y → e_sub e1 e2 h = Some (x - y)%C.
Proof. unfold e_sub. by intros -> ->. Qed.

Lemma e_mul_eval e1 e2 h x y :
  e1 h = Some x → e2 h = Some y → e_mul e1 e2 h = Some (x * y)%C.
Proof. unfold e_mul. by intros -> ->. Qed.

Lemma e_opp_eval e h x : e h = Some x → e_opp e h = Some (- x)%C.
Proof. unfold e_opp. by intros ->. Qed.

Lemma rdf_store_eval a i j a' iz ir v h x :
  rdf a i j h = Some x → rdf a i j (store a' iz ir v h) = Some x.
Proof. done. Qed.

Lemma rdv_store_eval a j a' iz ir v h x :
  rdv a j h = Some x → rdv a j (store a' iz ir v h) = Some x.
Proof. done. Qed.

Lemma wr_eval a iz ir e h v :
  e h = Some v → is_Some (rd a iz ir h) →
  wr a iz ir e h = Some (store a iz ir v h).
Proof. intros He Hrd. apply wr_Some. eauto. Qed.

Lemma then_eval s1 s2 h hm h' :
  s1 h = Some hm → s2 hm = Some h' → then_ s1 s2 h = Some h'.
Proof. unfold then_. by intros ->. Qed.

Lemma let_eval e body h v h' :
  e h = Some v → body v h = Some h' → let_ e body h = Some h'.
Proof. unfold let_. by intros ->. Qed.

(** Reading a cell through the stores made so far. *)
Ltac eval_rd :=
  lazymatch goal with
  | |- rd ?a ?i ?j (store ?a ?i ?j _ _) = Some _ =>
      apply rd_store_same; eexists; eval_rd
  | |- rd _ _ _ (store _ _ _ _ _) = Some _ =>
      apply rd_store_other; [left; congruence | eval_rd]
  | |- rd _ _ _ _ = Some _ => eassumption
  end.

Ltac eval_rdf :=
  lazymatch goal with
  | |- rdf _ _ _ (store _ _ _ _ _) = Some _ => apply rdf_store_eval; eval_rdf
  | |- rdv _ _ (store _ _ _ _ _) = Some _ => apply rdv_store_eval; eval_rdf
  | |- _ => eassumption
  end.

Ltac eval_expr :=
  lazymatch goal with
  | |- e_add _ _ _ = Some _ => eapply e_add_eval; [eval_expr | eval_expr]
  | |- e_sub _ _ _ = Some _ => eapply e_sub_eval; [eval_expr | eval_expr]
  | |- e_mul _ _ _ = Some _ => eapply e_mul_eval; [eval_expr | eval_expr]
  | |- e_opp _ _ = Some _ => eapply e_opp_eval; eval_expr
  | |- lit _ _ = Some _ => reflexivity
  | |- rd _ _ _ _ = Some _ => eval_rd
  | |- rdf _ _ _ _ = Some _ => eval_rdf
  | |- rdv _ _ _ = Some _ => eval_rdf
  end.

Ltac exec :=
  lazymatch goal with
  | |- then_ _ _ _ = Some _ => eapply then_eval; [exec | exec]
  | |- let_ _ _ _ = Some _ => eapply let_eval; [eval_expr | cbv beta; exec]
  | |- wr _ _ _ _ _ = Some _ => eapply wr_eval; [eval_expr | eexists; eval_rd]
  | |- skip _ = Some _ => reflexivity
  end.

Lemma in_grid_true iz ir Nz Nr :
  (iz < Nz)%nat → (ir < Nr)%nat → in_grid iz ir Nz Nr = true.
Proof. intros. unfold in_grid. by rewrite !bool_decide_eq_true_2. Qed.

Lemma in_grid_false iz ir Nz Nr :
  ¬ ((iz < Nz)%nat ∧ (ir < Nr)%nat) → in_grid iz ir Nz Nr = false.
Proof.
  intros Hout. unfold in_grid. apply andb_false_iff.
  destruct (decide (iz < Nz)%nat); [right|left]; apply bool_decide_eq_false_2; tauto.
Qed.

(** ** The charge-density history *)

Lemma cuda_push_rho_thread rho_prev rho_next Nz Nr iz ir h :
  rho_prev ≠ rho_next →
  alloc h Nz Nr rho_prev → alloc h Nz Nr rho_next →
  (iz < Nz)%nat → (ir < Nr)%nat →
  ∃ h1, cuda_push_rho rho_prev rho_next Nz Nr iz ir h = Some h1
    ∧ rd rho_prev iz ir h1 = rd rho_next iz ir h
    ∧ rd rho_next iz ir h1 = Some C0.
Proof.
  intros Hne Hp Hn Hz Hr.
  destruct (rd_alloc _ _ _ _ _ _ Hp Hz Hr) as [x Hx].
  destruct (rd_alloc _ _ _ _ _ _ Hn Hz Hr) as [y Hy].
  unfold cuda_push_rho. rewrite in_grid_true by done.
  unfold assign, operand, operand_complex, operand_c128. rewrite Hy.
  eexists. split_and!; [exec | eval_rd | eval_rd].
Qed.

(** C5.  After the launch of [cuda_push_rho] over a grid that covers the
    [Nz] by [Nr] cells, with [rho_prev] and [rho_next] two different
    arrays, every cell of [rho_prev] holds the value that [rho_next] held
    at that cell before the launch, and every cell of [rho_next] holds
    zero. *)
Theorem push_rho_shifts_history rho_prev rho_next Nz Nr gz gr h :
  rho_prev ≠ rho_next →
  alloc h Nz Nr rho_prev → alloc h Nz Nr rho_next →
  (Nz ≤ gz)%nat → (Nr ≤ gr)%nat →
  ∃ h', launch (cuda_push_rho rho_prev rho_next Nz Nr) gz gr h = Some h'
    ∧ ∀ iz ir, (iz < Nz)%nat → (ir < Nr)%nat →
        is_Some (rd rho_next iz ir h)
        ∧ rd rho_prev iz ir h' = rd rho_next iz ir h
        ∧ rd rho_next iz ir h' = Some C0.
Proof.
  intros Hne Hp Hn Hgz Hgr.
  destruct (launch_spec (cuda_push_rho rho_prev rho_next Nz Nr)
    (cuda_push_rho_local _ _ _ _) (cuda_push_rho_frame _ _ _ _) gz gr h)
    as (h' & Hrun & Hat & _).
  { intros iz ir _ _. unfold cuda_push_rho.
    destruct (in_grid iz ir Nz Nr) eqn:Hg; [|done].
    apply andb_true_iff in Hg as [Hz%bool_decide_eq_true Hr%bool_decide_eq_true].
    destruct (cuda_push_rho_thread rho_prev rho_next Nz Nr iz ir h)
      as (h1 & Hk & _); [done..|].
    unfold cuda_push_rho in Hk. rewrite in_grid_true in Hk by done.
    by rewrite Hk. }
  exists h'. split; [done|]. intros iz ir Hz Hr.
  destruct (Hat iz ir) as (h1 & Hk & Heq); [lia..|].
  destruct (cuda_push_rho_thread rho_prev rho_next Nz Nr iz ir h)
    as (h1' & Hk' & Hprev & Hnext); [done..|].
  rewrite Hk in Hk'. injection Hk' as <-.
  split; [by eapply rd_alloc|].
  by rewrite <- !(ce_rd _ _ _ _ Heq).
Qed.

(** The two arrays have to differ: when the kernel receives the same array
    twice, here one that holds 1 in every cell, the array ends up zero. *)
Example push_rho_aliased :
  (v0 ← rd g_T 2 1 (golden 1 C0 C1);
   h ← launch (cuda_push_rho g_T g_T 4 4) 4 4 (golden 1 C0 C1);
   v ← rd g_T 2 1 h; Some (Ceqb v0 C1, Ceqb v C0)) = Some (true, true).
Proof. vm_compute. reflexivity. Qed.

(** A launch whose threads test [iz < Nz] and [ir < Nr]. *)
Lemma launch_guarded k Nz Nr gz gr h :
  (∀ iz ir, s_local iz ir (k iz ir)) → (∀ iz ir, s_frame iz ir (k iz ir)) →
  (∀ iz ir, ¬ ((iz < Nz)%nat ∧ (ir < Nr)%nat) → k iz ir h = Some h) →
  (∀ iz ir, (iz < Nz)%nat → (ir < Nr)%nat → is_Some (k iz ir h)) →
  ∃ h', launch k gz gr h = Some h'
    ∧ ∀ iz ir, (iz < gz)%nat → (ir < gr)%nat →
        ∃ h1, k iz ir h = Some h1 ∧ cell_eq iz ir h1 h'.
Proof.
  intros Hloc Hfr Hout Hin.
  destruct (launch_spec k Hloc Hfr gz gr h) as (h' & Hrun & Hat & _).
  { intros iz ir _ _.
    destruct (decide ((iz < Nz)%nat ∧ (ir < Nr)%nat)) as [[??]|Hno]; [by apply Hin|].
    rewrite Hout by done. by eexists. }
  exists h'. split; [done|]. intros iz ir Hz Hr. by apply Hat.
Qed.

Lemma rdf_cell_eq iz ir h h' a i j :
  cell_eq iz ir h h' → rdf a i j h = rdf a i j h'.
Proof. intros Heq. by apply e_local_rdf with iz ir. Qed.

(** ** The field push *)

Ltac split_distinct :=
  repeat match goal with
  | H : NoDup (_ :: _) |- _ => apply NoDup_cons in H as [? H]
  | H : Forall _ (_ :: _) |- _ => apply Forall_cons in H as [? H]
  | H : _ ∉ _ :: _ |- _ => apply not_elem_of_cons in H as [? H]
  end.

Ltac cellv_ring :=
  unfold Ep_push, Em_push, Ez_push, Bp_push, Bm_push, Bz_push,
    Ep_vacuum, Em_vacuum, Ez_vacuum, Bp_vacuum, Bm_vacuum, Bz_vacuum,
    rho_diff_of, rho_diff_true, rho_diff_div, divE, divJ;
  cbn [v_Ep v_Em v_Ez v_Bp v_Bm v_Bz v_Jp v_Jm v_Jz v_rho_prev v_rho_next
       v_rho_prev_coef v_rho_next_coef v_j_coef v_C v_S_w v_T v_T_rho
       v_kr v_kz];
  cx_ring.

(** The source-free formulas are the formulas with feedback at a cell
    whose currents and charge densities are zero. *)
Lemma vacuum_is_push_without_sources c epsilon_0 mu_0 dt V s utr :
  let s0 := without_sources s in
  let p := push_cell c epsilon_0 mu_0 dt V in
  v_Ep (p s false utr) = v_Ep (p s0 true true)
  ∧ v_Em (p s false utr) = v_Em (p s0 true true)
  ∧ v_Ez (p s false utr) = v_Ez (p s0 true true)
  ∧ v_Bp (p s false utr) = v_Bp (p s0 true true)
  ∧ v_Bm (p s false utr) = v_Bm (p s0 true true)
  ∧ v_Bz (p s false utr) = v_Bz (p s0 true true).
Proof.
  destruct s as [[] [] [] [] [] [] [] [] [] [] [] [] [] [] ? ? [] [] ? ?].
  unfold push_cell, without_sources, with_fields.
  cbn [v_Ep v_Em v_Ez v_Bp v_Bm v_Bz].
  repeat split; cellv_ring.
Qed.

Section FieldPush.

Variables c epsilon_0 mu_0 : Qc.
Variables Ep Em Ez Bp Bm Bz Jp Jm Jz rho_prev rho_next : c128_2d.
Variables rho_prev_coef rho_next_coef j_coef : c128_2d.
Variables (C S_w : f64_2d) (T T_rho : c128_2d) (kr kz : f64_2d).
Variables dt V : Qc.
Variables Nz Nr : nat.

Local Abbreviation push := (cuda_push_eb_with c epsilon_0 mu_0
  Ep Em Ez Bp Bm Bz Jp Jm Jz rho_prev rho_next
  rho_prev_coef rho_next_coef j_coef C S_w T T_rho kr kz dt V).
Local Abbreviation at_cell := (cell_at
  Ep Em Ez Bp Bm Bz Jp Jm Jz rho_prev rho_next
  rho_prev_coef rho_next_coef j_coef C S_w T T_rho kr kz).
Local Abbreviation next_cell := (push_cell c epsilon_0 mu_0 dt V).
Local Abbreviation fields := [Ep; Em; Ez; Bp; Bm; Bz].
Local Abbreviation sources :=
  [Jp; Jm; Jz; rho_prev; rho_next; rho_prev_coef; rho_next_coef; j_coef;
   T; T_rho].

Lemma push_local fb utr iz ir : s_local iz ir (push fb utr Nz Nr iz ir).
Proof. kernel_body; auto 60 with kernel. Qed.

Lemma push_frame fb utr iz ir : s_frame iz ir (push fb utr Nz Nr iz ir).
Proof. kernel_body; auto 60 with kernel. Qed.

Lemma push_writes fb utr iz ir : s_writes fields (push fb utr Nz Nr iz ir).
Proof. kernel_body; auto 60 with kernel. Qed.

(** A thread does not fail when the twenty arrays are allocated, whether
    or not some of them are the same array. *)
Lemma push_safe fb utr iz ir :
  s_safe (fields ++ sources) [C; S_w; kr; kz] Nz Nr (push fb utr Nz Nr iz ir).
Proof.
  unfold cuda_push_eb_with.
  destruct (in_grid iz ir Nz Nr) eqn:Hg; [|apply s_safe_skip].
  apply andb_true_iff in Hg as [Hz%bool_decide_eq_true Hr%bool_decide_eq_true].
  unfold assign, operand, operand_expr, operand_complex, operand_float,
    operand_c128, operand_f64, operand_f64v.
  cbv beta iota zeta. simpl app.
  destruct fb, utr; auto 60 with kernel.
Qed.

(** One thread computes the per-cell formulas from the values its cell
    held before, although it overwrites the fields one after the other. *)
Lemma push_thread fb utr iz ir h s :
  NoDup fields → Forall (λ a, a ∉ fields) sources →
  (iz < Nz)%nat → (ir < Nr)%nat →
  at_cell h iz ir s →
  ∃ h1, push fb utr Nz Nr iz ir h = Some h1
    ∧ at_cell h1 iz ir (next_cell s fb utr).
Proof.
  intros Hnd Hsrc Hz Hr Hs. split_distinct.
  destruct Hs as (?&?&?&?&?&?&?&?&?&?&?&?&?&?&?&?&?&?&?&?).
  unfold cuda_push_eb_with. rewrite in_grid_true by done.
  unfold assign, operand, operand_expr, operand_complex, operand_float,
    operand_c128, operand_f64, operand_f64v.
  cbv beta iota zeta.
  destruct fb, utr; (eexists; split; [exec|]);
    unfold cell_at; repeat split; first [eval_rd | eval_rdf].
Qed.

Lemma at_cell_alloc h iz ir :
  Forall (alloc h Nz Nr) (fields ++ sources) →
  Forall (allocf h Nz Nr) [C; S_w; kr; kz] →
  (iz < Nz)%nat → (ir < Nr)%nat → ∃ s, at_cell h iz ir s.
Proof.
  intros Hc Hf Hz Hr. simpl in Hc. split_distinct.
  repeat match goal with
  | H : alloc _ _ _ _ |- _ =>
      apply (λ H, rd_alloc _ _ _ _ iz ir H Hz Hr) in H as [? ?]
  | H : allocf _ _ _ _ |- _ =>
      apply (λ H, rdf_allocf _ _ _ _ iz ir H Hz Hr) in H as [? ?]
  end.
  eexists (CellV _ _ _ _ _ _ _ _ _ _ _ _ _ _ _ _ _ _ _ _).
  unfold cell_at; simpl. repeat split; eassumption.
Qed.

Lemma at_cell_cell_eq h h' iz ir s :
  cell_eq iz ir h h' → at_cell h iz ir s → at_cell h' iz ir s.
Proof.
  intros Heq. unfold cell_at.
  by rewrite !(ce_rd _ _ _ _ Heq), !(rdf_cell_eq _ _ _ _ _ _ _ Heq).
Qed.

Lemma at_cell_inj h iz ir s s' :
  at_cell h iz ir s → at_cell h iz ir s' → s = s'.
Proof.
  intros (?&?&?&?&?&?&?&?&?&?&?&?&?&?&?&?&?&?&?&?)
         (?&?&?&?&?&?&?&?&?&?&?&?&?&?&?&?&?&?&?&?).
  destruct s, s'; simpl in *.
  repeat match goal with
  | H1 : ?x = Some _, H2 : ?x = Some _ |- _ =>
      rewrite H1 in H2; injection H2 as H2
  end.
  by subst.
Qed.

(** The launch computes, at every cell it covers, the per-cell formulas
    from the values the cell held before the launch. *)
Lemma push_launch fb utr gz gr h :
  NoDup fields → Forall (λ a, a ∉ fields) sources →
  Forall (alloc h Nz Nr) (fields ++ sources) →
  Forall (allocf h Nz Nr) [C; S_w; kr; kz] →
  ∃ h', launch (push fb utr Nz Nr) gz gr h = Some h'
    ∧ ∀ iz ir, (iz < Nz)%nat → (ir < Nr)%nat →
        (iz < gz)%nat → (ir < gr)%nat →
        ∃ s, at_cell h iz ir s ∧ at_cell h' iz ir (next_cell s fb utr).
Proof.
  intros Hnd Hsrc Hc Hf.
  destruct (launch_guarded (push fb utr Nz Nr) Nz Nr gz gr h)
    as (h' & Hrun & Hat).
  { intros. apply push_local. }
  { intros. apply push_frame. }
  { intros iz ir Hout. unfold cuda_push_eb_with.
    by rewrite in_grid_false. }
  { intros iz ir Hz Hr.
    destruct (at_cell_alloc h iz ir) as [s Hs]; [done..|].
    destruct (push_thread fb utr iz ir h s) as (h1 & -> & _); done. }
  exists h'. split; [done|]. intros iz ir Hz Hr Hgz Hgr.
  destruct (at_cell_alloc h iz ir) as [s Hs]; [done..|].
  exists s. split; [done|].
  destruct (Hat iz ir) as (h1 & Hk & Heq); [done..|].
  destruct (push_thread fb utr iz ir h s) as (h1' & Hk' & Hs'); [done..|].
  rewrite Hk in Hk'. injection Hk' as <-.
  by eapply at_cell_cell_eq.
Qed.

Lemma push_launch_writes fb utr gz gr :
  s_writes fields (launch (push fb utr Nz Nr) gz gr).
Proof. apply run_threads_writes. intros. apply push_writes. Qed.

(** C1.  With [ptcl_feedback] and [use_true_rho] both true, a launch that
    covers the [Nz] by [Nr] cells succeeds, and at every cell the new
    [Ep], [Em] and [Ez] are given by the per-component formulas
    [Ep_push], [Em_push] and [Ez_push], with
    [rho_diff = rho_next_coef*rho_next - rho_prev_coef*rho_prev], all
    evaluated on the values [s] that the cell held before the launch. *)
Theorem push_eb_true_rho_E_formulas gz gr h :
  NoDup fields → Forall (λ a, a ∉ fields) sources →
  Forall (alloc h Nz Nr) (fields ++ sources) →
  Forall (allocf h Nz Nr) [C; S_w; kr; kz] →
  (Nz ≤ gz)%nat → (Nr ≤ gr)%nat →
  ∃ h', launch (push true true Nz Nr) gz gr h = Some h'
    ∧ ∀ iz ir, (iz < Nz)%nat → (ir < Nr)%nat →
        ∃ s, at_cell h iz ir s
          ∧ let rho_diff :=
              (v_rho_next_coef s * v_rho_next s
               - v_rho_prev_coef s * v_rho_prev s)%C in
            rd Ep iz ir h' = Some (Ep_push c mu_0 V s rho_diff)
            ∧ rd Em iz ir h' = Some (Em_push c mu_0 V s rho_diff)
            ∧ rd Ez iz ir h' = Some (Ez_push c mu_0 V s rho_diff).
Proof.
  intros Hnd Hsrc Hc Hf Hgz Hgr.
  destruct (push_launch true true gz gr h) as (h' & Hrun & Hat); [done..|].
  exists h'. split; [done|]. intros iz ir Hz Hr.
  destruct (Hat iz ir) as (s & Hs & Hs'); [lia..|].
  exists s. split; [done|].
  destruct Hs' as (HEp & HEm & HEz & _). done.
Qed.

(** C2.  The magnetic field is pushed from the electric field that the
    cell held before the launch: the new [Bp], [Bm] and [Bz] are the
    formulas [Bp_push], [Bm_push] and [Bz_push] (without the [j_coef]
    term when there is no particle feedback) evaluated on the values [s]
    of the cell before the launch, so that [Ep_old], [Em_old] and
    [Ez_old] are [v_Ep s], [v_Em s] and [v_Ez s], although [Ep], [Em] and
    [Ez] have been overwritten when B is pushed. *)
Theorem push_eb_B_reads_old_E fb utr gz gr h :
  NoDup fields → Forall (λ a, a ∉ fields) sources →
  Forall (alloc h Nz Nr) (fields ++ sources) →
  Forall (allocf h Nz Nr) [C; S_w; kr; kz] →
  (Nz ≤ gz)%nat → (Nr ≤ gr)%nat →
  ∃ h', launch (push fb utr Nz Nr) gz gr h = Some h'
    ∧ ∀ iz ir, (iz < Nz)%nat → (ir < Nr)%nat →
        ∃ s, at_cell h iz ir s
          ∧ rd Bp iz ir h' = Some (if fb then Bp_push s else Bp_vacuum s)
          ∧ rd Bm iz ir h' = Some (if fb then Bm_push s else Bm_vacuum s)
          ∧ rd Bz iz ir h' = Some (if fb then Bz_push s else Bz_vacuum s).
Proof.
  intros Hnd Hsrc Hc Hf Hgz Hgr.
  destruct (push_launch fb utr gz gr h) as (h' & Hrun & Hat); [done..|].
  exists h'. split; [done|]. intros iz ir Hz Hr.
  destruct (Hat iz ir) as (s & Hs & Hs'); [lia..|].
  exists s. split; [done|].
  destruct Hs' as (_ & _ & _ & HBp & HBm & HBz & _).
  by destruct fb.
Qed.

(** C7.  The push without particle feedback leaves in E and B what the
    push with feedback and true rho leaves when it is run on a memory
    [hz] that holds the same fields and coefficients, and zero in every
    cell of the currents and charge densities. *)
Theorem push_eb_no_feedback_is_sourceless_feedback utr gz gr h hz :
  NoDup fields → Forall (λ a, a ∉ fields) sources →
  Forall (alloc h Nz Nr) (fields ++ sources) →
  Forall (allocf h Nz Nr) [C; S_w; kr; kz] →
  Forall (alloc hz Nz Nr) (fields ++ sources) →
  Forall (allocf hz Nz Nr) [C; S_w; kr; kz] →
  (∀ iz ir s, (iz < Nz)%nat → (ir < Nr)%nat →
     at_cell h iz ir s → at_cell hz iz ir (without_sources s)) →
  (Nz ≤ gz)%nat → (Nr ≤ gr)%nat →
  ∃ h' hz', launch (push false utr Nz Nr) gz gr h = Some h'
    ∧ launch (push true true Nz Nr) gz gr hz = Some hz'
    ∧ ∀ iz ir, (iz < Nz)%nat → (ir < Nr)%nat →
        Forall (λ a, is_Some (rd a iz ir h')
                     ∧ rd a iz ir h' = rd a iz ir hz') fields.
Proof.
  intros Hnd Hsrc Hc Hf Hcz Hfz Hrel Hgz Hgr.
  destruct (push_launch false utr gz gr h) as (h' & Hrun & Hat); [done..|].
  destruct (push_launch true true gz gr hz) as (hz' & Hrunz & Hatz); [done..|].
  exists h', hz'. split_and!; [done..|]. intros iz ir Hz Hr.
  destruct (Hat iz ir) as (s & Hs & Hs'); [lia..|].
  destruct (Hatz iz ir) as (sz & Hsz & Hsz'); [lia..|].
  pose proof (Hrel iz ir s Hz Hr Hs) as Hs0.
  assert (sz = without_sources s) as -> by (by eapply at_cell_inj).
  destruct (vacuum_is_push_without_sources c epsilon_0 mu_0 dt V s utr)
    as (EEp & EEm & EEz & EBp & EBm & EBz).
  destruct Hs' as (HEp & HEm & HEz & HBp & HBm & HBz & _).
  destruct Hsz' as (HEp' & HEm' & HEz' & HBp' & HBm' & HBz' & _).
  repeat constructor; try (by eexists); congruence.
Qed.

(** C10.  The push writes to the six field arrays only: a launch on
    allocated arrays succeeds, and after it every array that is not one of
    [Ep], [Em], [Ez], [Bp], [Bm], [Bz] is what it was: the arrays of the
    currents, of the charge densities and of the coefficients, when none of
    them is passed as a field as well, and all real arrays. *)
Theorem push_eb_changes_fields_only fb utr gz gr h :
  Forall (λ a, a ∉ fields) sources →
  Forall (alloc h Nz Nr) (fields ++ sources) →
  Forall (allocf h Nz Nr) [C; S_w; kr; kz] →
  ∃ h', launch (push fb utr Nz Nr) gz gr h = Some h'
    ∧ Forall (λ a, c128 h' !! a = c128 h !! a) sources
    ∧ Forall (λ a, f64 h' !! a = f64 h !! a) [C; S_w; kr; kz]
    ∧ (∀ a, a ∉ fields → c128 h' !! a = c128 h !! a)
    ∧ f64 h' = f64 h ∧ f64v h' = f64v h.
Proof.
  intros Hsrc Hc Hf.
  destruct (run_threads_safe (fields ++ sources) [C; S_w; kr; kz] Nz Nr
    (push fb utr Nz Nr) (threads gz gr) (push_safe fb utr) h)
    as (h' & Hrun & _); [done|].
  exists h'. split; [done|].
  destruct (push_launch_writes fb utr gz gr h h' Hrun) as (Hw & Hf64 & Hv).
  split_and!; [| |done..].
  - eapply Forall_impl; [exact Hsrc|]. intros a Ha. by apply Hw.
  - rewrite Hf64. by repeat constructor.
Qed.

End FieldPush.

(** ** The current correction *)

Ltac jcell_field :=
  unfold corrected, residual, correction_F;
  cbn [u_rho_prev u_rho_next u_Jp u_Jm u_Jz u_kz u_kr u_inv_k2
       u_j_corr_coef u_T];
  apply complex_eq;
  cbn [Re Im Cadd Csub Cmul Copp RtoC Ci C0 C1];
  rewrite half_inv; field; apply two_neq_0.


Section CurrentCorrection.

Variables rho_prev rho_next Jp Jm Jz : c128_2d.
Variables kz kr inv_k2 : f64_2d.
Variables j_corr_coef T : c128_2d.
Variable inv_dt : Qc.
Variables Nz Nr : nat.

Local Abbreviation correct := (cuda_correct_currents
  rho_prev rho_next Jp Jm Jz kz kr inv_k2 j_corr_coef T inv_dt Nz Nr).
Local Abbreviation at_jcell := (jcell_at
  rho_prev rho_next Jp Jm Jz kz kr inv_k2 j_corr_coef T).
Local Abbreviation currents := [Jp; Jm; Jz].
Local Abbreviation densities := [rho_prev; rho_next; j_corr_coef; T].

Lemma correct_local iz ir : s_local iz ir (correct iz ir).
Proof. kernel_body; auto 40 with kernel. Qed.

Lemma correct_frame iz ir : s_frame iz ir (correct iz ir).
Proof. kernel_body; auto 40 with kernel. Qed.

Lemma correct_writes iz ir : s_writes currents (correct iz ir).
Proof. kernel_body; auto 40 with kernel. Qed.

Lemma correct_thread iz ir h s :
  NoDup currents → (iz < Nz)%nat → (ir < Nr)%nat →
  at_jcell h iz ir s →
  ∃ h1, correct iz ir h = Some h1
    ∧ rd Jp iz ir h1 = Some (u_Jp (corrected s))
    ∧ rd Jm iz ir h1 = Some (u_Jm (corrected s))
    ∧ rd Jz iz ir h1 = Some (u_Jz (corrected s)).
Proof.
  intros Hnd Hz Hr Hs. split_distinct.
  destruct Hs as (?&?&?&?&?&?&?&?&?&?).
  unfold cuda_correct_currents. rewrite in_grid_true by done.
  unfold assign, operand, operand_expr, operand_complex, operand_float,
    operand_c128, operand_f64, operand_f64v.
  cbv beta iota zeta.
  eexists; split; [exec|]. repeat split; eval_rd.
Qed.

Lemma at_jcell_alloc h iz ir :
  Forall (alloc h Nz Nr) (currents ++ densities) →
  Forall (allocf h Nz Nr) [kz; kr; inv_k2] →
  (iz < Nz)%nat → (ir < Nr)%nat → ∃ s, at_jcell h iz ir s.
Proof.
  intros Hc Hf Hz Hr. simpl in Hc. split_distinct.
  repeat match goal with
  | H : alloc _ _ _ _ |- _ =>
      apply (λ H, rd_alloc _ _ _ _ iz ir H Hz Hr) in H as [? ?]
  | H : allocf _ _ _ _ |- _ =>
      apply (λ H, rdf_allocf _ _ _ _ iz ir H Hz Hr) in H as [? ?]
  end.
  eexists (JCell _ _ _ _ _ _ _ _ _ _).
  unfold jcell_at; simpl. repeat split; eassumption.
Qed.

(** The launch corrects the three currents of every cell it covers, from
    the values the cell held before the launch. *)
Lemma correct_launch gz gr h :
  NoDup currents →
  Forall (alloc h Nz Nr) (currents ++ densities) →
  Forall (allocf h Nz Nr) [kz; kr; inv_k2] →
  ∃ h', launch correct gz gr h = Some h'
    ∧ (∀ a, a ∉ currents → c128 h' !! a = c128 h !! a)
    ∧ f64 h' = f64 h ∧ f64v h' = f64v h
    ∧ ∀ iz ir, (iz < Nz)%nat → (ir < Nr)%nat →
        (iz < gz)%nat → (ir < gr)%nat →
        ∃ s, at_jcell h iz ir s
          ∧ rd Jp iz ir h' = Some (u_Jp (corrected s))
          ∧ rd Jm iz ir h' = Some (u_Jm (corrected s))
          ∧ rd Jz iz ir h' = Some (u_Jz (corrected s)).
Proof.
  intros Hnd Hc Hf.
  destruct (launch_guarded correct Nz Nr gz gr h) as (h' & Hrun & Hat).
  { intros. apply correct_local. }
  { intros. apply correct_frame. }
  { intros iz ir Hout. unfold cuda_correct_currents.
    by rewrite in_grid_false. }
  { intros iz ir Hz Hr.
    destruct (at_jcell_alloc h iz ir) as [s Hs]; [done..|].
    destruct (correct_thread iz ir h s) as (h1 & -> & _); done. }
  exists h'. split; [done|].
  destruct (run_threads_writes currents correct (threads gz gr)
    correct_writes h h' Hrun) as (Hw & Hf64 & Hv).
  split_and!; [done..|]. intros iz ir Hz Hr Hgz Hgr.
  destruct (at_jcell_alloc h iz ir) as [s Hs]; [done..|].
  exists s. split; [done|].
  destruct (Hat iz ir) as (h1 & Hk & Heq); [done..|].
  destruct (correct_thread iz ir h s) as (h1' & Hk' & HJp & HJm & HJz); [done..|].
  rewrite Hk in Hk'. injection Hk' as <-.
  by rewrite <- !(ce_rd _ _ _ _ Heq).
Qed.

Lemma rd_lookup_eq h h' a iz ir :
  c128 h' !! a = c128 h !! a → rd a iz ir h' = rd a iz ir h.
Proof. unfold rd. by intros ->. Qed.

Lemma rdf_f64_eq h h' a iz ir : f64 h' = f64 h → rdf a iz ir h' = rdf a iz ir h.
Proof. unfold rdf. by intros ->. Qed.

(** C3.  A launch of the current correction that covers the [Nz] by [Nr]
    cells succeeds; at every cell it computes
    [F = -inv_k2*(j_corr_coef*(rho_next - rho_prev*T) + i*kz*Jz + kr*(Jp - Jm))]
    from the values [s] the cell held before the launch and leaves
    [Jp + 0.5*kr*F], [Jm + -0.5*kr*F] and [Jz + -i*kz*F] in the three
    currents.  No other array is changed. *)
Theorem correct_currents_formulas gz gr h :
  NoDup currents →
  Forall (alloc h Nz Nr) (currents ++ densities) →
  Forall (allocf h Nz Nr) [kz; kr; inv_k2] →
  (Nz ≤ gz)%nat → (Nr ≤ gr)%nat →
  ∃ h', launch correct gz gr h = Some h'
    ∧ (∀ a, a ∉ currents → c128 h' !! a = c128 h !! a)
    ∧ f64 h' = f64 h ∧ f64v h' = f64v h
    ∧ ∀ iz ir, (iz < Nz)%nat → (ir < Nr)%nat →
        ∃ s, at_jcell h iz ir s
          ∧ let F := correction_F s in
            rd Jp iz ir h' = Some (u_Jp s + half * u_kr s * F)%C
            ∧ rd Jm iz ir h' = Some (u_Jm s + - half * u_kr s * F)%C
            ∧ rd Jz iz ir h' = Some (u_Jz s + - Ci * u_kz s * F)%C.
Proof.
  intros Hnd Hc Hf Hgz Hgr.
  destruct (correct_launch gz gr h) as (h' & Hrun & Hw & Hf64 & Hv & Hat);
    [done..|].
  exists h'. split_and!; [done..|]. intros iz ir Hz Hr.
  destruct (Hat iz ir) as (s & Hs & HJ); [lia..|].
  exists s. split; [done|]. exact HJ.
Qed.


End CurrentCorrection.

(** ** The spectral filter *)

Lemma launch_keeps k gz gr h h' :
  (∀ iz ir, s_frame iz ir (k iz ir)) → launch k gz gr h = Some h' →
  (∀ a, shape_of h' a = shape_of h a) ∧ f64 h' = f64 h ∧ f64v h' = f64v h.
Proof.
  intros Hfr Hrun.
  destruct (run_threads_frame k Hfr (threads gz gr) h h' gz 0%nat Hrun)
    as [_ Hsh Hf Hv].
  { rewrite elem_of_threads. lia. }
  done.
Qed.

Lemma alloc_shape_of_eq h h' a Nz Nr :
  shape_of h' a = shape_of h a → alloc h Nz Nr a → alloc h' Nz Nr a.
Proof.
  unfold shape_of. intros Hsh (arr & Harr & Hshape). rewrite Harr in Hsh.
  destruct (c128 h' !! a) as [arr'|] eqn:Harr'; [|done].
  exists arr'. split; [done|]. injection Hsh as Hsh.
  apply has_shape_dims. rewrite Hsh. by apply has_shape_dims.
Qed.

Lemma lookup2_pointwise_square (w : list (list Qc)) iz ir :
  lookup2 (pointwise_mul w w) iz ir = (λ x, x * x) <$> lookup2 w iz ir.
Proof.
  unfold lookup2, pointwise_mul. rewrite lookup_zip_with.
  destruct (w !! iz) as [row|]; simpl; [|done].
  rewrite lookup_zip_with. by destruct (row !! ir).
Qed.

Section SpectralFilter.

Variables fieldr fieldt fieldz : c128_2d.
Variables Nz Nr : nat.

Local Abbreviation components := [fieldr; fieldt; fieldz].

Lemma filter_vector_local w iz ir :
  s_local iz ir (cuda_filter_vector fieldr fieldt fieldz w Nz Nr iz ir).
Proof. kernel_body; auto 20 with kernel. Qed.

Lemma filter_vector_frame w iz ir :
  s_frame iz ir (cuda_filter_vector fieldr fieldt fieldz w Nz Nr iz ir).
Proof. kernel_body; auto 20 with kernel. Qed.

Lemma filter_vector_thread w iz ir h xr xt xz y :
  NoDup components → (iz < Nz)%nat → (ir < Nr)%nat →
  rd fieldr iz ir h = Some xr → rd fieldt iz ir h = Some xt →
  rd fieldz iz ir h = Some xz → rdf w iz ir h = Some (RtoC y) →
  ∃ h1, cuda_filter_vector fieldr fieldt fieldz w Nz Nr iz ir h = Some h1
    ∧ rd fieldr iz ir h1 = Some (RtoC y * xr)%C
    ∧ rd fieldt iz ir h1 = Some (RtoC y * xt)%C
    ∧ rd fieldz iz ir h1 = Some (RtoC y * xz)%C.
Proof.
  intros Hnd Hz Hr Hxr Hxt Hxz Hy. split_distinct.
  unfold cuda_filter_vector. rewrite in_grid_true by done.
  unfold assign, operand, operand_expr, operand_c128, operand_f64.
  cbv beta iota zeta.
  eexists; split; [exec|]. repeat split; eval_rd.
Qed.

(** One launch of the vector filter multiplies every component of every
    cell by the weight of the cell. *)
Lemma filter_vector_launch w gz gr h :
  NoDup components →
  Forall (alloc h Nz Nr) components → allocf h Nz Nr w →
  (Nz ≤ gz)%nat → (Nr ≤ gr)%nat →
  ∃ h', launch (cuda_filter_vector fieldr fieldt fieldz w Nz Nr) gz gr h
        = Some h'
    ∧ Forall (alloc h' Nz Nr) components ∧ f64 h' = f64 h
    ∧ ∀ iz ir, (iz < Nz)%nat → (ir < Nr)%nat →
        ∃ xr xt xz y,
          (rd fieldr iz ir h = Some xr ∧ rd fieldt iz ir h = Some xt
           ∧ rd fieldz iz ir h = Some xz ∧ rdf w iz ir h = Some (RtoC y))
          ∧ rd fieldr iz ir h' = Some (RtoC y * xr)%C
          ∧ rd fieldt iz ir h' = Some (RtoC y * xt)%C
          ∧ rd fieldz iz ir h' = Some (RtoC y * xz)%C.
Proof.
  intros Hnd Hc Hw Hgz Hgr.
  assert (∀ iz ir, (iz < Nz)%nat → (ir < Nr)%nat →
    ∃ xr xt xz y, rd fieldr iz ir h = Some xr ∧ rd fieldt iz ir h = Some xt
      ∧ rd fieldz iz ir h = Some xz ∧ rdf w iz ir h = Some (RtoC y)) as Hrd.
  { intros iz ir Hz Hr. split_distinct.
    repeat match goal with
    | H : alloc _ _ _ _ |- _ =>
        apply (λ H, rd_alloc _ _ _ _ iz ir H Hz Hr) in H as [? ?]
    end.
    destruct (rdf_allocf _ _ _ _ iz ir Hw Hz Hr) as [y Hy]. by eauto 10. }
  destruct (launch_guarded (cuda_filter_vector fieldr fieldt fieldz w Nz Nr)
    Nz Nr gz gr h) as (h' & Hrun & Hat).
  { intros. apply filter_vector_local. }
  { intros. apply filter_vector_frame. }
  { intros iz ir Hout. unfold cuda_filter_vector. by rewrite in_grid_false. }
  { intros iz ir Hz Hr. destruct (Hrd iz ir Hz Hr) as (xr&xt&xz&y&?&?&?&?).
    by destruct (filter_vector_thread w iz ir h xr xt xz y) as (h1 & -> & _). }
  destruct (launch_keeps _ gz gr h h' (filter_vector_frame w) Hrun)
    as (Hsh & Hf64 & _).
  exists h'. split_and!; [done| |done|].
  - eapply Forall_impl; [exact Hc|]. intros a Ha.
    by apply (alloc_shape_of_eq h h').
  - intros iz ir Hz Hr. destruct (Hrd iz ir Hz Hr) as (xr&xt&xz&y&?&?&?&?).
    exists xr, xt, xz, y. split; [done|].
    destruct (Hat iz ir) as (h1 & Hk & Heq); [lia..|].
    destruct (filter_vector_thread w iz ir h xr xt xz y)
      as (h1' & Hk' & ? & ? & ?); [done..|].
    rewrite Hk in Hk'. injection Hk' as <-.
    rewrite <- !(ce_rd _ _ _ _ Heq). by split_and!.
Qed.

End SpectralFilter.

Lemma has_shape_pointwise_square (w : list (list Qc)) Nz Nr :
  has_shape w Nz Nr → has_shape (pointwise_mul w w) Nz Nr.
Proof.
  intros [Hlen Hrows]. unfold pointwise_mul. split.
  - rewrite length_zip_with. lia.
  - apply Forall_lookup. intros i row Hrow.
    rewrite lookup_zip_with in Hrow.
    destruct (w !! i) as [r|] eqn:Hr; simplify_eq/=.
    rewrite length_zip_with.
    eapply Forall_lookup_1 in Hrows; [|done]. simpl in Hrows. lia.
Qed.

Lemma rdf_pointwise_square h w w2 warr iz ir y :
  f64 h !! w = Some warr → f64 h !! w2 = Some (pointwise_mul warr warr) →
  rdf w iz ir h = Some (RtoC y) → rdf w2 iz ir h = Some (RtoC (y * y)).
Proof.
  unfold rdf. intros -> ->. simpl. rewrite lookup2_pointwise_square.
  destruct (lookup2 warr iz ir) as [x|]; simpl; [|done].
  by intros [= ->].
Qed.

Lemma filter_scalar_local field w Nz Nr iz ir :
  s_local iz ir (cuda_filter_scalar field w Nz Nr iz ir).
Proof. kernel_body; auto 20 with kernel. Qed.

Lemma filter_scalar_frame field w Nz Nr iz ir :
  s_frame iz ir (cuda_filter_scalar field w Nz Nr iz ir).
Proof. kernel_body; auto 20 with kernel. Qed.

Lemma filter_scalar_thread field w Nz Nr iz ir h x y :
  (iz < Nz)%nat → (ir < Nr)%nat →
  rd field iz ir h = Some x → rdf w iz ir h = Some (RtoC y) →
  ∃ h1, cuda_filter_scalar field w Nz Nr iz ir h = Some h1
    ∧ rd field iz ir h1 = Some (RtoC y * x)%C.
Proof.
  intros Hz Hr Hx Hy.
  unfold cuda_filter_scalar. rewrite in_grid_true by done.
  unfold assign, operand, operand_expr, operand_c128, operand_f64.
  cbv beta iota zeta.
  eexists; split; [exec|eval_rd].
Qed.

(** One launch of the scalar filter multiplies every cell by its weight. *)
Lemma filter_scalar_launch field w Nz Nr gz gr h :
  alloc h Nz Nr field → allocf h Nz Nr w →
  (Nz ≤ gz)%nat → (Nr ≤ gr)%nat →
  ∃ h', launch (cuda_filter_scalar field w Nz Nr) gz gr h = Some h'
    ∧ alloc h' Nz Nr field ∧ f64 h' = f64 h
    ∧ ∀ iz ir, (iz < Nz)%nat → (ir < Nr)%nat →
        ∃ x y, (rd field iz ir h = Some x ∧ rdf w iz ir h = Some (RtoC y))
          ∧ rd field iz ir h' = Some (RtoC y * x)%C.
Proof.
  intros Hc Hw Hgz Hgr.
  assert (∀ iz ir, (iz < Nz)%nat → (ir < Nr)%nat →
    ∃ x y, rd field iz ir h = Some x ∧ rdf w iz ir h = Some (RtoC y)) as Hrd.
  { intros iz ir Hz Hr.
    destruct (rd_alloc _ _ _ _ iz ir Hc Hz Hr) as [x Hx].
    destruct (rdf_allocf _ _ _ _ iz ir Hw Hz Hr) as [y Hy]. by eauto. }
  destruct (launch_guarded (cuda_filter_scalar field w Nz Nr)
    Nz Nr gz gr h) as (h' & Hrun & Hat).
  { intros. apply filter_scalar_local. }
  { intros. apply filter_scalar_frame. }
  { intros iz ir Hout. unfold cuda_filter_scalar. by rewrite in_grid_false. }
  { intros iz ir Hz Hr. destruct (Hrd iz ir Hz Hr) as (x&y&?&?).
    by destruct (filter_scalar_thread field w Nz Nr iz ir h x y) as (h1 & -> & _). }
  destruct (launch_keeps _ gz gr h h' (filter_scalar_frame field w Nz Nr) Hrun)
    as (Hsh & Hf64 & _).
  exists h'. split_and!; [done| |done|].
  - by apply (alloc_shape_of_eq h h').
  - intros iz ir Hz Hr. destruct (Hrd iz ir Hz Hr) as (x&y&?&?).
    exists x, y. split; [done|].
    destruct (Hat iz ir) as (h1 & Hk & Heq); [lia..|].
    destruct (filter_scalar_thread field w Nz Nr iz ir h x y)
      as (h1' & Hk' & ?); [done..|].
    rewrite Hk in Hk'. injection Hk' as <-.
    by rewrite <- !(ce_rd _ _ _ _ Heq).
Qed.

Lemma filter_twice_value (y : Qc) (x : complex) :
  (RtoC y * (RtoC y * x))%C = (RtoC (y * y) * x)%C.
Proof. destruct x. cx_ring. Qed.

(** C8.  In exact arithmetic, filtering twice with the weights [w] leaves
    in every cell what filtering once with the pointwise product [w * w]
    leaves: for the scalar filter, and for each of the three components
    of the vector filter.  (In binary64 the two can differ, as the lemma
    that follows the theorem shows.) *)
Theorem filter_twice_is_filter_squared
  field fieldr fieldt fieldz w w2 warr Nz Nr gz gr h :
  NoDup [fieldr; fieldt; fieldz] →
  Forall (alloc h Nz Nr) [field; fieldr; fieldt; fieldz] →
  f64 h !! w = Some warr → has_shape warr Nz Nr →
  f64 h !! w2 = Some (pointwise_mul warr warr) →
  (Nz ≤ gz)%nat → (Nr ≤ gr)%nat →
  (∃ h1 h2 h3,
     launch (cuda_filter_scalar field w Nz Nr) gz gr h = Some h1
     ∧ launch (cuda_filter_scalar field w Nz Nr) gz gr h1 = Some h2
     ∧ launch (cuda_filter_scalar field w2 Nz Nr) gz gr h = Some h3
     ∧ ∀ iz ir, (iz < Nz)%nat → (ir < Nr)%nat →
         is_Some (rd field iz ir h2)
         ∧ rd field iz ir h2 = rd field iz ir h3)
  ∧ (∃ h1 h2 h3,
       launch (cuda_filter_vector fieldr fieldt fieldz w Nz Nr) gz gr h
       = Some h1
       ∧ launch (cuda_filter_vector fieldr fieldt fieldz w Nz Nr) gz gr h1
         = Some h2
       ∧ launch (cuda_filter_vector fieldr fieldt fieldz w2 Nz Nr) gz gr h
         = Some h3
       ∧ ∀ iz ir, (iz < Nz)%nat → (ir < Nr)%nat →
           Forall (λ a, is_Some (rd a iz ir h2)
                        ∧ rd a iz ir h2 = rd a iz ir h3)
             [fieldr; fieldt; fieldz]).
Proof.
  intros Hnd Hc Hw Hshape Hw2 Hgz Hgr.
  apply Forall_cons in Hc as [Hfield Hc].
  assert (allocf h Nz Nr w) as Haw by (by exists warr).
  assert (allocf h Nz Nr w2) as Haw2.
  { eexists. split; [done|]. by apply has_shape_pointwise_square. }
  split.
  - destruct (filter_scalar_launch field w Nz Nr gz gr h)
      as (h1 & Hrun1 & Hc1 & Hf1 & Hat1); [done..|].
    destruct (filter_scalar_launch field w Nz Nr gz gr h1)
      as (h2 & Hrun2 & _ & _ & Hat2); [done| |done|done|].
    { unfold allocf. by rewrite Hf1. }
    destruct (filter_scalar_launch field w2 Nz Nr gz gr h)
      as (h3 & Hrun3 & _ & _ & Hat3); [done..|].
    exists h1, h2, h3. split_and!; [done..|]. intros iz ir Hz Hr.
    destruct (Hat1 iz ir Hz Hr) as (x & y & (Hx & Hy) & Hx1).
    destruct (Hat2 iz ir Hz Hr) as (x1 & y1 & (Hx1' & Hy1) & Hx2).
    destruct (Hat3 iz ir Hz Hr) as (x' & y2 & (Hx' & Hy2) & Hx3).
    rewrite (rdf_f64_eq h h1) in Hy1 by done.
    rewrite (rdf_pointwise_square h w w2 warr iz ir y) in Hy2 by done.
    simplify_eq. rewrite Hx2, Hx3. split; [done|].
    by rewrite filter_twice_value.
  - destruct (filter_vector_launch fieldr fieldt fieldz Nz Nr w gz gr h)
      as (h1 & Hrun1 & Hc1 & Hf1 & Hat1); [done..|].
    destruct (filter_vector_launch fieldr fieldt fieldz Nz Nr w gz gr h1)
      as (h2 & Hrun2 & _ & _ & Hat2); [done|done| |done|done|].
    { unfold allocf. by rewrite Hf1. }
    destruct (filter_vector_launch fieldr fieldt fieldz Nz Nr w2 gz gr h)
      as (h3 & Hrun3 & _ & _ & Hat3); [done..|].
    exists h1, h2, h3. split_and!; [done..|]. intros iz ir Hz Hr.
    destruct (Hat1 iz ir Hz Hr)
      as (xr & xt & xz & y & (Hxr & Hxt & Hxz & Hy) & Hr1 & Ht1 & Hz1).
    destruct (Hat2 iz ir Hz Hr)
      as (xr1 & xt1 & xz1 & y1 & (Hxr1 & Hxt1 & Hxz1 & Hy1) & Hr2 & Ht2 & Hz2).
    destruct (Hat3 iz ir Hz Hr)
      as (xr' & xt' & xz' & y2 & (Hxr' & Hxt' & Hxz' & Hy2) & Hr3 & Ht3 & Hz3).
    rewrite (rdf_f64_eq h h1) in Hy1 by done.
    rewrite (rdf_pointwise_square h w w2 warr iz ir y) in Hy2 by done.
    simplify_eq.
    repeat constructor;
      rewrite ?Hr2, ?Ht2, ?Hz2, ?Hr3, ?Ht3, ?Hz3, ?filter_twice_value; done.
Qed.

(** C8, as the claim has it, fails in binary64.  On a memory of 2 by 2
    cells that holds [3 + 3i] everywhere, with the weights [1], [0.5],
    [0.3] and [0]: at the cell of weight [0.3], two filters leave
    [0.26999999999999996] in both parts of the cell, and one filter with
    the pointwise product of the weights ([0.3 * 0.3 = 0.09]) leaves
    [0.27]; so it is for the scalar filter and for each component of the
    vector filter.  At the three other cells, whose products are exact, the
    two agree. *)
Lemma filter_twice_differs_in_binary64 :
  let low := Binary64.Complex128 0.26999999999999996 0.26999999999999996 in
  let high := Binary64.Complex128 0.27 0.27 in
  Binary64.f64 Binary64.example_heap !! g_kr2
    = Some (Binary64.pointwise_mul Binary64.weights Binary64.weights)
  ∧ lookup2 (Binary64.pointwise_mul Binary64.weights Binary64.weights) 1 0
    = Some 0.09%float
  ∧ Binary64.twice (Binary64.cuda_filter_scalar g_Ep) g_Ep 1 0 = Some low
  ∧ Binary64.once_squared (Binary64.cuda_filter_scalar g_Ep) g_Ep 1 0
    = Some high
  ∧ Forall (λ a,
      Binary64.twice (Binary64.cuda_filter_vector g_Jp g_Jm g_Jz) a 1 0
      = Some low
      ∧ Binary64.once_squared (Binary64.cuda_filter_vector g_Jp g_Jm g_Jz)
          a 1 0 = Some high) [g_Jp; g_Jm; g_Jz]
  ∧ Some low ≠ Some high
  ∧ Forall (λ c : nat * nat,
      Binary64.twice (Binary64.cuda_filter_scalar g_Ep) g_Ep c.1 c.2
      = Binary64.once_squared (Binary64.cuda_filter_scalar g_Ep) g_Ep
          c.1 c.2) [(0, 0); (0, 1); (1, 1)]%nat.
Proof.
  cbv zeta. split_and!.
  - reflexivity.
  - vm_compute. reflexivity.
  - vm_compute. reflexivity.
  - vm_compute. reflexivity.
  - repeat constructor; vm_compute; reflexivity.
  - intros H. apply (f_equal (λ r,
      match r with
      | Some z => PrimFloat.eqb (Binary64.real z) 0.27
      | None => false
      end)) in H.
    vm_compute in H. discriminate H.
  - repeat constructor; vm_compute; reflexivity.
Qed.

(** ** Threads outside the arrays *)

Lemma in_shape_false a iz ir h arr Nz Nr :
  c128 h !! a = Some arr → shape arr = (Nz, Nr) →
  ¬ ((iz < Nz)%nat ∧ (ir < Nr)%nat) → in_shape a iz ir h = Some false.
Proof.
  intros Harr Hshape Hout. unfold in_shape. rewrite Harr.
  cbn [mbind option_bind]. rewrite Hshape. f_equal. by apply in_grid_false.
Qed.

(** C9.  A thread whose cell is out of range changes nothing and does not
    fail: for the kernels that receive [Nz] and [Nr], when [iz < Nz] and
    [ir < Nr] do not both hold; for the erase and divide-by-volume kernels,
    when the cell is outside the shape [(Nz, Nr)] of the first array. *)
Theorem out_of_range_thread_changes_nothing h Nz Nr iz ir :
  ¬ ((iz < Nz)%nat ∧ (ir < Nr)%nat) →
  (∀ mode0 mode1 arr,
     c128 h !! mode0 = Some arr → shape arr = (Nz, Nr) →
     cuda_erase_scalar mode0 mode1 iz ir h = Some h)
  ∧ (∀ mode0r mode1r mode0t mode1t mode0z mode1z arr,
       c128 h !! mode0r = Some arr → shape arr = (Nz, Nr) →
       cuda_erase_vector mode0r mode1r mode0t mode1t mode0z mode1z iz ir h
       = Some h)
  ∧ (∀ mode0 mode1 invvol0 invvol1 arr,
       c128 h !! mode0 = Some arr → shape arr = (Nz, Nr) →
       cuda_divide_scalar_by_volume mode0 mode1 invvol0 invvol1 iz ir h
       = Some h)
  ∧ (∀ mode0r mode1r mode0t mode1t mode0z mode1z invvol0 invvol1 arr,
       c128 h !! mode0r = Some arr → shape arr = (Nz, Nr) →
       cuda_divide_vector_by_volume mode0r mode1r mode0t mode1t mode0z mode1z
         invvol0 invvol1 iz ir h = Some h)
  ∧ (∀ rho_prev rho_next Jp Jm Jz kz kr inv_k2 j_corr_coef T inv_dt,
       cuda_correct_currents rho_prev rho_next Jp Jm Jz kz kr inv_k2
         j_corr_coef T inv_dt Nz Nr iz ir h = Some h)
  ∧ (∀ c epsilon_0 mu_0 Ep Em Ez Bp Bm Bz Jp Jm Jz rho_prev rho_next
       rho_prev_coef rho_next_coef j_coef C S_w T T_rho kr kz dt V
       ptcl_feedback use_true_rho,
       cuda_push_eb_with c epsilon_0 mu_0 Ep Em Ez Bp Bm Bz Jp Jm Jz
         rho_prev rho_next rho_prev_coef rho_next_coef j_coef C S_w T T_rho
         kr kz dt V ptcl_feedback use_true_rho Nz Nr iz ir h = Some h)
  ∧ (∀ rho_prev rho_next,
       cuda_push_rho rho_prev rho_next Nz Nr iz ir h = Some h)
  ∧ (∀ field filter_array,
       cuda_filter_scalar field filter_array Nz Nr iz ir h = Some h)
  ∧ (∀ fieldr fieldt fieldz filter_array,
       cuda_filter_vector fieldr fieldt fieldz filter_array Nz Nr iz ir h
       = Some h).
Proof.
  intros Hout. pose proof (in_grid_false iz ir Nz Nr Hout) as Hg.
  split_and!; intros;
    unfold cuda_erase_scalar, cuda_erase_vector,
      cuda_divide_scalar_by_volume, cuda_divide_vector_by_volume,
      cuda_correct_currents, cuda_push_eb_with, cuda_push_rho,
      cuda_filter_scalar, cuda_filter_vector, when;
    rewrite ?Hg; try done;
    by erewrite in_shape_false.
Qed.

(** ** The regression scenario *)

Section Golden.

Variables c epsilon_0 mu_0 dt V : Qc.
Variables rpc rnc : complex.

Local Abbreviation g_at := (cell_at
  g_Ep g_Em g_Ez g_Bp g_Bm g_Bz g_Jp g_Jm g_Jz g_rho_prev g_rho_next
  g_rho_prev_coef g_rho_next_coef g_j_coef g_C g_S_w g_T g_T_rho g_kr g_kz).
Local Abbreviation g_fields := [g_Ep; g_Em; g_Ez; g_Bp; g_Bm; g_Bz].
Local Abbreviation g_sources :=
  [g_Jp; g_Jm; g_Jz; g_rho_prev; g_rho_next; g_rho_prev_coef;
   g_rho_next_coef; g_j_coef; g_T; g_T_rho].

Lemma golden_distinct :
  NoDup g_fields ∧ Forall (λ a, a ∉ g_fields) g_sources.
Proof.
  split.
  - by apply (bool_decide_unpack _).
  - by apply (bool_decide_unpack _).
Qed.

Lemma has_shape_uniform {A} Nz Nr (x : A) : has_shape (uniform Nz Nr x) Nz Nr.
Proof.
  unfold uniform. split; [by rewrite length_replicate|].
  apply Forall_replicate. by rewrite length_replicate.
Qed.

Lemma golden_alloc :
  Forall (alloc (golden dt rpc rnc) 4 4) (g_fields ++ g_sources)
  ∧ Forall (allocf (golden dt rpc rnc) 4 4) [g_C; g_S_w; g_kr; g_kz].
Proof.
  split; repeat constructor;
    (eexists; split; [reflexivity|]);
    first [apply has_shape_uniform | apply has_shape_update2, has_shape_uniform].
Qed.

Lemma golden_at_cell iz ir :
  (iz < 4)%nat → (ir < 4)%nat →
  g_at (golden dt rpc rnc) iz ir (golden_cell dt rpc rnc iz ir).
Proof.
  intros Hz Hr.
  destruct iz as [|[|[|[|?]]]]; [| | | |lia];
    (destruct ir as [|[|[|[|?]]]]; [| | | |lia]);
    unfold cell_at; repeat split; reflexivity.
Qed.

(** The launch of the scenario, cell by cell. *)
Lemma golden_launch fb utr :
  ∃ h', launch (golden_push c epsilon_0 mu_0 dt V fb utr) 4 4
          (golden dt rpc rnc) = Some h'
    ∧ ∀ iz ir, (iz < 4)%nat → (ir < 4)%nat →
        g_at h' iz ir
          (push_cell c epsilon_0 mu_0 dt V (golden_cell dt rpc rnc iz ir)
             fb utr).
Proof.
  destruct golden_distinct as [Hnd Hsrc], golden_alloc as [Hc Hf].
  destruct (push_launch c epsilon_0 mu_0
    g_Ep g_Em g_Ez g_Bp g_Bm g_Bz g_Jp g_Jm g_Jz g_rho_prev g_rho_next
    g_rho_prev_coef g_rho_next_coef g_j_coef g_C g_S_w g_T g_T_rho
    g_kr g_kz dt V 4 4 fb utr 4 4 (golden dt rpc rnc))
    as (h' & Hrun & Hat); [done..|].
  exists h'. split; [done|]. intros iz ir Hz Hr.
  destruct (Hat iz ir) as (s & Hs & Hs'); [done..|].
  pose proof (golden_at_cell iz ir Hz Hr) as Hg.
  by assert (s = golden_cell dt rpc rnc iz ir) as <- by (by eapply at_cell_inj).
Qed.

Lemma quarter_neq_0 : half * half ≠ 0.
Proof. intros H. apply (f_equal this) in H. discriminate H. Qed.

(** C6, as the code has it.  In the scenario, one push with particle
    feedback and without true rho leaves E zero at every cell other than
    [(2, 1)].  At the cell [(2, 1)], [divE = 0] and [divJ = i*kz*Jz = i],
    hence [rho_diff = i*dt*rho_next_coef], and the new [Ep] is
    [0.25*dt*(i*rho_next_coef)]; it is zero exactly when [dt] or
    [rho_next_coef] is zero. *)
Theorem golden_scenario_push :
  ∃ h', launch (golden_push c epsilon_0 mu_0 dt V true false) 4 4
          (golden dt rpc rnc) = Some h'
    ∧ (∀ iz ir, (iz < 4)%nat → (ir < 4)%nat → (iz, ir) ≠ (2, 1)%nat →
         rd g_Ep iz ir h' = Some C0 ∧ rd g_Em iz ir h' = Some C0
         ∧ rd g_Ez iz ir h' = Some C0)
    ∧ (let s := golden_cell dt rpc rnc 2 1 in
       divE s = C0 ∧ divJ s = Ci
       ∧ rho_diff_div epsilon_0 dt s = (Ci * dt * rnc)%C)
    ∧ rd g_Ep 2 1 h' = Some (RtoC (half * half * dt) * (Ci * rnc))%C
    ∧ ((RtoC (half * half * dt) * (Ci * rnc))%C = C0 ↔ dt = 0 ∨ rnc = C0).
Proof.
  destruct (golden_launch true false) as (h' & Hrun & Hat).
  exists h'. split_and!; [done|..].
  - intros iz ir Hz Hr Hne.
    destruct (Hat iz ir Hz Hr) as (HEp & HEm & HEz & _).
    rewrite HEp, HEm, HEz. clear Hrun Hat HEp HEm HEz.
    assert (golden_cell dt rpc rnc iz ir = golden_cell dt rpc rnc 0 0) as ->.
    { unfold golden_cell.
      destruct (Nat.eqb_spec iz 2) as [->|], (Nat.eqb_spec ir 1) as [->|];
        try reflexivity.
      by destruct Hne. }
    destruct rpc, rnc.
    split_and!; f_equal;
      unfold push_cell, with_fields, golden_cell;
      cbn [Nat.eqb andb v_Ep v_Em v_Ez];
      cellv_ring.
  - destruct rpc, rnc. unfold golden_cell. cbn [Nat.eqb andb].
    split_and!; cellv_ring.
  - destruct (Hat 2%nat 1%nat) as (HEp & _); [lia..|]. rewrite HEp. f_equal.
    clear Hrun Hat HEp. destruct rpc, rnc.
    unfold push_cell, with_fields, golden_cell.
    cbn [Nat.eqb andb v_Ep]. cellv_ring.
  - destruct rnc as [x y]. split.
    + intros H. pose proof (f_equal Re H) as H1. pose proof (f_equal Im H) as H2.
      cbn [Cmul Ci C0 RtoC Re Im] in H1, H2.
      destruct (decide (dt = 0)) as [|Hdt]; [by left|right].
      assert (half * half * dt ≠ 0) as Hq.
      { intros Hm. apply Qcmult_integral in Hm as [Hm|Hm];
          [exact (quarter_neq_0 Hm) | exact (Hdt Hm)]. }
      apply complex_eq; cbn [C0 RtoC Re Im];
        apply (Qcmult_integral_l _ _ Hq).
      * rewrite <- H2. ring.
      * transitivity (- (half * half * dt * (0 * x - 1 * y)
                         - 0 * (0 * y + 1 * x))); [ring|].
        rewrite H1. ring.
    + intros [-> | ->]; cx_ring.
Qed.

Lemma golden_no_sources_alloc :
  Forall (alloc (golden_no_sources dt rpc rnc) 4 4) (g_fields ++ g_sources)
  ∧ Forall (allocf (golden_no_sources dt rpc rnc) 4 4)
      [g_C; g_S_w; g_kr; g_kz].
Proof.
  split; repeat constructor;
    (eexists; split; [reflexivity|]);
    first [apply has_shape_uniform | apply has_shape_update2, has_shape_uniform].
Qed.

Lemma golden_no_sources_at_cell iz ir s :
  (iz < 4)%nat → (ir < 4)%nat →
  g_at (golden dt rpc rnc) iz ir s →
  g_at (golden_no_sources dt rpc rnc) iz ir (without_sources s).
Proof.
  intros Hz Hr Hs.
  assert (s = golden_cell dt rpc rnc iz ir) as ->.
  { eapply at_cell_inj; [exact Hs|]. by apply golden_at_cell. }
  clear Hs.
  destruct iz as [|[|[|[|?]]]]; [| | | |lia];
    (destruct ir as [|[|[|[|?]]]]; [| | | |lia]);
    unfold cell_at; repeat split; reflexivity.
Qed.

End Golden.

(** ** The statements at the regression scenario *)

(** The new [Ep] at the cell [(2, 1)] of the scenario, computed by running
    the kernel. *)
Example golden_scenario_Ep_value :
  (v ← observe g_Ep 2 1
         (launch (golden_push c_SI epsilon_0_SI mu_0_SI 1 0 true false) 4 4
            (golden 1 C0 C1));
   Some (Ceqb v (Cx 0 (half * half)))) = Some true.
Proof. vm_compute. reflexivity. Qed.

(** The corrected currents at the cell [(2, 1)] satisfy the continuity
    equation, computed by running the kernel. *)
Example golden_correction_residual :
  (h ← launch (cuda_correct_currents g_rho_prev g_rho_next g_Jp g_Jm g_Jz
                 g_kz g_kr g_inv_k2 g_j_coef g_T 1 4 4) 4 4 example_heap;
   jz ← rd g_Jz 2 1 h; jp ← rd g_Jp 2 1 h; jm ← rd g_Jm 2 1 h;
   Some (Ceqb (Ci * RtoC 1 * jz + RtoC half * (jp - jm))%C C0)) = Some true.
Proof. vm_compute. reflexivity. Qed.

(** C6, as the claim has it, fails: with [dt = 1] and [rho_next_coef = 1]
    the push leaves [Ep = 0.25i], not 0, at the cell [(2, 1)], and
    [divJ] is [i], not 0, there. *)
Lemma golden_scenario_Ep_is_not_zero :
  (∃ h' v,
     launch (golden_push c_SI epsilon_0_SI mu_0_SI 1 0 true false) 4 4
       (golden 1 C0 C1) = Some h'
     ∧ rd g_Ep 2 1 h' = Some v ∧ v ≠ C0)
  ∧ divJ (golden_cell 1 C0 C1 2 1) ≠ C0.
Proof.
  split.
  - assert ((v ← observe g_Ep 2 1
                   (launch (golden_push c_SI epsilon_0_SI mu_0_SI 1 0 true false)
                      4 4 (golden 1 C0 C1));
             Some (Ceqb v C0)) = Some false) as Hobs
      by (vm_compute; reflexivity).
    destruct (launch _ 4 4 (golden 1 C0 C1)) as [h'|]; [|discriminate Hobs].
    simpl in Hobs.
    destruct (rd g_Ep 2 1 h') as [v|] eqn:Hv; [|discriminate Hobs].
    exists h', v. split_and!; [reflexivity|exact Hv|].
    apply Ceqb_neq. by injection Hobs.
  - apply Ceqb_neq. vm_compute. reflexivity.
Qed.

Ltac solve_alloc :=
  repeat constructor;
  (eexists; split; [reflexivity | split; [reflexivity | repeat constructor]]).

(** The history shift on the example memory. *)
Lemma push_rho_shifts_history_witness :
  ∃ h', launch (cuda_push_rho g_rho_prev g_rho_next 4 4) 4 4 example_heap
        = Some h'
    ∧ ∀ iz ir, (iz < 4)%nat → (ir < 4)%nat →
        is_Some (rd g_rho_next iz ir example_heap)
        ∧ rd g_rho_prev iz ir h' = rd g_rho_next iz ir example_heap
        ∧ rd g_rho_next iz ir h' = Some C0.
Proof.
  apply (push_rho_shifts_history g_rho_prev g_rho_next 4 4 4 4 example_heap).
  - discriminate.
  - solve_alloc.
  - solve_alloc.
  - lia.
  - lia.
Defined.

(** The push of E with true rho on the memory of the scenario. *)
Lemma push_eb_true_rho_E_formulas_witness :
  ∃ h', launch (golden_push c_SI epsilon_0_SI mu_0_SI 1 0 true true) 4 4
          (golden 1 C0 C1) = Some h'
    ∧ ∀ iz ir, (iz < 4)%nat → (ir < 4)%nat →
        ∃ s, cell_at g_Ep g_Em g_Ez g_Bp g_Bm g_Bz g_Jp g_Jm g_Jz
               g_rho_prev g_rho_next g_rho_prev_coef g_rho_next_coef g_j_coef
               g_C g_S_w g_T g_T_rho g_kr g_kz (golden 1 C0 C1) iz ir s
          ∧ let rho_diff :=
              (v_rho_next_coef s * v_rho_next s
               - v_rho_prev_coef s * v_rho_prev s)%C in
            rd g_Ep iz ir h' = Some (Ep_push c_SI mu_0_SI 0 s rho_diff)
            ∧ rd g_Em iz ir h' = Some (Em_push c_SI mu_0_SI 0 s rho_diff)
            ∧ rd g_Ez iz ir h' = Some (Ez_push c_SI mu_0_SI 0 s rho_diff).
Proof.
  apply (push_eb_true_rho_E_formulas c_SI epsilon_0_SI mu_0_SI
    g_Ep g_Em g_Ez g_Bp g_Bm g_Bz g_Jp g_Jm g_Jz g_rho_prev g_rho_next
    g_rho_prev_coef g_rho_next_coef g_j_coef g_C g_S_w g_T g_T_rho
    g_kr g_kz 1 0 4 4 4 4 (golden 1 C0 C1)).
  - by apply (bool_decide_unpack _).
  - by apply (bool_decide_unpack _).
  - solve_alloc.
  - solve_alloc.
  - lia.
  - lia.
Defined.

(** The push of B on the memory of the scenario. *)
Lemma push_eb_B_reads_old_E_witness :
  ∃ h', launch (golden_push c_SI epsilon_0_SI mu_0_SI 1 0 true false) 4 4
          (golden 1 C0 C1) = Some h'
    ∧ ∀ iz ir, (iz < 4)%nat → (ir < 4)%nat →
        ∃ s, cell_at g_Ep g_Em g_Ez g_Bp g_Bm g_Bz g_Jp g_Jm g_Jz
               g_rho_prev g_rho_next g_rho_prev_coef g_rho_next_coef g_j_coef
               g_C g_S_w g_T g_T_rho g_kr g_kz (golden 1 C0 C1) iz ir s
          ∧ rd g_Bp iz ir h' = Some (Bp_push s)
          ∧ rd g_Bm iz ir h' = Some (Bm_push s)
          ∧ rd g_Bz iz ir h' = Some (Bz_push s).
Proof.
  apply (push_eb_B_reads_old_E c_SI epsilon_0_SI mu_0_SI
    g_Ep g_Em g_Ez g_Bp g_Bm g_Bz g_Jp g_Jm g_Jz g_rho_prev g_rho_next
    g_rho_prev_coef g_rho_next_coef g_j_coef g_C g_S_w g_T g_T_rho
    g_kr g_kz 1 0 4 4 true false 4 4 (golden 1 C0 C1)).
  - by apply (bool_decide_unpack _).
  - by apply (bool_decide_unpack _).
  - solve_alloc.
  - solve_alloc.
  - lia.
  - lia.
Defined.

(** The push without feedback on the memory of the scenario, and the push
    with feedback on the same memory without its current. *)
Lemma push_eb_no_feedback_is_sourceless_feedback_witness :
  ∃ h' hz',
    launch (golden_push c_SI epsilon_0_SI mu_0_SI 1 0 false false) 4 4
      (golden 1 C0 C1) = Some h'
    ∧ launch (golden_push c_SI epsilon_0_SI mu_0_SI 1 0 true true) 4 4
        (golden_no_sources 1 C0 C1) = Some hz'
    ∧ ∀ iz ir, (iz < 4)%nat → (ir < 4)%nat →
        Forall (λ a, is_Some (rd a iz ir h')
                     ∧ rd a iz ir h' = rd a iz ir hz')
          [g_Ep; g_Em; g_Ez; g_Bp; g_Bm; g_Bz].
Proof.
  apply (push_eb_no_feedback_is_sourceless_feedback
    c_SI epsilon_0_SI mu_0_SI
    g_Ep g_Em g_Ez g_Bp g_Bm g_Bz g_Jp g_Jm g_Jz g_rho_prev g_rho_next
    g_rho_prev_coef g_rho_next_coef g_j_coef g_C g_S_w g_T g_T_rho
    g_kr g_kz 1 0 4 4 false 4 4 (golden 1 C0 C1) (golden_no_sources 1 C0 C1)).
  - by apply (bool_decide_unpack _).
  - by apply (bool_decide_unpack _).
  - solve_alloc.
  - solve_alloc.
  - solve_alloc.
  - solve_alloc.
  - intros iz ir s. apply golden_no_sources_at_cell.
  - lia.
  - lia.
Defined.

(** The arrays that the push of the scenario leaves as they are. *)
Lemma push_eb_changes_fields_only_witness :
  ∃ h', launch (golden_push c_SI epsilon_0_SI mu_0_SI 1 0 true false) 4 4
          (golden 1 C0 C1) = Some h'
    ∧ Forall (λ a, c128 h' !! a = c128 (golden 1 C0 C1) !! a)
        [g_Jp; g_Jm; g_Jz; g_rho_prev; g_rho_next; g_rho_prev_coef;
         g_rho_next_coef; g_j_coef; g_T; g_T_rho]
    ∧ Forall (λ a, f64 h' !! a = f64 (golden 1 C0 C1) !! a)
        [g_C; g_S_w; g_kr; g_kz]
    ∧ (∀ a, a ∉ [g_Ep; g_Em; g_Ez; g_Bp; g_Bm; g_Bz] →
         c128 h' !! a = c128 (golden 1 C0 C1) !! a)
    ∧ f64 h' = f64 (golden 1 C0 C1) ∧ f64v h' = f64v (golden 1 C0 C1).
Proof.
  apply (push_eb_changes_fields_only c_SI epsilon_0_SI mu_0_SI
    g_Ep g_Em g_Ez g_Bp g_Bm g_Bz g_Jp g_Jm g_Jz g_rho_prev g_rho_next
    g_rho_prev_coef g_rho_next_coef g_j_coef g_C g_S_w g_T g_T_rho
    g_kr g_kz 1 0 4 4 true false 4 4 (golden 1 C0 C1)).
  - by apply (bool_decide_unpack _).
  - solve_alloc.
  - solve_alloc.
Defined.

(** The current correction on the example memory. *)
Lemma correct_currents_formulas_witness :
  ∃ h', launch (cuda_correct_currents g_rho_prev g_rho_next g_Jp g_Jm g_Jz
                  g_kz g_kr g_inv_k2 g_j_coef g_T 1 4 4) 4 4 example_heap
        = Some h'
    ∧ (∀ a, a ∉ [g_Jp; g_Jm; g_Jz] → c128 h' !! a = c128 example_heap !! a)
    ∧ f64 h' = f64 example_heap ∧ f64v h' = f64v example_heap
    ∧ ∀ iz ir, (iz < 4)%nat → (ir < 4)%nat →
        ∃ s, jcell_at g_rho_prev g_rho_next g_Jp g_Jm g_Jz g_kz g_kr g_inv_k2
               g_j_coef g_T example_heap iz ir s
          ∧ let F := correction_F s in
            rd g_Jp iz ir h' = Some (u_Jp s + half * u_kr s * F)%C
            ∧ rd g_Jm iz ir h' = Some (u_Jm s + - half * u_kr s * F)%C
            ∧ rd g_Jz iz ir h' = Some (u_Jz s + - Ci * u_kz s * F)%C.
Proof.
  apply (correct_currents_formulas g_rho_prev g_rho_next g_Jp g_Jm g_Jz
    g_kz g_kr g_inv_k2 g_j_coef g_T 1 4 4 4 4 example_heap).
  - by apply (bool_decide_unpack _).
  - solve_alloc.
  - solve_alloc.
  - lia.
  - lia.
Defined.


(** Filtering the example memory with [kr], twice, and with its square. *)
Lemma filter_twice_is_filter_squared_witness :
  (∃ h1 h2 h3,
     launch (cuda_filter_scalar g_Ep g_kr 4 4) 4 4 example_heap = Some h1
     ∧ launch (cuda_filter_scalar g_Ep g_kr 4 4) 4 4 h1 = Some h2
     ∧ launch (cuda_filter_scalar g_Ep g_kr2 4 4) 4 4 example_heap = Some h3
     ∧ ∀ iz ir, (iz < 4)%nat → (ir < 4)%nat →
         is_Some (rd g_Ep iz ir h2) ∧ rd g_Ep iz ir h2 = rd g_Ep iz ir h3)
  ∧ (∃ h1 h2 h3,
       launch (cuda_filter_vector g_Jp g_Jm g_Jz g_kr 4 4) 4 4 example_heap
       = Some h1
       ∧ launch (cuda_filter_vector g_Jp g_Jm g_Jz g_kr 4 4) 4 4 h1 = Some h2
       ∧ launch (cuda_filter_vector g_Jp g_Jm g_Jz g_kr2 4 4) 4 4 example_heap
         = Some h3
       ∧ ∀ iz ir, (iz < 4)%nat → (ir < 4)%nat →
           Forall (λ a, is_Some (rd a iz ir h2)
                        ∧ rd a iz ir h2 = rd a iz ir h3)
             [g_Jp; g_Jm; g_Jz]).
Proof.
  apply (filter_twice_is_filter_squared g_Ep g_Jp g_Jm g_Jz g_kr g_kr2
    (update2 (uniform 4 4 0) 2 1 half) 4 4 4 4 example_heap).
  - by apply (bool_decide_unpack _).
  - solve_alloc.
  - reflexivity.
  - split; [reflexivity | repeat constructor].
  - reflexivity.
  - lia.
  - lia.
Defined.

(** The thread [(4, 0)] on the example memory of 4 by 4 cells. *)
Lemma out_of_range_thread_changes_nothing_witness :
  let h := example_heap in
  (∀ mode0 mode1 arr,
     c128 h !! mode0 = Some arr → shape arr = (4, 4)%nat →
     cuda_erase_scalar mode0 mode1 4 0 h = Some h)
  ∧ (∀ mode0r mode1r mode0t mode1t mode0z mode1z arr,
       c128 h !! mode0r = Some arr → shape arr = (4, 4)%nat →
       cuda_erase_vector mode0r mode1r mode0t mode1t mode0z mode1z 4 0 h
       = Some h)
  ∧ (∀ mode0 mode1 invvol0 invvol1 arr,
       c128 h !! mode0 = Some arr → shape arr = (4, 4)%nat →
       cuda_divide_scalar_by_volume mode0 mode1 invvol0 invvol1 4 0 h
       = Some h)
  ∧ (∀ mode0r mode1r mode0t mode1t mode0z mode1z invvol0 invvol1 arr,
       c128 h !! mode0r = Some arr → shape arr = (4, 4)%nat →
       cuda_divide_vector_by_volume mode0r mode1r mode0t mode1t mode0z mode1z
         invvol0 invvol1 4 0 h = Some h)
  ∧ (∀ rho_prev rho_next Jp Jm Jz kz kr inv_k2 j_corr_coef T inv_dt,
       cuda_correct_currents rho_prev rho_next Jp Jm Jz kz kr inv_k2
         j_corr_coef T inv_dt 4 4 4 0 h = Some h)
  ∧ (∀ c epsilon_0 mu_0 Ep Em Ez Bp Bm Bz Jp Jm Jz rho_prev rho_next
       rho_prev_coef rho_next_coef j_coef C S_w T T_rho kr kz dt V
       ptcl_feedback use_true_rho,
       cuda_push_eb_with c epsilon_0 mu_0 Ep Em Ez Bp Bm Bz Jp Jm Jz
         rho_prev rho_next rho_prev_coef rho_next_coef j_coef C S_w T T_rho
         kr kz dt V ptcl_feedback use_true_rho 4 4 4 0 h = Some h)
  ∧ (∀ rho_prev rho_next, cuda_push_rho rho_prev rho_next 4 4 4 0 h = Some h)
  ∧ (∀ field filter_array,
       cuda_filter_scalar field filter_array 4 4 4 0 h = Some h)
  ∧ (∀ fieldr fieldt fieldz filter_array,
       cuda_filter_vector fieldr fieldt fieldz filter_array 4 4 4 0 h
       = Some h).
Proof.
  apply (out_of_range_thread_changes_nothing example_heap 4 4 4 0). lia.
Defined.

(** * Further properties of the kernels *)

(** ** Memories are determined by their cells *)

Lemma lookup2_ext {A} (arr1 arr2 : list (list A)) :
  dims arr1 = dims arr2 →
  (∀ iz ir, lookup2 arr1 iz ir = lookup2 arr2 iz ir) → arr1 = arr2.
Proof.
  intros Hd Hl. apply list_eq. intros iz.
  pose proof (f_equal (λ d, d !! iz) Hd) as Hiz. unfold dims in Hiz.
  simpl in Hiz. rewrite !list_lookup_fmap in Hiz.
  destruct (arr1 !! iz) as [r1|] eqn:H1, (arr2 !! iz) as [r2|] eqn:H2;
    simplify_eq/=; [|done].
  f_equal. apply list_eq. intros ir.
  specialize (Hl iz ir). unfold lookup2 in Hl. by rewrite H1, H2 in Hl.
Qed.

Lemma heap_ext h1 h2 : (∀ iz ir, cell_eq iz ir h1 h2) → h1 = h2.
Proof.
  intros Heq. destruct (Heq 0%nat 0%nat) as [_ Hsh Hf Hv].
  destruct h1 as [c1 f1 v1], h2 as [c2 f2 v2]. simpl in *. subst.
  f_equal. apply map_eq. intros a.
  specialize (Hsh a). unfold shape_of in Hsh. simpl in Hsh.
  destruct (c1 !! a) as [arr1|] eqn:H1, (c2 !! a) as [arr2|] eqn:H2;
    simplify_eq/=; [|done].
  f_equal. apply lookup2_ext; [done|]. intros iz ir.
  pose proof (ce_rd _ _ _ _ (Heq iz ir) a) as Hrd. unfold rd in Hrd.
  simpl in Hrd. by rewrite H1, H2 in Hrd.
Qed.

(** ** Every kernel works on the cell of its thread *)

Lemma kernel_local k iz ir : kernel k → s_local iz ir (k iz ir).
Proof. intros []; kernel_body; auto 60 with kernel. Qed.

Lemma kernel_frame k iz ir : kernel k → s_frame iz ir (k iz ir).
Proof. intros []; kernel_body; auto 60 with kernel. Qed.

Lemma run_threads_all_ok k ts h h' iz ir :
  (∀ iz ir, s_local iz ir (k iz ir)) → (∀ iz ir, s_frame iz ir (k iz ir)) →
  NoDup ts → run_threads k ts h = Some h' → (iz, ir) ∈ ts →
  is_Some (k iz ir h).
Proof.
  intros Hloc Hfr Hnd Hrun Hin.
  destruct (run_threads_at k Hloc Hfr ts h h' iz ir) as (h1 & -> & _); done.
Qed.

Lemma run_threads_perm k ts ts' h :
  (∀ iz ir, s_local iz ir (k iz ir)) → (∀ iz ir, s_frame iz ir (k iz ir)) →
  NoDup ts → ts ≡ₚ ts' → run_threads k ts h = run_threads k ts' h.
Proof.
  intros Hloc Hfr Hnd Hperm.
  assert (NoDup ts') as Hnd' by (by rewrite <- Hperm).
  destruct (run_threads k ts h) as [h1|] eqn:H1,
           (run_threads k ts' h) as [h2|] eqn:H2; [| | |done].
  - f_equal. apply heap_ext. intros iz ir.
    by eapply (run_threads_order k Hloc Hfr ts ts').
  - destruct (run_threads_is_Some k Hloc Hfr ts' h Hnd') as [h2 Hh2].
    + intros iz ir Hin. apply (run_threads_all_ok k ts h h1); [done..|].
      by rewrite Hperm.
    + congruence.
  - destruct (run_threads_is_Some k Hloc Hfr ts h Hnd) as [h1 Hh1].
    + intros iz ir Hin. apply (run_threads_all_ok k ts' h h2); [done..|].
      by rewrite <- Hperm.
    + congruence.
Qed.

Lemma launch_padded k Nz Nr gz gr h :
  (∀ iz ir, s_local iz ir (k iz ir)) → (∀ iz ir, s_frame iz ir (k iz ir)) →
  (∀ iz ir, ¬ ((iz < Nz)%nat ∧ (ir < Nr)%nat) → k iz ir h = Some h) →
  (Nz ≤ gz)%nat → (Nr ≤ gr)%nat →
  launch k gz gr h = launch k Nz Nr h.
Proof.
  intros Hloc Hfr Hout Hgz Hgr. unfold launch.
  assert (∀ iz ir, (∀ i j, (i, j) ∈ threads Nz Nr → is_Some (k i j h)) →
    (iz, ir) ∈ threads gz gr → is_Some (k iz ir h)) as Hup.
  { intros iz ir Hin _.
    destruct (decide ((iz < Nz)%nat ∧ (ir < Nr)%nat)) as [Hr|Hr].
    - by apply Hin, elem_of_threads.
    - rewrite Hout by done. by eexists. }
  assert (∀ iz ir, (∀ i j, (i, j) ∈ threads gz gr → is_Some (k i j h)) →
    (iz, ir) ∈ threads Nz Nr → is_Some (k iz ir h)) as Hdown.
  { intros iz ir Hin [??]%elem_of_threads. apply Hin, elem_of_threads. lia. }
  destruct (run_threads k (threads gz gr) h) as [h2|] eqn:H2,
           (run_threads k (threads Nz Nr) h) as [h1|] eqn:H1; [| | |done].
  - f_equal. apply heap_ext. intros iz ir.
    assert (cell_eq iz ir h1 h2 → cell_eq iz ir h2 h1) as Hsym by done.
    apply Hsym.
    destruct (decide ((iz < Nz)%nat ∧ (ir < Nr)%nat)) as [[Hz Hr]|Hno].
    + destruct (run_threads_at k Hloc Hfr _ h h1 iz ir (NoDup_threads _ _) H1)
        as (ha & Hka & Ha); [by apply elem_of_threads|].
      destruct (run_threads_at k Hloc Hfr _ h h2 iz ir (NoDup_threads _ _) H2)
        as (hb & Hkb & Hb); [apply elem_of_threads; lia|].
      rewrite Hka in Hkb. injection Hkb as <-. by rewrite <- Ha.
    + transitivity h.
      * symmetry. eapply (run_threads_frame k Hfr); [exact H1|].
        by rewrite elem_of_threads.
      * destruct (decide ((iz, ir) ∈ threads gz gr)) as [Hin|Hnotin].
        -- destruct (run_threads_at k Hloc Hfr _ h h2 iz ir
             (NoDup_threads _ _) H2 Hin) as (hb & Hkb & Hb).
           rewrite Hout in Hkb by done. by injection Hkb as <-.
        -- by eapply (run_threads_frame k Hfr).
  - destruct (run_threads_is_Some k Hloc Hfr (threads Nz Nr) h) as [h1 Hh1];
      [apply NoDup_threads| |congruence].
    intros iz ir Hin. apply Hdown; [|done]. intros i j Hij.
    apply (run_threads_all_ok k (threads gz gr) h h2);
      [done|done|apply NoDup_threads|done|done].
  - destruct (run_threads_is_Some k Hloc Hfr (threads gz gr) h) as [h2 Hh2];
      [apply NoDup_threads| |congruence].
    intros iz ir Hin. apply Hup; [|done]. intros i j Hij.
    apply (run_threads_all_ok k (threads Nz Nr) h h1);
      [done|done|apply NoDup_threads|done|done].
Qed.

(** X1.  A thread changes no cell but its own: after the thread [(iz, ir)]
    of any of the nine kernels, every other cell of every complex array
    holds what it held, no array has changed its shape, and the real
    arrays are the same. *)
Theorem kernel_thread_touches_own_cell k iz ir h h' :
  kernel k → k iz ir h = Some h' →
  (∀ a i j, (i, j) ≠ (iz, ir) → rd a i j h' = rd a i j h)
  ∧ (∀ a, shape_of h' a = shape_of h a)
  ∧ f64 h' = f64 h ∧ f64v h' = f64v h.
Proof.
  intros Hk Hrun. pose proof (kernel_frame k iz ir Hk h h' Hrun) as Hfr.
  split_and!.
  - intros a i j Hne. symmetry. by apply (Hfr i j Hne).
  - intros a. symmetry. apply (Hfr (S iz) ir). intros [= ?]. lia.
  - symmetry. apply (Hfr (S iz) ir). intros [= ?]. lia.
  - symmetry. apply (Hfr (S iz) ir). intros [= ?]. lia.
Qed.

(** X2.  The order of the threads does not matter: for any of the nine
    kernels, running the same threads, each once, in two different orders
    gives the same memory, or fails in both orders. *)
Theorem kernel_threads_commute k ts ts' h :
  kernel k → NoDup ts → ts ≡ₚ ts' →
  run_threads k ts h = run_threads k ts' h.
Proof.
  intros Hk. apply run_threads_perm; intros; first [by apply kernel_local | by apply kernel_frame].
Qed.

(** X3.  A grid padded past the arrays gives what the exact grid gives:
    for any of the nine kernels, when the threads outside [Nz] by [Nr] skip
    (which is what their bounds test is for), the launch over a larger grid
    of [gz] by [gr] threads equals the launch over [Nz] by [Nr] threads. *)
Theorem kernel_padded_grid k Nz Nr gz gr h :
  kernel k →
  (∀ iz ir, ¬ ((iz < Nz)%nat ∧ (ir < Nr)%nat) → k iz ir h = Some h) →
  (Nz ≤ gz)%nat → (Nr ≤ gr)%nat →
  launch k gz gr h = launch k Nz Nr h.
Proof.
  intros Hk. apply launch_padded; intros; first [by apply kernel_local | by apply kernel_frame].
Qed.

(** ** Erasing and dividing by the volume *)

Lemma in_shape_alloc h Nz Nr a iz ir :
  alloc h Nz Nr a → in_shape a iz ir h = Some (in_grid iz ir Nz Nr).
Proof.
  intros (arr & Harr & Hlen & Hrows). unfold in_shape, in_grid.
  rewrite Harr. cbn [mbind option_bind]. f_equal.
  destruct arr as [|row arr]; simpl in *.
  - subst Nz. rewrite !bool_decide_eq_false_2 by lia. done.
  - apply Forall_cons_1 in Hrows as [Hrow _]. by rewrite Hlen, Hrow.
Qed.

Lemma rd_store_is_Some a i j b iz ir v h :
  is_Some (rd a i j h) → is_Some (rd a i j (store b iz ir v h)).
Proof.
  intros [x Hx]. rewrite rd_store. case_decide as Hc; [|by eexists].
  destruct Hc as (-> & -> & ->). rewrite Hx. by eexists.
Qed.

(** Storing [v] anywhere in the cell keeps the arrays that hold [v]. *)
Lemma rd_store_const a b iz ir v h :
  rd a iz ir h = Some v → rd a iz ir (store b iz ir v h) = Some v.
Proof.
  intros Hv. rewrite rd_store. case_decide as Hc; [|done].
  destruct Hc as (-> & _). by rewrite Hv.
Qed.

Lemma rdv_allocv h Nr a ir :
  allocv h Nr a → (ir < Nr)%nat → ∃ x : Qc, rdv a ir h = Some (RtoC x).
Proof.
  intros (arr & Harr & Hlen) Hr. unfold rdv. rewrite Harr. simpl.
  destruct (lookup_lt_is_Some_2 arr ir) as [x ->]; [lia|]. by eexists.
Qed.

Lemma when_eval g s h h' :
  g h = Some true → s h = Some h' → when g s h = Some h'.
Proof. unfold when. by intros -> ->. Qed.

Ltac is_some_rd :=
  repeat apply rd_store_is_Some; assumption.

(** Reading zero through stores of zero, whichever arrays are the same. *)
Ltac zero_rd :=
  lazymatch goal with
  | |- rd ?a ?i ?j (store ?a ?i ?j _ _) = Some _ =>
      apply rd_store_same; is_some_rd
  | |- rd _ _ _ (store _ _ _ _ _) = Some _ =>
      apply rd_store_const; zero_rd
  end.

Ltac exec_zero :=
  lazymatch goal with
  | |- then_ _ _ _ = Some _ => eapply then_eval; [exec_zero | exec_zero]
  | |- wr _ _ _ _ _ = Some _ => eapply wr_eval; [reflexivity | is_some_rd]
  end.

Lemma erase_scalar_thread mode0 mode1 Nz Nr iz ir h :
  alloc h Nz Nr mode0 → alloc h Nz Nr mode1 →
  (iz < Nz)%nat → (ir < Nr)%nat →
  ∃ h1, cuda_erase_scalar mode0 mode1 iz ir h = Some h1
    ∧ rd mode0 iz ir h1 = Some C0 ∧ rd mode1 iz ir h1 = Some C0.
Proof.
  intros H0 H1 Hz Hr.
  pose proof (rd_alloc _ _ _ _ iz ir H0 Hz Hr).
  pose proof (rd_alloc _ _ _ _ iz ir H1 Hz Hr).
  unfold cuda_erase_scalar, assign, operand, operand_complex.
  eexists. split.
  - apply when_eval; [by rewrite (in_shape_alloc h Nz Nr), in_grid_true|].
    exec_zero.
  - split; zero_rd.
Qed.

Lemma erase_vector_thread mode0r mode1r mode0t mode1t mode0z mode1z
  Nz Nr iz ir h :
  Forall (alloc h Nz Nr) [mode0r; mode1r; mode0t; mode1t; mode0z; mode1z] →
  (iz < Nz)%nat → (ir < Nr)%nat →
  ∃ h1, cuda_erase_vector mode0r mode1r mode0t mode1t mode0z mode1z iz ir h
        = Some h1
    ∧ Forall (λ a, rd a iz ir h1 = Some C0)
        [mode0r; mode1r; mode0t; mode1t; mode0z; mode1z].
Proof.
  intros Hc Hz Hr. split_distinct.
  pose proof (in_shape_alloc h Nz Nr mode0r iz ir ltac:(assumption)) as Hg.
  rewrite in_grid_true in Hg by done.
  repeat match goal with
  | H : alloc _ _ _ _ |- _ => apply (λ H, rd_alloc _ _ _ _ iz ir H Hz Hr) in H
  end.
  unfold cuda_erase_vector, assign, operand, operand_complex.
  eexists. split.
  - apply when_eval; [exact Hg|]. exec_zero.
  - repeat constructor; zero_rd.
Qed.

Lemma erase_scalar_writes mode0 mode1 iz ir :
  s_writes [mode0; mode1] (cuda_erase_scalar mode0 mode1 iz ir).
Proof. kernel_body; auto 20 with kernel. Qed.

Lemma erase_vector_writes mode0r mode1r mode0t mode1t mode0z mode1z iz ir :
  s_writes [mode0r; mode1r; mode0t; mode1t; mode0z; mode1z]
    (cuda_erase_vector mode0r mode1r mode0t mode1t mode0z mode1z iz ir).
Proof. kernel_body; auto 20 with kernel. Qed.

Lemma when_in_shape_skip a s Nz Nr iz ir h :
  alloc h Nz Nr a → ¬ ((iz < Nz)%nat ∧ (ir < Nr)%nat) →
  when (in_shape a iz ir) s h = Some h.
Proof.
  intros Ha Hout. unfold when.
  by rewrite (in_shape_alloc h Nz Nr), in_grid_false.
Qed.

(** X4.  [cuda_erase_scalar] sets every cell of both arrays to zero, when
    the two arrays have the same shape and the grid covers it (the arrays
    may even be the same one); it changes no other array. *)
Theorem erase_scalar_zeroes mode0 mode1 Nz Nr gz gr h :
  alloc h Nz Nr mode0 → alloc h Nz Nr mode1 →
  (Nz ≤ gz)%nat → (Nr ≤ gr)%nat →
  ∃ h', launch (cuda_erase_scalar mode0 mode1) gz gr h = Some h'
    ∧ (∀ iz ir, (iz < Nz)%nat → (ir < Nr)%nat →
         rd mode0 iz ir h' = Some C0 ∧ rd mode1 iz ir h' = Some C0)
    ∧ (∀ a, a ∉ [mode0; mode1] → c128 h' !! a = c128 h !! a)
    ∧ f64 h' = f64 h ∧ f64v h' = f64v h.
Proof.
  intros H0 H1 Hgz Hgr.
  destruct (launch_guarded (cuda_erase_scalar mode0 mode1) Nz Nr gz gr h)
    as (h' & Hrun & Hat).
  { intros. apply kernel_local. constructor. }
  { intros. apply kernel_frame. constructor. }
  { intros iz ir Hout. by apply (when_in_shape_skip mode0 _ Nz Nr). }
  { intros iz ir Hz Hr.
    by destruct (erase_scalar_thread mode0 mode1 Nz Nr iz ir h)
      as (h1 & -> & _). }
  exists h'. split; [done|].
  destruct (run_threads_writes [mode0; mode1] (cuda_erase_scalar mode0 mode1)
    (threads gz gr) (erase_scalar_writes mode0 mode1) h h' Hrun)
    as (Hw & Hf & Hv).
  split_and!; [|done..]. intros iz ir Hz Hr.
  destruct (Hat iz ir) as (h1 & Hk & Heq); [lia..|].
  destruct (erase_scalar_thread mode0 mode1 Nz Nr iz ir h)
    as (h1' & Hk' & Hm0 & Hm1); [done..|].
  rewrite Hk in Hk'. injection Hk' as <-.
  by rewrite <- !(ce_rd _ _ _ _ Heq).
Qed.

(** X5.  [cuda_erase_vector] sets every cell of the six arrays to zero,
    when they all have the shape of the first one and the grid covers it;
    it changes no other array. *)
Theorem erase_vector_zeroes mode0r mode1r mode0t mode1t mode0z mode1z
  Nz Nr gz gr h :
  Forall (alloc h Nz Nr) [mode0r; mode1r; mode0t; mode1t; mode0z; mode1z] →
  (Nz ≤ gz)%nat → (Nr ≤ gr)%nat →
  ∃ h', launch (cuda_erase_vector mode0r mode1r mode0t mode1t mode0z mode1z)
          gz gr h = Some h'
    ∧ (∀ iz ir, (iz < Nz)%nat → (ir < Nr)%nat →
         Forall (λ a, rd a iz ir h' = Some C0)
           [mode0r; mode1r; mode0t; mode1t; mode0z; mode1z])
    ∧ (∀ a, a ∉ [mode0r; mode1r; mode0t; mode1t; mode0z; mode1z] →
         c128 h' !! a = c128 h !! a)
    ∧ f64 h' = f64 h ∧ f64v h' = f64v h.
Proof.
  intros Hc Hgz Hgr.
  destruct (launch_guarded
    (cuda_erase_vector mode0r mode1r mode0t mode1t mode0z mode1z)
    Nz Nr gz gr h) as (h' & Hrun & Hat).
  { intros. apply kernel_local. constructor. }
  { intros. apply kernel_frame. constructor. }
  { intros iz ir Hout. apply (when_in_shape_skip mode0r _ Nz Nr); [|done].
    by apply Forall_cons_1 in Hc as [? _]. }
  { intros iz ir Hz Hr.
    by destruct (erase_vector_thread mode0r mode1r mode0t mode1t mode0z mode1z
      Nz Nr iz ir h) as (h1 & -> & _). }
  exists h'. split; [done|].
  destruct (run_threads_writes _ _ (threads gz gr)
    (erase_vector_writes mode0r mode1r mode0t mode1t mode0z mode1z) h h' Hrun)
    as (Hw & Hf & Hv).
  split_and!; [|done..]. intros iz ir Hz Hr.
  destruct (Hat iz ir) as (h1 & Hk & Heq); [lia..|].
  destruct (erase_vector_thread mode0r mode1r mode0t mode1t mode0z mode1z
    Nz Nr iz ir h) as (h1' & Hk' & Hzero); [done..|].
  rewrite Hk in Hk'. injection Hk' as <-.
  eapply Forall_impl; [exact Hzero|]. intros a Ha.
  by rewrite <- (ce_rd _ _ _ _ Heq).
Qed.

Lemma divide_scalar_thread mode0 mode1 invvol0 invvol1 Nz Nr iz ir h
  x0 x1 (v0 v1 : Qc) :
  mode0 ≠ mode1 → alloc h Nz Nr mode0 →
  (iz < Nz)%nat → (ir < Nr)%nat →
  rd mode0 iz ir h = Some x0 → rd mode1 iz ir h = Some x1 →
  rdv invvol0 ir h = Some (RtoC v0) → rdv invvol1 ir h = Some (RtoC v1) →
  ∃ h1, cuda_divide_scalar_by_volume mode0 mode1 invvol0 invvol1 iz ir h
        = Some h1
    ∧ rd mode0 iz ir h1 = Some (x0 * RtoC v0)%C
    ∧ rd mode1 iz ir h1 = Some (x1 * RtoC v1)%C.
Proof.
  intros Hne H0 Hz Hr Hx0 Hx1 Hv0 Hv1.
  unfold cuda_divide_scalar_by_volume, assign, operand, operand_expr,
    operand_c128, operand_f64v.
  cbv beta iota zeta.
  eexists. split.
  - apply when_eval; [by rewrite (in_shape_alloc h Nz Nr), in_grid_true|].
    exec.
  - split; eval_rd.
Qed.

Lemma divide_vector_thread mode0r mode1r mode0t mode1t mode0z mode1z
  invvol0 invvol1 Nz Nr iz ir h x0r x1r x0t x1t x0z x1z (v0 v1 : Qc) :
  NoDup [mode0r; mode1r; mode0t; mode1t; mode0z; mode1z] →
  alloc h Nz Nr mode0r → (iz < Nz)%nat → (ir < Nr)%nat →
  rd mode0r iz ir h = Some x0r → rd mode1r iz ir h = Some x1r →
  rd mode0t iz ir h = Some x0t → rd mode1t iz ir h = Some x1t →
  rd mode0z iz ir h = Some x0z → rd mode1z iz ir h = Some x1z →
  rdv invvol0 ir h = Some (RtoC v0) → rdv invvol1 ir h = Some (RtoC v1) →
  ∃ h1, cuda_divide_vector_by_volume mode0r mode1r mode0t mode1t
          mode0z mode1z invvol0 invvol1 iz ir h = Some h1
    ∧ rd mode0r iz ir h1 = Some (x0r * RtoC v0)%C
    ∧ rd mode1r iz ir h1 = Some (x1r * RtoC v1)%C
    ∧ rd mode0t iz ir h1 = Some (x0t * RtoC v0)%C
    ∧ rd mode1t iz ir h1 = Some (x1t * RtoC v1)%C
    ∧ rd mode0z iz ir h1 = Some (x0z * RtoC v0)%C
    ∧ rd mode1z iz ir h1 = Some (x1z * RtoC v1)%C.
Proof.
  intros Hnd H0 Hz Hr ? ? ? ? ? ? ? ?. split_distinct.
  unfold cuda_divide_vector_by_volume, assign, operand, operand_expr,
    operand_c128, operand_f64v.
  cbv beta iota zeta.
  eexists. split.
  - apply when_eval; [by rewrite (in_shape_alloc h Nz Nr), in_grid_true|].
    exec.
  - repeat split; eval_rd.
Qed.

Lemma divide_scalar_writes mode0 mode1 invvol0 invvol1 iz ir :
  s_writes [mode0; mode1]
    (cuda_divide_scalar_by_volume mode0 mode1 invvol0 invvol1 iz ir).
Proof. kernel_body; auto 20 with kernel. Qed.

Lemma divide_vector_writes mode0r mode1r mode0t mode1t mode0z mode1z
  invvol0 invvol1 iz ir :
  s_writes [mode0r; mode1r; mode0t; mode1t; mode0z; mode1z]
    (cuda_divide_vector_by_volume mode0r mode1r mode0t mode1t mode0z mode1z
       invvol0 invvol1 iz ir).
Proof. kernel_body; auto 20 with kernel. Qed.

(** X6.  [cuda_divide_scalar_by_volume] multiplies every cell
    [mode0[iz, ir]] by [invvol0[ir]] and every cell [mode1[iz, ir]] by
    [invvol1[ir]], when the two arrays are different arrays of the same
    shape, the inverse volumes have one entry per radial cell and the grid
    covers the arrays; it changes no other array. *)
Theorem divide_scalar_by_volume_scales mode0 mode1 invvol0 invvol1
  Nz Nr gz gr h :
  mode0 ≠ mode1 → alloc h Nz Nr mode0 → alloc h Nz Nr mode1 →
  allocv h Nr invvol0 → allocv h Nr invvol1 →
  (Nz ≤ gz)%nat → (Nr ≤ gr)%nat →
  ∃ h', launch (cuda_divide_scalar_by_volume mode0 mode1 invvol0 invvol1)
          gz gr h = Some h'
    ∧ (∀ iz ir, (iz < Nz)%nat → (ir < Nr)%nat →
         ∃ x0 x1 (v0 v1 : Qc),
           (rd mode0 iz ir h = Some x0 ∧ rd mode1 iz ir h = Some x1
            ∧ rdv invvol0 ir h = Some (RtoC v0)
            ∧ rdv invvol1 ir h = Some (RtoC v1))
           ∧ rd mode0 iz ir h' = Some (x0 * RtoC v0)%C
           ∧ rd mode1 iz ir h' = Some (x1 * RtoC v1)%C)
    ∧ (∀ a, a ∉ [mode0; mode1] → c128 h' !! a = c128 h !! a)
    ∧ f64 h' = f64 h ∧ f64v h' = f64v h.
Proof.
  intros Hne H0 H1 Hi0 Hi1 Hgz Hgr.
  assert (∀ iz ir, (iz < Nz)%nat → (ir < Nr)%nat →
    ∃ x0 x1 (v0 v1 : Qc),
      rd mode0 iz ir h = Some x0 ∧ rd mode1 iz ir h = Some x1
      ∧ rdv invvol0 ir h = Some (RtoC v0)
      ∧ rdv invvol1 ir h = Some (RtoC v1)) as Hrd.
  { intros iz ir Hz Hr.
    destruct (rd_alloc _ _ _ _ iz ir H0 Hz Hr) as [x0 ?].
    destruct (rd_alloc _ _ _ _ iz ir H1 Hz Hr) as [x1 ?].
    destruct (rdv_allocv _ _ _ ir Hi0 Hr) as [v0 ?].
    destruct (rdv_allocv _ _ _ ir Hi1 Hr) as [v1 ?].
    by exists x0, x1, v0, v1. }
  destruct (launch_guarded
    (cuda_divide_scalar_by_volume mode0 mode1 invvol0 invvol1)
    Nz Nr gz gr h) as (h' & Hrun & Hat).
  { intros. apply kernel_local. constructor. }
  { intros. apply kernel_frame. constructor. }
  { intros iz ir Hout. by apply (when_in_shape_skip mode0 _ Nz Nr). }
  { intros iz ir Hz Hr. destruct (Hrd iz ir Hz Hr) as (x0&x1&v0&v1&?&?&?&?).
    by destruct (divide_scalar_thread mode0 mode1 invvol0 invvol1 Nz Nr
      iz ir h x0 x1 v0 v1) as (h1 & -> & _). }
  exists h'. split; [done|].
  destruct (run_threads_writes _ _ (threads gz gr)
    (divide_scalar_writes mode0 mode1 invvol0 invvol1) h h' Hrun)
    as (Hw & Hf & Hv).
  split_and!; [|done..]. intros iz ir Hz Hr.
  destruct (Hrd iz ir Hz Hr) as (x0&x1&v0&v1&?&?&?&?).
  exists x0, x1, v0, v1. split; [done|].
  destruct (Hat iz ir) as (h1 & Hk & Heq); [lia..|].
  destruct (divide_scalar_thread mode0 mode1 invvol0 invvol1 Nz Nr
    iz ir h x0 x1 v0 v1) as (h1' & Hk' & Hm0 & Hm1); [done..|].
  rewrite Hk in Hk'. injection Hk' as <-.
  by rewrite <- !(ce_rd _ _ _ _ Heq).
Qed.

(** X7.  [cuda_divide_vector_by_volume] multiplies every cell of the three
    arrays of mode 0 by [invvol0[ir]] and every cell of the three arrays of
    mode 1 by [invvol1[ir]], when the six arrays are pairwise different and
    of the same shape and the grid covers them; it changes no other
    array. *)
Theorem divide_vector_by_volume_scales
  mode0r mode1r mode0t mode1t mode0z mode1z invvol0 invvol1 Nz Nr gz gr h :
  NoDup [mode0r; mode1r; mode0t; mode1t; mode0z; mode1z] →
  Forall (alloc h Nz Nr) [mode0r; mode1r; mode0t; mode1t; mode0z; mode1z] →
  allocv h Nr invvol0 → allocv h Nr invvol1 →
  (Nz ≤ gz)%nat → (Nr ≤ gr)%nat →
  ∃ h', launch (cuda_divide_vector_by_volume mode0r mode1r mode0t mode1t
                  mode0z mode1z invvol0 invvol1) gz gr h = Some h'
    ∧ (∀ iz ir, (iz < Nz)%nat → (ir < Nr)%nat →
         ∃ v0 v1 : Qc,
           (rdv invvol0 ir h = Some (RtoC v0)
            ∧ rdv invvol1 ir h = Some (RtoC v1))
           ∧ Forall (λ a, ∃ x, rd a iz ir h = Some x
                               ∧ rd a iz ir h' = Some (x * RtoC v0)%C)
               [mode0r; mode0t; mode0z]
           ∧ Forall (λ a, ∃ x, rd a iz ir h = Some x
                               ∧ rd a iz ir h' = Some (x * RtoC v1)%C)
               [mode1r; mode1t; mode1z])
    ∧ (∀ a, a ∉ [mode0r; mode1r; mode0t; mode1t; mode0z; mode1z] →
         c128 h' !! a = c128 h !! a)
    ∧ f64 h' = f64 h ∧ f64v h' = f64v h.
Proof.
  intros Hnd Hc Hi0 Hi1 Hgz Hgr.
  assert (alloc h Nz Nr mode0r) as H0 by (by apply Forall_cons_1 in Hc as [? _]).
  assert (∀ iz ir, (iz < Nz)%nat → (ir < Nr)%nat →
    ∃ x0r x1r x0t x1t x0z x1z (v0 v1 : Qc),
      rd mode0r iz ir h = Some x0r ∧ rd mode1r iz ir h = Some x1r
      ∧ rd mode0t iz ir h = Some x0t ∧ rd mode1t iz ir h = Some x1t
      ∧ rd mode0z iz ir h = Some x0z ∧ rd mode1z iz ir h = Some x1z
      ∧ rdv invvol0 ir h = Some (RtoC v0)
      ∧ rdv invvol1 ir h = Some (RtoC v1)) as Hrd.
  { intros iz ir Hz Hr.
    assert (∀ a, a ∈ [mode0r; mode1r; mode0t; mode1t; mode0z; mode1z] →
      is_Some (rd a iz ir h)) as Hall.
    { intros a Ha. eapply rd_alloc; [|done..]. by eapply Forall_forall in Hc. }
    destruct (Hall mode0r) as [x0r ?]; [set_solver|].
    destruct (Hall mode1r) as [x1r ?]; [set_solver|].
    destruct (Hall mode0t) as [x0t ?]; [set_solver|].
    destruct (Hall mode1t) as [x1t ?]; [set_solver|].
    destruct (Hall mode0z) as [x0z ?]; [set_solver|].
    destruct (Hall mode1z) as [x1z ?]; [set_solver|].
    destruct (rdv_allocv _ _ _ ir Hi0 Hr) as [v0 ?].
    destruct (rdv_allocv _ _ _ ir Hi1 Hr) as [v1 ?].
    by exists x0r, x1r, x0t, x1t, x0z, x1z, v0, v1. }
  destruct (launch_guarded
    (cuda_divide_vector_by_volume mode0r mode1r mode0t mode1t mode0z mode1z
       invvol0 invvol1) Nz Nr gz gr h) as (h' & Hrun & Hat).
  { intros. apply kernel_local. constructor. }
  { intros. apply kernel_frame. constructor. }
  { intros iz ir Hout. by apply (when_in_shape_skip mode0r _ Nz Nr). }
  { intros iz ir Hz Hr.
    destruct (Hrd iz ir Hz Hr) as (x0r&x1r&x0t&x1t&x0z&x1z&v0&v1&?&?&?&?&?&?&?&?).
    by destruct (divide_vector_thread mode0r mode1r mode0t mode1t mode0z mode1z
      invvol0 invvol1 Nz Nr iz ir h x0r x1r x0t x1t x0z x1z v0 v1)
      as (h1 & -> & _). }
  exists h'. split; [done|].
  destruct (run_threads_writes _ _ (threads gz gr)
    (divide_vector_writes mode0r mode1r mode0t mode1t mode0z mode1z
       invvol0 invvol1) h h' Hrun) as (Hw & Hf & Hv).
  split_and!; [|done..]. intros iz ir Hz Hr.
  destruct (Hrd iz ir Hz Hr) as (x0r&x1r&x0t&x1t&x0z&x1z&v0&v1&?&?&?&?&?&?&?&?).
  exists v0, v1. split; [done|].
  destruct (Hat iz ir) as (h1 & Hk & Heq); [lia..|].
  destruct (divide_vector_thread mode0r mode1r mode0t mode1t mode0z mode1z
    invvol0 invvol1 Nz Nr iz ir h x0r x1r x0t x1t x0z x1z v0 v1)
    as (h1' & Hk' & ? & ? & ? & ? & ? & ?); [done..|].
  rewrite Hk in Hk'. injection Hk' as <-.
  split; repeat constructor; eexists; (split; [eassumption|]);
    by rewrite <- (ce_rd _ _ _ _ Heq).
Qed.

(** ** Sizes that the kernels do not check *)

Lemma launch_fails k gz gr h iz ir :
  (∀ iz ir, s_local iz ir (k iz ir)) → (∀ iz ir, s_frame iz ir (k iz ir)) →
  (iz < gz)%nat → (ir < gr)%nat → k iz ir h = None →
  launch k gz gr h = None.
Proof.
  intros Hloc Hfr Hz Hr Hk. unfold launch.
  destruct (run_threads k (threads gz gr) h) as [h'|] eqn:Hrun; [|done].
  destruct (run_threads_all_ok k (threads gz gr) h h' iz ir)
    as [h1 Hh1]; [done|done|apply NoDup_threads|done| |congruence].
  by apply elem_of_threads.
Qed.

(** X8.  [cuda_erase_scalar] takes its bounds from [mode0] alone: at a cell
    that lies inside [mode0] and outside [mode1] (or when [mode1] is not
    allocated) the thread goes on to write [mode1] out of bounds, and so
    does every launch that has this thread. *)
Theorem erase_scalar_bounds_from_mode0 mode0 mode1 Nz Nr iz ir gz gr h :
  alloc h Nz Nr mode0 → (iz < Nz)%nat → (ir < Nr)%nat →
  rd mode1 iz ir h = None →
  cuda_erase_scalar mode0 mode1 iz ir h = None
  ∧ ((iz < gz)%nat → (ir < gr)%nat →
     launch (cuda_erase_scalar mode0 mode1) gz gr h = None).
Proof.
  intros H0 Hz Hr H1.
  assert (cuda_erase_scalar mode0 mode1 iz ir h = None) as Hk.
  { destruct (rd_alloc _ _ _ _ iz ir H0 Hz Hr) as [x Hx].
    unfold cuda_erase_scalar, when.
    rewrite (in_shape_alloc h Nz Nr), in_grid_true by done.
    unfold assign, operand, operand_complex, then_, wr, lit.
    cbn [mbind option_bind]. rewrite Hx. cbn [mbind option_bind].
    rewrite rd_store, decide_False; [by rewrite H1|].
    intros (-> & _). congruence. }
  split; [done|]. intros Hgz Hgr.
  apply (launch_fails _ gz gr h iz ir); [| |done..].
  - intros. apply kernel_local. constructor.
  - intros. apply kernel_frame. constructor.
Qed.

(** X9.  [cuda_push_rho] trusts the sizes [Nz] and [Nr] it is given: at a
    cell that passes the test [iz < Nz], [ir < Nr] and lies outside one of
    the two arrays, the thread accesses the array out of bounds, and so
    does every launch that has this thread. *)
Theorem push_rho_trusts_sizes rho_prev rho_next Nz Nr iz ir gz gr h :
  (iz < Nz)%nat → (ir < Nr)%nat →
  rd rho_prev iz ir h = None ∨ rd rho_next iz ir h = None →
  cuda_push_rho rho_prev rho_next Nz Nr iz ir h = None
  ∧ ((iz < gz)%nat → (ir < gr)%nat →
     launch (cuda_push_rho rho_prev rho_next Nz Nr) gz gr h = None).
Proof.
  intros Hz Hr Hout.
  assert (cuda_push_rho rho_prev rho_next Nz Nr iz ir h = None) as Hk.
  { unfold cuda_push_rho. rewrite in_grid_true by done.
    unfold assign, operand, operand_complex, operand_c128, then_, wr, lit.
    destruct (rd rho_next iz ir h) as [y|] eqn:Hy; [|done].
    cbn [mbind option_bind].
    destruct Hout as [Hp|Hn]; [|done]. by rewrite Hp. }
  split; [done|]. intros Hgz Hgr.
  apply (launch_fails _ gz gr h iz ir); [| |done..].
  - intros. apply kernel_local. constructor.
  - intros. apply kernel_frame. constructor.
Qed.

(** ** More on the charge-density history *)

Lemma push_rho_launch rho_prev rho_next Nz Nr gz gr h :
  rho_prev ≠ rho_next →
  alloc h Nz Nr rho_prev → alloc h Nz Nr rho_next →
  (Nz ≤ gz)%nat → (Nr ≤ gr)%nat →
  ∃ h', launch (cuda_push_rho rho_prev rho_next Nz Nr) gz gr h = Some h'
    ∧ alloc h' Nz Nr rho_prev ∧ alloc h' Nz Nr rho_next
    ∧ ∀ iz ir, (iz < Nz)%nat → (ir < Nr)%nat →
        rd rho_prev iz ir h' = rd rho_next iz ir h
        ∧ rd rho_next iz ir h' = Some C0.
Proof.
  intros Hne Hp Hn Hgz Hgr.
  destruct (launch_guarded (cuda_push_rho rho_prev rho_next Nz Nr)
    Nz Nr gz gr h) as (h' & Hrun & Hat).
  { intros. apply cuda_push_rho_local. }
  { intros. apply cuda_push_rho_frame. }
  { intros iz ir Hout. unfold cuda_push_rho. by rewrite in_grid_false. }
  { intros iz ir Hz Hr.
    by destruct (cuda_push_rho_thread rho_prev rho_next Nz Nr iz ir h)
      as (h1 & -> & _). }
  destruct (launch_keeps _ gz gr h h'
    (cuda_push_rho_frame rho_prev rho_next Nz Nr) Hrun) as (Hsh & _).
  exists h'. split_and!;
    [done
    |by apply (alloc_shape_of_eq h h' rho_prev Nz Nr (Hsh rho_prev))
    |by apply (alloc_shape_of_eq h h' rho_next Nz Nr (Hsh rho_next))|].
  intros iz ir Hz Hr.
  destruct (Hat iz ir) as (h1 & Hk & Heq); [lia..|].
  destruct (cuda_push_rho_thread rho_prev rho_next Nz Nr iz ir h)
    as (h1' & Hk' & Hprev & Hnext); [done..|].
  rewrite Hk in Hk'. injection Hk' as <-.
  by rewrite <- !(ce_rd _ _ _ _ Heq).
Qed.

(** X10.  When [cuda_push_rho] receives the same array as [rho_prev] and
    as [rho_next], the history is lost: every cell of the array ends up
    zero. *)
Theorem push_rho_same_array_zeroes rho Nz Nr gz gr h :
  alloc h Nz Nr rho → (Nz ≤ gz)%nat → (Nr ≤ gr)%nat →
  ∃ h', launch (cuda_push_rho rho rho Nz Nr) gz gr h = Some h'
    ∧ ∀ iz ir, (iz < Nz)%nat → (ir < Nr)%nat → rd rho iz ir h' = Some C0.
Proof.
  intros Ha Hgz Hgr.
  assert (∀ iz ir, (iz < Nz)%nat → (ir < Nr)%nat →
    ∃ h1, cuda_push_rho rho rho Nz Nr iz ir h = Some h1
      ∧ rd rho iz ir h1 = Some C0) as Hthread.
  { intros iz ir Hz Hr. destruct (rd_alloc _ _ _ _ iz ir Ha Hz Hr) as [x Hx].
    unfold cuda_push_rho. rewrite in_grid_true by done.
    unfold assign, operand, operand_complex, operand_c128.
    eexists. split; [exec|eval_rd]. }
  destruct (launch_guarded (cuda_push_rho rho rho Nz Nr) Nz Nr gz gr h)
    as (h' & Hrun & Hat).
  { intros. apply cuda_push_rho_local. }
  { intros. apply cuda_push_rho_frame. }
  { intros iz ir Hout. unfold cuda_push_rho. by rewrite in_grid_false. }
  { intros iz ir Hz Hr. by destruct (Hthread iz ir Hz Hr) as (h1 & -> & _). }
  exists h'. split; [done|]. intros iz ir Hz Hr.
  destruct (Hat iz ir) as (h1 & Hk & Heq); [lia..|].
  destruct (Hthread iz ir Hz Hr) as (h1' & Hk' & Hzero).
  rewrite Hk in Hk'. injection Hk' as <-.
  by rewrite <- (ce_rd _ _ _ _ Heq).
Qed.

(** X11.  Two shifts of the history without a deposition in between leave
    zero in every cell of both [rho_prev] and [rho_next]. *)
Theorem push_rho_twice_zeroes rho_prev rho_next Nz Nr gz gr h :
  rho_prev ≠ rho_next →
  alloc h Nz Nr rho_prev → alloc h Nz Nr rho_next →
  (Nz ≤ gz)%nat → (Nr ≤ gr)%nat →
  ∃ h1 h2,
    launch (cuda_push_rho rho_prev rho_next Nz Nr) gz gr h = Some h1
    ∧ launch (cuda_push_rho rho_prev rho_next Nz Nr) gz gr h1 = Some h2
    ∧ ∀ iz ir, (iz < Nz)%nat → (ir < Nr)%nat →
        rd rho_prev iz ir h2 = Some C0 ∧ rd rho_next iz ir h2 = Some C0.
Proof.
  intros Hne Hp Hn Hgz Hgr.
  destruct (push_rho_launch rho_prev rho_next Nz Nr gz gr h)
    as (h1 & Hrun1 & Hp1 & Hn1 & Hat1); [done..|].
  destruct (push_rho_launch rho_prev rho_next Nz Nr gz gr h1)
    as (h2 & Hrun2 & _ & _ & Hat2); [done..|].
  exists h1, h2. split_and!; [done..|]. intros iz ir Hz Hr.
  destruct (Hat1 iz ir Hz Hr) as [_ Hzero].
  destruct (Hat2 iz ir Hz Hr) as [Hprev Hnext].
  by rewrite Hprev, Hzero.
Qed.

(** ** More on the current correction *)

Lemma RtoC_inj x y : RtoC x = RtoC y → x = y.
Proof. intros H. exact (f_equal Re H). Qed.

(** Where [inv_k2] is zero the correction scalar [F] is zero. *)
Lemma corrected_inv_k2_zero s :
  u_inv_k2 s = 0 → corrected s = s.
Proof.
  destruct s as [[] [] [] [] [] kz kr inv_k2 [] []].
  cbn [u_inv_k2]. intros ->. unfold corrected, correction_F.
  cbn [u_rho_prev u_rho_next u_Jp u_Jm u_Jz u_kz u_kr u_inv_k2
       u_j_corr_coef u_T].
  f_equal; cx_ring.
Qed.

(** The correction scalar of a corrected cell. *)
Lemma correction_F_corrected s :
  correction_F (corrected s)
  = (RtoC (1 - u_inv_k2 s * (u_kz s * u_kz s + u_kr s * u_kr s))
     * correction_F s)%C.
Proof.
  destruct s as [[] [] [] [] [] kz kr inv_k2 [] []].
  jcell_field.
Qed.

Lemma corrected_idempotent s :
  u_inv_k2 s * (u_kz s * u_kz s + u_kr s * u_kr s) = 1 →
  corrected (corrected s) = corrected s.
Proof.
  intros Hk2.
  assert (correction_F (corrected s) = C0) as HF.
  { rewrite correction_F_corrected, Hk2.
    destruct (correction_F s). cx_ring. }
  unfold corrected at 1. rewrite HF.
  generalize (correction_F s). intros F.
  destruct s as [[] [] [] [] [] kz kr inv_k2 [] []]. destruct F.
  unfold corrected.
  cbn [u_rho_prev u_rho_next u_Jp u_Jm u_Jz u_kz u_kr u_inv_k2
       u_j_corr_coef u_T].
  f_equal; cx_ring.
Qed.

Section CurrentCorrectionTwice.

Variables rho_prev rho_next Jp Jm Jz : c128_2d.
Variables kz kr inv_k2 : f64_2d.
Variables j_corr_coef T : c128_2d.
Variable inv_dt : Qc.
Variables Nz Nr : nat.

Local Abbreviation correct := (cuda_correct_currents
  rho_prev rho_next Jp Jm Jz kz kr inv_k2 j_corr_coef T inv_dt Nz Nr).
Local Abbreviation at_jcell := (jcell_at
  rho_prev rho_next Jp Jm Jz kz kr inv_k2 j_corr_coef T).
Local Abbreviation currents := [Jp; Jm; Jz].
Local Abbreviation densities := [rho_prev; rho_next; j_corr_coef; T].

(** The launch as a map on the values of a cell. *)
Lemma correct_launch_cell gz gr h :
  NoDup currents → Forall (λ a, a ∉ currents) densities →
  Forall (alloc h Nz Nr) (currents ++ densities) →
  Forall (allocf h Nz Nr) [kz; kr; inv_k2] →
  (Nz ≤ gz)%nat → (Nr ≤ gr)%nat →
  ∃ h', launch correct gz gr h = Some h'
    ∧ Forall (alloc h' Nz Nr) (currents ++ densities)
    ∧ Forall (allocf h' Nz Nr) [kz; kr; inv_k2]
    ∧ ∀ iz ir, (iz < Nz)%nat → (ir < Nr)%nat →
        ∃ s, at_jcell h iz ir s ∧ at_jcell h' iz ir (corrected s).
Proof.
  intros Hnd Hden Hc Hf Hgz Hgr.
  destruct (correct_launch rho_prev rho_next Jp Jm Jz kz kr inv_k2
    j_corr_coef T inv_dt Nz Nr gz gr h)
    as (h' & Hrun & Hw & Hf64 & Hv & Hat); [done..|].
  destruct (launch_keeps _ gz gr h h'
    (correct_frame rho_prev rho_next Jp Jm Jz kz kr inv_k2
       j_corr_coef T inv_dt Nz Nr) Hrun) as (Hsh & _).
  exists h'. split_and!; [done| | |].
  - eapply Forall_impl; [exact Hc|].
    intros a Ha. by apply (alloc_shape_of_eq h h' a Nz Nr (Hsh a)).
  - eapply Forall_impl; [exact Hf|].
    intros a Ha. unfold allocf in *. by rewrite Hf64.
  - intros iz ir Hz Hr.
    destruct (Hat iz ir) as (s & Hs & HJp & HJm & HJz); [lia..|].
    exists s. split; [done|].
    repeat apply Forall_cons in Hden as [? Hden].
    destruct Hs as (Hrp & Hrn & _ & _ & _ & Hkz & Hkr & Hik & Hjc & HT).
    unfold jcell_at.
    rewrite !(rdf_f64_eq h h') by done.
    rewrite (rd_lookup_eq h h' rho_prev), (rd_lookup_eq h h' rho_next),
      (rd_lookup_eq h h' j_corr_coef), (rd_lookup_eq h h' T)
      by (by apply Hw).
    done.
Qed.

(** X12.  At a cell where [inv_k2] is zero (as the regularised inverse is
    at [k = 0]) the correction leaves the three currents as they were. *)
Theorem correct_currents_inv_k2_zero gz gr h :
  NoDup currents →
  Forall (alloc h Nz Nr) (currents ++ densities) →
  Forall (allocf h Nz Nr) [kz; kr; inv_k2] →
  (Nz ≤ gz)%nat → (Nr ≤ gr)%nat →
  ∃ h', launch correct gz gr h = Some h'
    ∧ ∀ iz ir, (iz < Nz)%nat → (ir < Nr)%nat →
        rdf inv_k2 iz ir h = Some C0 →
        rd Jp iz ir h' = rd Jp iz ir h
        ∧ rd Jm iz ir h' = rd Jm iz ir h
        ∧ rd Jz iz ir h' = rd Jz iz ir h.
Proof.
  intros Hnd Hc Hf Hgz Hgr.
  destruct (correct_launch rho_prev rho_next Jp Jm Jz kz kr inv_k2
    j_corr_coef T inv_dt Nz Nr gz gr h)
    as (h' & Hrun & Hw & Hf64 & Hv & Hat); [done..|].
  exists h'. split; [done|]. intros iz ir Hz Hr H0.
  destruct (Hat iz ir) as (s & Hs & HJp & HJm & HJz); [lia..|].
  destruct Hs as (_ & _ & Hp & Hm & Hzz & _ & _ & Hik & _).
  rewrite Hik in H0. injection H0 as H0.
  rewrite (corrected_inv_k2_zero s) in HJp, HJm, HJz by done.
  by rewrite HJp, HJm, HJz, Hp, Hm, Hzz.
Qed.

(** X13.  The correction is idempotent where it is exact: a second launch
    leaves the currents of the first at every cell where [inv_k2] is zero
    or [inv_k2 * (kz^2 + kr^2) = 1]. *)
Theorem correct_currents_twice gz gr h :
  NoDup currents → Forall (λ a, a ∉ currents) densities →
  Forall (alloc h Nz Nr) (currents ++ densities) →
  Forall (allocf h Nz Nr) [kz; kr; inv_k2] →
  (Nz ≤ gz)%nat → (Nr ≤ gr)%nat →
  ∃ h1 h2, launch correct gz gr h = Some h1
    ∧ launch correct gz gr h1 = Some h2
    ∧ ∀ iz ir x y z, (iz < Nz)%nat → (ir < Nr)%nat →
        rdf inv_k2 iz ir h = Some (RtoC x) →
        rdf kz iz ir h = Some (RtoC y) →
        rdf kr iz ir h = Some (RtoC z) →
        x = 0 ∨ x * (y * y + z * z) = 1 →
        rd Jp iz ir h2 = rd Jp iz ir h1
        ∧ rd Jm iz ir h2 = rd Jm iz ir h1
        ∧ rd Jz iz ir h2 = rd Jz iz ir h1.
Proof.
  intros Hnd Hden Hc Hf Hgz Hgr.
  destruct (correct_launch_cell gz gr h)
    as (h1 & Hrun1 & Hc1 & Hf1 & Hat1); [done..|].
  destruct (correct_launch_cell gz gr h1)
    as (h2 & Hrun2 & _ & _ & Hat2); [done..|].
  exists h1, h2. split_and!; [done..|].
  intros iz ir x y z Hz Hr Hx Hy Hzz Hcond.
  destruct (Hat1 iz ir Hz Hr) as (s & Hs & Hs1).
  destruct (Hat2 iz ir Hz Hr) as (s1 & Hs1' & Hs2).
  assert (u_inv_k2 s = x ∧ u_kz s = y ∧ u_kr s = z) as (Hsx & Hsy & Hsz).
  { destruct Hs as (_ & _ & _ & _ & _ & Hkz & Hkr & Hik & _).
    rewrite Hik in Hx. rewrite Hkz in Hy. rewrite Hkr in Hzz.
    injection Hx as Hx. injection Hy as Hy. injection Hzz as Hzz. done. }
  assert (corrected s1 = corrected s) as Hfix.
  { assert (s1 = corrected s) as ->.
    { destruct Hs1 as (?&?&?&?&?&?&?&?&?&?).
      destruct Hs1' as (?&?&?&?&?&?&?&?&?&?).
      destruct s1, (corrected s); cbn [u_rho_prev u_rho_next u_Jp u_Jm u_Jz
        u_kz u_kr u_inv_k2 u_j_corr_coef u_T] in *.
      f_equal; first [congruence | apply RtoC_inj; congruence]. }
    destruct Hcond as [H0|H1].
    - rewrite (corrected_inv_k2_zero s) by congruence.
      apply corrected_inv_k2_zero. congruence.
    - apply corrected_idempotent. by rewrite Hsx, Hsy, Hsz. }
  destruct Hs1 as (_ & _ & Hp & Hm & HJz & _).
  destruct Hs2 as (_ & _ & Hp2 & Hm2 & HJz2 & _).
  by rewrite Hp2, Hm2, HJz2, Hfix, Hp, Hm, HJz.
Qed.

End CurrentCorrectionTwice.

(** ** More on the field push *)

Ltac cellv_field :=
  unfold push_cell, with_fields, divB,
    Ep_push, Em_push, Ez_push, Bp_push, Bm_push, Bz_push,
    Ep_vacuum, Em_vacuum, Ez_vacuum, Bp_vacuum, Bm_vacuum, Bz_vacuum,
    rho_diff_of, rho_diff_true, rho_diff_div, divE, divJ;
  cbn [v_Ep v_Em v_Ez v_Bp v_Bm v_Bz v_Jp v_Jm v_Jz v_rho_prev v_rho_next
       v_rho_prev_coef v_rho_next_coef v_j_coef v_C v_S_w v_T v_T_rho
       v_kr v_kz];
  apply complex_eq;
  cbn [Re Im Cadd Csub Cmul Copp RtoC Ci C0 C1];
  rewrite half_inv; field; apply two_neq_0.

(** The push multiplies the divergence of B by [T*C], with or without
    sources. *)
Lemma divB_push_cell c epsilon_0 mu_0 dt V s fb utr :
  divB (push_cell c epsilon_0 mu_0 dt V s fb utr)
  = (v_T s * v_C s * divB s)%C.
Proof.
  destruct s as [[] [] [] [] [] [] [] [] [] [] [] [] [] [] ? ? [] [] ? ?].
  destruct fb; [destruct utr|]; cellv_field.
Qed.

(** Without sources it does the same to the divergence of E. *)
Lemma divE_push_cell_vacuum c epsilon_0 mu_0 dt V s utr :
  divE (push_cell c epsilon_0 mu_0 dt V s false utr)
  = (v_T s * v_C s * divE s)%C.
Proof.
  destruct s as [[] [] [] [] [] [] [] [] [] [] [] [] [] [] ? ? [] [] ? ?].
  cellv_field.
Qed.

(** With sources, the divergence of E receives [rho_diff] and the
    divergence of J. *)
Lemma divE_push_cell_feedback c epsilon_0 mu_0 dt V s utr :
  divE (push_cell c epsilon_0 mu_0 dt V s true utr)
  = (v_T s * v_C s * divE s
     + (v_kr s * v_kr s + v_kz s * v_kz s) * rho_diff_of epsilon_0 dt s utr
     + (v_j_coef s * Ci * v_kz s * V
        - c2 c * v_T s * v_S_w s * mu_0) * divJ s)%C.
Proof.
  destruct s as [[] [] [] [] [] [] [] [] [] [] [] [] [] [] ? ? [] [] ? ?].
  destruct utr; cellv_field.
Qed.

Section FieldPushMore.

Variables c epsilon_0 mu_0 : Qc.
Variables Ep Em Ez Bp Bm Bz Jp Jm Jz rho_prev rho_next : c128_2d.
Variables rho_prev_coef rho_next_coef j_coef : c128_2d.
Variables (C S_w : f64_2d) (T T_rho : c128_2d) (kr kz : f64_2d).
Variables dt V : Qc.
Variables Nz Nr : nat.

Local Abbreviation push := (cuda_push_eb_with c epsilon_0 mu_0
  Ep Em Ez Bp Bm Bz Jp Jm Jz rho_prev rho_next
  rho_prev_coef rho_next_coef j_coef C S_w T T_rho kr kz dt V).
Local Abbreviation at_cell := (cell_at
  Ep Em Ez Bp Bm Bz Jp Jm Jz rho_prev rho_next
  rho_prev_coef rho_next_coef j_coef C S_w T T_rho kr kz).
Local Abbreviation fields := [Ep; Em; Ez; Bp; Bm; Bz].
Local Abbreviation sources :=
  [Jp; Jm; Jz; rho_prev; rho_next; rho_prev_coef; rho_next_coef; j_coef;
   T; T_rho].

(** The launch as a map on the values of the cells. *)
Lemma push_launch_cells fb utr gz gr h :
  NoDup fields → Forall (λ a, a ∉ fields) sources →
  Forall (alloc h Nz Nr) (fields ++ sources) →
  Forall (allocf h Nz Nr) [C; S_w; kr; kz] →
  (Nz ≤ gz)%nat → (Nr ≤ gr)%nat →
  ∃ h', launch (push fb utr Nz Nr) gz gr h = Some h'
    ∧ ∀ iz ir, (iz < Nz)%nat → (ir < Nr)%nat →
        ∃ s, at_cell h iz ir s
          ∧ at_cell h' iz ir (push_cell c epsilon_0 mu_0 dt V s fb utr).
Proof.
  intros Hnd Hsrc Hc Hf Hgz Hgr.
  destruct (push_launch c epsilon_0 mu_0 Ep Em Ez Bp Bm Bz Jp Jm Jz
    rho_prev rho_next rho_prev_coef rho_next_coef j_coef C S_w T T_rho
    kr kz dt V Nz Nr fb utr gz gr h) as (h' & Hrun & Hat); [done..|].
  exists h'. split; [done|]. intros iz ir Hz Hr.
  apply Hat; lia.
Qed.

(** X14.  With particle feedback and [use_true_rho] false, [rho_diff] is
    [(T*rho_next_coef - rho_prev_coef)*epsilon_0*divE
     + T_rho*rho_next_coef*dt*divJ] with
    [divE = kr*(Ep - Em) + i*kz*Ez] and [divJ = kr*(Jp - Jm) + i*kz*Jz];
    the new [Ep], [Em] and [Ez] are the formulas of the push with this
    [rho_diff], all of it evaluated on the values [s] that the cell held
    before the launch. *)
Theorem push_eb_div_rho_E_formulas gz gr h :
  NoDup fields → Forall (λ a, a ∉ fields) sources →
  Forall (alloc h Nz Nr) (fields ++ sources) →
  Forall (allocf h Nz Nr) [C; S_w; kr; kz] →
  (Nz ≤ gz)%nat → (Nr ≤ gr)%nat →
  ∃ h', launch (push true false Nz Nr) gz gr h = Some h'
    ∧ ∀ iz ir, (iz < Nz)%nat → (ir < Nr)%nat →
        ∃ s, at_cell h iz ir s
          ∧ let div_E :=
              (v_kr s * (v_Ep s - v_Em s) + Ci * v_kz s * v_Ez s)%C in
            let div_J :=
              (v_kr s * (v_Jp s - v_Jm s) + Ci * v_kz s * v_Jz s)%C in
            let rho_diff :=
              ((v_T s * v_rho_next_coef s - v_rho_prev_coef s)
                 * epsilon_0 * div_E
               + v_T_rho s * v_rho_next_coef s * dt * div_J)%C in
            rd Ep iz ir h' = Some (Ep_push c mu_0 V s rho_diff)
            ∧ rd Em iz ir h' = Some (Em_push c mu_0 V s rho_diff)
            ∧ rd Ez iz ir h' = Some (Ez_push c mu_0 V s rho_diff).
Proof.
  intros Hnd Hsrc Hc Hf Hgz Hgr.
  destruct (push_launch_cells true false gz gr h)
    as (h' & Hrun & Hat); [done..|].
  exists h'. split; [done|]. intros iz ir Hz Hr.
  destruct (Hat iz ir Hz Hr) as (s & Hs & Hs').
  exists s. split; [done|].
  destruct Hs' as (HEp & HEm & HEz & _). done.
Qed.

(** X15.  Without particle feedback the new electric field is
    [T*C*E + c2*T*S_w*curl(B)], component by component, from the values
    [s] of the cell before the launch, whatever [use_true_rho] is and
    whatever the currents and charge densities hold. *)
Theorem push_eb_no_feedback_E_formulas utr gz gr h :
  NoDup fields → Forall (λ a, a ∉ fields) sources →
  Forall (alloc h Nz Nr) (fields ++ sources) →
  Forall (allocf h Nz Nr) [C; S_w; kr; kz] →
  (Nz ≤ gz)%nat → (Nr ≤ gr)%nat →
  ∃ h', launch (push false utr Nz Nr) gz gr h = Some h'
    ∧ ∀ iz ir, (iz < Nz)%nat → (ir < Nr)%nat →
        ∃ s, at_cell h iz ir s
          ∧ rd Ep iz ir h'
            = Some (v_T s * v_C s * v_Ep s
                    + c2 c * v_T s * v_S_w s
                      * (- Ci * half * v_kr s * v_Bz s + v_kz s * v_Bp s))%C
          ∧ rd Em iz ir h'
            = Some (v_T s * v_C s * v_Em s
                    + c2 c * v_T s * v_S_w s
                      * (- Ci * half * v_kr s * v_Bz s - v_kz s * v_Bm s))%C
          ∧ rd Ez iz ir h'
            = Some (v_T s * v_C s * v_Ez s
                    + c2 c * v_T s * v_S_w s
                      * (Ci * v_kr s * v_Bp s + Ci * v_kr s * v_Bm s))%C.
Proof.
  intros Hnd Hsrc Hc Hf Hgz Hgr.
  destruct (push_launch_cells false utr gz gr h)
    as (h' & Hrun & Hat); [done..|].
  exists h'. split; [done|]. intros iz ir Hz Hr.
  destruct (Hat iz ir Hz Hr) as (s & Hs & Hs').
  exists s. split; [done|].
  destruct Hs' as (HEp & HEm & HEz & _). done.
Qed.

(** X16.  For every setting of the two flags the push multiplies the
    divergence of B, [kr*(Bp - Bm) + i*kz*Bz], by [T*C] at every cell: the
    currents do not contribute to it, and a divergence that is zero stays
    zero. *)
Theorem push_eb_divB fb utr gz gr h :
  NoDup fields → Forall (λ a, a ∉ fields) sources →
  Forall (alloc h Nz Nr) (fields ++ sources) →
  Forall (allocf h Nz Nr) [C; S_w; kr; kz] →
  (Nz ≤ gz)%nat → (Nr ≤ gr)%nat →
  ∃ h', launch (push fb utr Nz Nr) gz gr h = Some h'
    ∧ ∀ iz ir, (iz < Nz)%nat → (ir < Nr)%nat →
        ∃ s s', at_cell h iz ir s ∧ at_cell h' iz ir s'
          ∧ divB s' = (v_T s * v_C s * divB s)%C
          ∧ (divB s = C0 → divB s' = C0).
Proof.
  intros Hnd Hsrc Hc Hf Hgz Hgr.
  destruct (push_launch_cells fb utr gz gr h)
    as (h' & Hrun & Hat); [done..|].
  exists h'. split; [done|]. intros iz ir Hz Hr.
  destruct (Hat iz ir Hz Hr) as (s & Hs & Hs').
  eexists s, _. split_and!; [done|exact Hs'|apply divB_push_cell|].
  rewrite divB_push_cell. intros ->. destruct (v_T s). cx_ring.
Qed.

(** X17.  Without particle feedback the push multiplies the divergence of
    E, [kr*(Ep - Em) + i*kz*Ez], by [T*C] at every cell. *)
Theorem push_eb_no_feedback_divE utr gz gr h :
  NoDup fields → Forall (λ a, a ∉ fields) sources →
  Forall (alloc h Nz Nr) (fields ++ sources) →
  Forall (allocf h Nz Nr) [C; S_w; kr; kz] →
  (Nz ≤ gz)%nat → (Nr ≤ gr)%nat →
  ∃ h', launch (push false utr Nz Nr) gz gr h = Some h'
    ∧ ∀ iz ir, (iz < Nz)%nat → (ir < Nr)%nat →
        ∃ s s', at_cell h iz ir s ∧ at_cell h' iz ir s'
          ∧ divE s' = (v_T s * v_C s * divE s)%C.
Proof.
  intros Hnd Hsrc Hc Hf Hgz Hgr.
  destruct (push_launch_cells false utr gz gr h)
    as (h' & Hrun & Hat); [done..|].
  exists h'. split; [done|]. intros iz ir Hz Hr.
  destruct (Hat iz ir Hz Hr) as (s & Hs & Hs').
  eexists s, _. split_and!; [done|exact Hs'|apply divE_push_cell_vacuum].
Qed.

(** X18.  With particle feedback the divergence of E after the push is
    [T*C*divE + (kr^2 + kz^2)*rho_diff
     + (j_coef*i*kz*V - c2*T*S_w*mu_0)*divJ],
    with [rho_diff] as the flag [use_true_rho] selects it: the magnetic
    field does not contribute to it. *)
Theorem push_eb_feedback_divE utr gz gr h :
  NoDup fields → Forall (λ a, a ∉ fields) sources →
  Forall (alloc h Nz Nr) (fields ++ sources) →
  Forall (allocf h Nz Nr) [C; S_w; kr; kz] →
  (Nz ≤ gz)%nat → (Nr ≤ gr)%nat →
  ∃ h', launch (push true utr Nz Nr) gz gr h = Some h'
    ∧ ∀ iz ir, (iz < Nz)%nat → (ir < Nr)%nat →
        ∃ s s', at_cell h iz ir s ∧ at_cell h' iz ir s'
          ∧ divE s'
            = (v_T s * v_C s * divE s
               + (v_kr s * v_kr s + v_kz s * v_kz s)
                 * rho_diff_of epsilon_0 dt s utr
               + (v_j_coef s * Ci * v_kz s * V
                  - c2 c * v_T s * v_S_w s * mu_0) * divJ s)%C.
Proof.
  intros Hnd Hsrc Hc Hf Hgz Hgr.
  destruct (push_launch_cells true utr gz gr h)
    as (h' & Hrun & Hat); [done..|].
  exists h'. split; [done|]. intros iz ir Hz Hr.
  destruct (Hat iz ir Hz Hr) as (s & Hs & Hs').
  eexists s, _. split_and!; [done|exact Hs'|apply divE_push_cell_feedback].
Qed.

End FieldPushMore.

(** ** More on the spectral filter *)

(** A kernel whose thread does the work of the thread of [k1] and then
    that of the thread of [k2] does in one launch what the launch of [k1]
    followed by the launch of [k2] does. *)
Lemma run_threads_fusion k1 k2 ts h :
  (∀ iz ir, s_local iz ir (k1 iz ir)) → (∀ iz ir, s_frame iz ir (k1 iz ir)) →
  (∀ iz ir, s_local iz ir (k2 iz ir)) → (∀ iz ir, s_frame iz ir (k2 iz ir)) →
  NoDup ts →
  run_threads (λ iz ir, then_ (k1 iz ir) (k2 iz ir)) ts h
  = run_threads k1 ts h ≫= run_threads k2 ts.
Proof.
  intros Hl1 Hf1 Hl2 Hf2 Hnd.
  set (k := λ iz ir, then_ (k1 iz ir) (k2 iz ir)).
  assert (∀ iz ir, s_local iz ir (k iz ir)) as Hl
    by (intros; by apply s_local_then).
  assert (∀ iz ir, s_frame iz ir (k iz ir)) as Hf
    by (intros; by apply s_frame_then).
  (* the thread of [k2] sees, after the launch of [k1], the cell that the
     thread of [k1] has left *)
  assert (∀ h1 iz ir hb, run_threads k1 ts h = Some h1 → (iz, ir) ∈ ts →
    k1 iz ir h = Some hb →
    option_Forall2 (cell_eq iz ir) (k2 iz ir hb) (k2 iz ir h1)) as Hsee.
  { intros h1 iz ir hb H1 Hin Hb.
    destruct (run_threads_at k1 Hl1 Hf1 ts h h1 iz ir Hnd H1 Hin)
      as (hb' & Hb' & Heq).
    rewrite Hb in Hb'. injection Hb' as <-. by apply Hl2. }
  destruct (run_threads k ts h) as [h'|] eqn:H;
    (destruct (run_threads k1 ts h) as [h1|] eqn:H1;
      cbn [mbind option_bind];
      [destruct (run_threads k2 ts h1) as [h2|] eqn:H2|]); try done.
  - f_equal. apply heap_ext. intros iz ir.
    destruct (decide ((iz, ir) ∈ ts)) as [Hin|Hout].
    + destruct (run_threads_at k Hl Hf ts h h' iz ir Hnd H Hin)
        as (ha & Ha & Heqa).
      destruct (run_threads_at k2 Hl2 Hf2 ts h1 h2 iz ir Hnd H2 Hin)
        as (hc & Hc & Heqc).
      unfold k, then_ in Ha.
      destruct (k1 iz ir h) as [hb|] eqn:Hb; [|done].
      cbn [mbind option_bind] in Ha.
      pose proof (Hsee h1 iz ir hb eq_refl Hin Hb) as Hab.
      rewrite Ha, Hc in Hab. inversion Hab as [? ? Heq|]; subst.
      rewrite <- Heqa, <- Heqc. done.
    + rewrite <- (run_threads_frame k Hf ts h h' iz ir H Hout).
      rewrite (run_threads_frame k1 Hf1 ts h h1 iz ir H1 Hout).
      by apply (run_threads_frame k2 Hf2 ts h1 h2 iz ir H2 Hout).
  - destruct (run_threads_is_Some k2 Hl2 Hf2 ts h1 Hnd) as [h2 Hh2];
      [|congruence].
    intros iz ir Hin.
    destruct (run_threads_all_ok k ts h h' iz ir Hl Hf Hnd H Hin) as [ha Ha].
    unfold k, then_ in Ha.
    destruct (k1 iz ir h) as [hb|] eqn:Hb; [|done].
    cbn [mbind option_bind] in Ha.
    pose proof (Hsee h1 iz ir hb eq_refl Hin Hb) as Hab.
    rewrite Ha in Hab. inversion Hab. by eexists.
  - destruct (run_threads_is_Some k1 Hl1 Hf1 ts h Hnd) as [h1 Hh1];
      [|congruence].
    intros iz ir Hin.
    destruct (run_threads_all_ok k ts h h' iz ir Hl Hf Hnd H Hin) as [ha Ha].
    unfold k, then_ in Ha.
    destruct (k1 iz ir h) as [hb|] eqn:Hb; [by eexists|done].
  - destruct (run_threads_is_Some k Hl Hf ts h Hnd) as [h' Hh'];
      [|congruence].
    intros iz ir Hin.
    destruct (run_threads_all_ok k1 ts h h1 iz ir Hl1 Hf1 Hnd H1 Hin)
      as [hb Hb].
    destruct (run_threads_all_ok k2 ts h1 h2 iz ir Hl2 Hf2 Hnd H2 Hin)
      as [hc Hc].
    pose proof (Hsee h1 iz ir hb eq_refl Hin Hb) as Hab.
    rewrite Hc in Hab. inversion Hab as [hd ? Heq Hd|]; subst.
    unfold k, then_. rewrite Hb. cbn [mbind option_bind]. by eexists.
Qed.

Lemma run_threads_ext k k' ts h :
  (∀ iz ir h, k iz ir h = k' iz ir h) →
  run_threads k ts h = run_threads k' ts h.
Proof.
  intros Hext. revert h. induction ts as [|[iz ir] ts IH]; intros h; [done|].
  simpl. rewrite Hext. destruct (k' iz ir h); [apply IH|done].
Qed.

Lemma launch_fusion k k1 k2 gz gr h :
  (∀ iz ir, s_local iz ir (k1 iz ir)) → (∀ iz ir, s_frame iz ir (k1 iz ir)) →
  (∀ iz ir, s_local iz ir (k2 iz ir)) → (∀ iz ir, s_frame iz ir (k2 iz ir)) →
  (∀ iz ir h, k iz ir h = then_ (k1 iz ir) (k2 iz ir) h) →
  launch k gz gr h = launch k1 gz gr h ≫= launch k2 gz gr.
Proof.
  intros Hl1 Hf1 Hl2 Hf2 Hk. unfold launch.
  rewrite (run_threads_ext k (λ iz ir, then_ (k1 iz ir) (k2 iz ir))) by done.
  apply run_threads_fusion; [done..|apply NoDup_threads].
Qed.

Lemma store_store a iz ir u v h :
  store a iz ir v (store a iz ir u h) = store a iz ir v h.
Proof.
  apply heap_ext. intros i j. split; [| |done..].
  - intros a'. rewrite !rd_store.
    repeat case_decide; try done; [by destruct (rd a iz ir h)|naive_solver..].
  - intros a'. by rewrite !shape_of_store.
Qed.

Lemma filter_scalar_writes field w Nz Nr iz ir :
  s_writes [field] (cuda_filter_scalar field w Nz Nr iz ir).
Proof. kernel_body; auto 20 with kernel. Qed.

Lemma filter_vector_writes fieldr fieldt fieldz w Nz Nr iz ir :
  s_writes [fieldr; fieldt; fieldz]
    (cuda_filter_vector fieldr fieldt fieldz w Nz Nr iz ir).
Proof. kernel_body; auto 20 with kernel. Qed.

(** Two scalar filters of one thread, in either order. *)
Lemma filter_scalar_thread_commute field w1 w2 Nz Nr iz ir h :
  then_ (cuda_filter_scalar field w1 Nz Nr iz ir)
        (cuda_filter_scalar field w2 Nz Nr iz ir) h
  = then_ (cuda_filter_scalar field w2 Nz Nr iz ir)
          (cuda_filter_scalar field w1 Nz Nr iz ir) h.
Proof.
  unfold cuda_filter_scalar. destruct (in_grid iz ir Nz Nr); [|done].
  unfold assign, operand, operand_expr, operand_c128, operand_f64.
  unfold then_, wr, e_mul.
  assert (∀ w v, rdf w iz ir (store field iz ir v h) = rdf w iz ir h)
    as Hrdf by done.
  destruct (rd field iz ir h) as [x|] eqn:Hx.
  - destruct (rdf w1 iz ir h) as [y1|] eqn:H1,
             (rdf w2 iz ir h) as [y2|] eqn:H2;
      cbn [mbind option_bind];
      rewrite ?Hrdf, ?H1, ?H2, ?rd_store_same by (by eexists);
      cbn [mbind option_bind]; rewrite ?Hx; cbn [mbind option_bind];
      rewrite ?rd_store_same by (by eexists);
      cbn [mbind option_bind]; try done.
    rewrite !store_store. do 2 f_equal. destruct x, y1, y2. cx_ring.
  - destruct (rdf w1 iz ir h), (rdf w2 iz ir h); done.
Qed.

(** X19.  A launch of [cuda_filter_scalar] that covers the [Nz] by [Nr]
    cells multiplies every cell of [field] by the weight that
    [filter_array] holds for the cell; the other complex arrays and all
    real arrays, the weights among them, are unchanged. *)
Theorem filter_scalar_scales field filter_array Nz Nr gz gr h :
  alloc h Nz Nr field → allocf h Nz Nr filter_array →
  (Nz ≤ gz)%nat → (Nr ≤ gr)%nat →
  ∃ h', launch (cuda_filter_scalar field filter_array Nz Nr) gz gr h = Some h'
    ∧ (∀ a, a ≠ field → c128 h' !! a = c128 h !! a)
    ∧ f64 h' = f64 h ∧ f64v h' = f64v h
    ∧ ∀ iz ir, (iz < Nz)%nat → (ir < Nr)%nat →
        ∃ x y, rd field iz ir h = Some x
          ∧ rdf filter_array iz ir h = Some (RtoC y)
          ∧ rd field iz ir h' = Some (RtoC y * x)%C.
Proof.
  intros Hc Hw Hgz Hgr.
  destruct (filter_scalar_launch field filter_array Nz Nr gz gr h)
    as (h' & Hrun & _ & _ & Hat); [done..|].
  destruct (run_threads_writes [field]
    (cuda_filter_scalar field filter_array Nz Nr) (threads gz gr)
    (filter_scalar_writes field filter_array Nz Nr) h h' Hrun)
    as (Hwr & Hf64 & Hv).
  exists h'. split_and!; [done| |done..|].
  - intros a Ha. apply Hwr. by intros [->|[]%elem_of_nil]%elem_of_cons.
  - intros iz ir Hz Hr. destruct (Hat iz ir Hz Hr) as (x & y & [??] & ?).
    by exists x, y.
Qed.

(** X20.  A launch of [cuda_filter_vector] that covers the [Nz] by [Nr]
    cells multiplies every cell of the three components, when they are
    three different arrays, by the weight of the cell; the other complex
    arrays and all real arrays are unchanged. *)
Theorem filter_vector_scales fieldr fieldt fieldz filter_array Nz Nr gz gr h :
  NoDup [fieldr; fieldt; fieldz] →
  Forall (alloc h Nz Nr) [fieldr; fieldt; fieldz] →
  allocf h Nz Nr filter_array →
  (Nz ≤ gz)%nat → (Nr ≤ gr)%nat →
  ∃ h', launch (cuda_filter_vector fieldr fieldt fieldz filter_array Nz Nr)
          gz gr h = Some h'
    ∧ (∀ a, a ∉ [fieldr; fieldt; fieldz] → c128 h' !! a = c128 h !! a)
    ∧ f64 h' = f64 h ∧ f64v h' = f64v h
    ∧ ∀ iz ir, (iz < Nz)%nat → (ir < Nr)%nat →
        ∃ xr xt xz y,
          rd fieldr iz ir h = Some xr ∧ rd fieldt iz ir h = Some xt
          ∧ rd fieldz iz ir h = Some xz
          ∧ rdf filter_array iz ir h = Some (RtoC y)
          ∧ rd fieldr iz ir h' = Some (RtoC y * xr)%C
          ∧ rd fieldt iz ir h' = Some (RtoC y * xt)%C
          ∧ rd fieldz iz ir h' = Some (RtoC y * xz)%C.
Proof.
  intros Hnd Hc Hw Hgz Hgr.
  destruct (filter_vector_launch fieldr fieldt fieldz Nz Nr filter_array
    gz gr h) as (h' & Hrun & _ & _ & Hat); [done..|].
  destruct (run_threads_writes [fieldr; fieldt; fieldz]
    (cuda_filter_vector fieldr fieldt fieldz filter_array Nz Nr)
    (threads gz gr)
    (filter_vector_writes fieldr fieldt fieldz filter_array Nz Nr)
    h h' Hrun) as (Hwr & Hf64 & Hv).
  exists h'. split_and!; [done..|].
  intros iz ir Hz Hr.
  destruct (Hat iz ir Hz Hr) as (xr & xt & xz & y & (?&?&?&?) & ? & ? & ?).
  by exists xr, xt, xz, y.
Qed.

(** X21.  Two scalar filters commute: launching the filter of [field]
    with the weights [w1] and then with the weights [w2] gives the memory
    that the two launches give in the other order, and fails when they
    fail. *)
Theorem filter_scalar_commute field w1 w2 Nz Nr gz gr h :
  launch (cuda_filter_scalar field w1 Nz Nr) gz gr h
    ≫= launch (cuda_filter_scalar field w2 Nz Nr) gz gr
  = launch (cuda_filter_scalar field w2 Nz Nr) gz gr h
      ≫= launch (cuda_filter_scalar field w1 Nz Nr) gz gr.
Proof.
  rewrite <- (launch_fusion (λ iz ir,
      then_ (cuda_filter_scalar field w1 Nz Nr iz ir)
            (cuda_filter_scalar field w2 Nz Nr iz ir))
    (cuda_filter_scalar field w1 Nz Nr) (cuda_filter_scalar field w2 Nz Nr));
    [|first [done | intros; apply filter_scalar_local
            | intros; apply filter_scalar_frame]..].
  rewrite <- (launch_fusion (λ iz ir,
      then_ (cuda_filter_scalar field w2 Nz Nr iz ir)
            (cuda_filter_scalar field w1 Nz Nr iz ir))
    (cuda_filter_scalar field w2 Nz Nr) (cuda_filter_scalar field w1 Nz Nr));
    [|first [done | intros; apply filter_scalar_local
            | intros; apply filter_scalar_frame]..].
  apply run_threads_ext. intros. apply filter_scalar_thread_commute.
Qed.

(** X22.  One launch of [cuda_filter_vector] does what three launches of
    [cuda_filter_scalar] do, one for each component in the order r, t, z,
    whether or not components are the same array, and fails when they
    fail. *)
Theorem filter_vector_is_three_scalar_filters
    fieldr fieldt fieldz filter_array Nz Nr gz gr h :
  launch (cuda_filter_vector fieldr fieldt fieldz filter_array Nz Nr) gz gr h
  = h1 ← launch (cuda_filter_scalar fieldr filter_array Nz Nr) gz gr h;
    h2 ← launch (cuda_filter_scalar fieldt filter_array Nz Nr) gz gr h1;
    launch (cuda_filter_scalar fieldz filter_array Nz Nr) gz gr h2.
Proof.
  rewrite (launch_fusion
    (cuda_filter_vector fieldr fieldt fieldz filter_array Nz Nr)
    (cuda_filter_scalar fieldr filter_array Nz Nr)
    (λ iz ir, then_ (cuda_filter_scalar fieldt filter_array Nz Nr iz ir)
                    (cuda_filter_scalar fieldz filter_array Nz Nr iz ir))).
  - destruct (launch (cuda_filter_scalar fieldr filter_array Nz Nr) gz gr h)
      as [h1|]; [|done].
    cbn [mbind option_bind].
    apply launch_fusion; try done;
      first [intros; apply filter_scalar_local
            |intros; apply filter_scalar_frame].
  - intros. apply filter_scalar_local.
  - intros. apply filter_scalar_frame.
  - intros. apply s_local_then; apply filter_scalar_local.
  - intros. apply s_frame_then; apply filter_scalar_frame.
  - intros iz ir h0. unfold cuda_filter_vector, cuda_filter_scalar.
    by destruct (in_grid iz ir Nz Nr).
Qed.

(** ** The further properties on the example memories *)

(** One thread of [cuda_erase_scalar] on the example memory. *)
Lemma kernel_thread_touches_own_cell_witness :
  let h' := store g_Jp 2 1 C0 (store g_Jz 2 1 C0 example_heap) in
  (∀ a i j, (i, j) ≠ (2, 1)%nat → rd a i j h' = rd a i j example_heap)
  ∧ (∀ a, shape_of h' a = shape_of example_heap a)
  ∧ f64 h' = f64 example_heap ∧ f64v h' = f64v example_heap.
Proof.
  apply (kernel_thread_touches_own_cell (cuda_erase_scalar g_Jz g_Jp) 2 1
    example_heap (store g_Jp 2 1 C0 (store g_Jz 2 1 C0 example_heap))).
  - constructor.
  - vm_compute. reflexivity.
Defined.

(** Two threads of [cuda_erase_scalar] in their two orders. *)
Lemma kernel_threads_commute_witness :
  run_threads (cuda_erase_scalar g_Jz g_Jp) [(0, 0); (2, 1)]%nat example_heap
  = run_threads (cuda_erase_scalar g_Jz g_Jp) [(2, 1); (0, 0)]%nat
      example_heap.
Proof.
  apply (kernel_threads_commute (cuda_erase_scalar g_Jz g_Jp)
    [(0, 0); (2, 1)]%nat [(2, 1); (0, 0)]%nat example_heap).
  - constructor.
  - by apply (bool_decide_unpack _).
  - apply perm_swap.
Defined.

(** The history shift over a grid of 8 by 8 threads. *)
Lemma kernel_padded_grid_witness :
  launch (cuda_push_rho g_rho_prev g_rho_next 4 4) 8 8 example_heap
  = launch (cuda_push_rho g_rho_prev g_rho_next 4 4) 4 4 example_heap.
Proof.
  apply (kernel_padded_grid (cuda_push_rho g_rho_prev g_rho_next 4 4)
    4 4 8 8 example_heap).
  - constructor.
  - intros iz ir Hout. unfold cuda_push_rho. by rewrite in_grid_false.
  - lia.
  - lia.
Defined.

(** Erasing two currents of the example memory. *)
Lemma erase_scalar_zeroes_witness :
  ∃ h', launch (cuda_erase_scalar g_Jz g_Jp) 4 4 example_heap = Some h'
    ∧ (∀ iz ir, (iz < 4)%nat → (ir < 4)%nat →
         rd g_Jz iz ir h' = Some C0 ∧ rd g_Jp iz ir h' = Some C0)
    ∧ (∀ a, a ∉ [g_Jz; g_Jp] → c128 h' !! a = c128 example_heap !! a)
    ∧ f64 h' = f64 example_heap ∧ f64v h' = f64v example_heap.
Proof.
  apply (erase_scalar_zeroes g_Jz g_Jp 4 4 4 4 example_heap).
  - solve_alloc.
  - solve_alloc.
  - lia.
  - lia.
Defined.

(** Erasing six arrays of the example memory. *)
Lemma erase_vector_zeroes_witness :
  ∃ h', launch (cuda_erase_vector g_Jp g_T g_Jm g_T_rho g_Jz g_j_coef) 4 4
          example_heap = Some h'
    ∧ (∀ iz ir, (iz < 4)%nat → (ir < 4)%nat →
         Forall (λ a, rd a iz ir h' = Some C0)
           [g_Jp; g_T; g_Jm; g_T_rho; g_Jz; g_j_coef])
    ∧ (∀ a, a ∉ [g_Jp; g_T; g_Jm; g_T_rho; g_Jz; g_j_coef] →
         c128 h' !! a = c128 example_heap !! a)
    ∧ f64 h' = f64 example_heap ∧ f64v h' = f64v example_heap.
Proof.
  apply (erase_vector_zeroes g_Jp g_T g_Jm g_T_rho g_Jz g_j_coef 4 4 4 4
    example_heap).
  - solve_alloc.
  - lia.
  - lia.
Defined.

(** Dividing two arrays by the volumes of the example memory. *)
Lemma divide_scalar_by_volume_scales_witness :
  ∃ h', launch (cuda_divide_scalar_by_volume g_Jz g_T g_invvol0 g_invvol1)
          4 4 example_heap_vol = Some h'
    ∧ (∀ iz ir, (iz < 4)%nat → (ir < 4)%nat →
         ∃ x0 x1 (v0 v1 : Qc),
           (rd g_Jz iz ir example_heap_vol = Some x0
            ∧ rd g_T iz ir example_heap_vol = Some x1
            ∧ rdv g_invvol0 ir example_heap_vol = Some (RtoC v0)
            ∧ rdv g_invvol1 ir example_heap_vol = Some (RtoC v1))
           ∧ rd g_Jz iz ir h' = Some (x0 * RtoC v0)%C
           ∧ rd g_T iz ir h' = Some (x1 * RtoC v1)%C)
    ∧ (∀ a, a ∉ [g_Jz; g_T] → c128 h' !! a = c128 example_heap_vol !! a)
    ∧ f64 h' = f64 example_heap_vol ∧ f64v h' = f64v example_heap_vol.
Proof.
  apply (divide_scalar_by_volume_scales g_Jz g_T g_invvol0 g_invvol1
    4 4 4 4 example_heap_vol).
  - discriminate.
  - solve_alloc.
  - solve_alloc.
  - eexists. split; reflexivity.
  - eexists. split; reflexivity.
  - lia.
  - lia.
Defined.

(** Dividing six arrays by the volumes of the example memory. *)
Lemma divide_vector_by_volume_scales_witness :
  ∃ h', launch (cuda_divide_vector_by_volume g_Jp g_T g_Jm g_T_rho g_Jz
                  g_j_coef g_invvol0 g_invvol1) 4 4 example_heap_vol
        = Some h'
    ∧ (∀ iz ir, (iz < 4)%nat → (ir < 4)%nat →
         ∃ v0 v1 : Qc,
           (rdv g_invvol0 ir example_heap_vol = Some (RtoC v0)
            ∧ rdv g_invvol1 ir example_heap_vol = Some (RtoC v1))
           ∧ Forall (λ a, ∃ x, rd a iz ir example_heap_vol = Some x
                               ∧ rd a iz ir h' = Some (x * RtoC v0)%C)
               [g_Jp; g_Jm; g_Jz]
           ∧ Forall (λ a, ∃ x, rd a iz ir example_heap_vol = Some x
                               ∧ rd a iz ir h' = Some (x * RtoC v1)%C)
               [g_T; g_T_rho; g_j_coef])
    ∧ (∀ a, a ∉ [g_Jp; g_T; g_Jm; g_T_rho; g_Jz; g_j_coef] →
         c128 h' !! a = c128 example_heap_vol !! a)
    ∧ f64 h' = f64 example_heap_vol ∧ f64v h' = f64v example_heap_vol.
Proof.
  apply (divide_vector_by_volume_scales g_Jp g_T g_Jm g_T_rho g_Jz g_j_coef
    g_invvol0 g_invvol1 4 4 4 4 example_heap_vol).
  - by apply (bool_decide_unpack _).
  - solve_alloc.
  - eexists. split; reflexivity.
  - eexists. split; reflexivity.
  - lia.
  - lia.
Defined.

(** Erasing an array of 4 by 4 cells together with one of 2 by 2 cells. *)
Lemma erase_scalar_bounds_from_mode0_witness :
  cuda_erase_scalar g_Jz g_small 3 3 example_heap_vol = None
  ∧ ((3 < 4)%nat → (3 < 4)%nat →
     launch (cuda_erase_scalar g_Jz g_small) 4 4 example_heap_vol = None).
Proof.
  apply (erase_scalar_bounds_from_mode0 g_Jz g_small 4 4 3 3 4 4
    example_heap_vol).
  - solve_alloc.
  - lia.
  - lia.
  - reflexivity.
Defined.

(** The history shift with sizes 4 by 4 on an array of 2 by 2 cells. *)
Lemma push_rho_trusts_sizes_witness :
  cuda_push_rho g_small g_rho_next 4 4 3 3 example_heap_vol = None
  ∧ ((3 < 4)%nat → (3 < 4)%nat →
     launch (cuda_push_rho g_small g_rho_next 4 4) 4 4 example_heap_vol
     = None).
Proof.
  apply (push_rho_trusts_sizes g_small g_rho_next 4 4 3 3 4 4
    example_heap_vol).
  - lia.
  - lia.
  - left. reflexivity.
Defined.

(** The history shift of an array onto itself. *)
Lemma push_rho_same_array_zeroes_witness :
  ∃ h', launch (cuda_push_rho g_Jz g_Jz 4 4) 4 4 example_heap = Some h'
    ∧ ∀ iz ir, (iz < 4)%nat → (ir < 4)%nat → rd g_Jz iz ir h' = Some C0.
Proof.
  apply (push_rho_same_array_zeroes g_Jz 4 4 4 4 example_heap).
  - solve_alloc.
  - lia.
  - lia.
Defined.

(** Two history shifts in a row. *)
Lemma push_rho_twice_zeroes_witness :
  ∃ h1 h2,
    launch (cuda_push_rho g_Jz g_T 4 4) 4 4 example_heap = Some h1
    ∧ launch (cuda_push_rho g_Jz g_T 4 4) 4 4 h1 = Some h2
    ∧ ∀ iz ir, (iz < 4)%nat → (ir < 4)%nat →
        rd g_Jz iz ir h2 = Some C0 ∧ rd g_T iz ir h2 = Some C0.
Proof.
  apply (push_rho_twice_zeroes g_Jz g_T 4 4 4 4 example_heap).
  - discriminate.
  - solve_alloc.
  - solve_alloc.
  - lia.
  - lia.
Defined.

(** The current correction on the example memory, whose [inv_k2] is zero
    at every cell but one. *)
Lemma correct_currents_inv_k2_zero_witness :
  ∃ h', launch (cuda_correct_currents g_rho_prev g_rho_next g_Jp g_Jm g_Jz
                  g_kz g_kr g_inv_k2 g_j_coef g_T 1 4 4) 4 4 example_heap
        = Some h'
    ∧ ∀ iz ir, (iz < 4)%nat → (ir < 4)%nat →
        rdf g_inv_k2 iz ir example_heap = Some C0 →
        rd g_Jp iz ir h' = rd g_Jp iz ir example_heap
        ∧ rd g_Jm iz ir h' = rd g_Jm iz ir example_heap
        ∧ rd g_Jz iz ir h' = rd g_Jz iz ir example_heap.
Proof.
  apply (correct_currents_inv_k2_zero g_rho_prev g_rho_next g_Jp g_Jm g_Jz
    g_kz g_kr g_inv_k2 g_j_coef g_T 1 4 4 4 4 example_heap).
  - by apply (bool_decide_unpack _).
  - solve_alloc.
  - solve_alloc.
  - lia.
  - lia.
Defined.

(** Two current corrections in a row on the example memory. *)
Lemma correct_currents_twice_witness :
  ∃ h1 h2,
    launch (cuda_correct_currents g_rho_prev g_rho_next g_Jp g_Jm g_Jz
              g_kz g_kr g_inv_k2 g_j_coef g_T 1 4 4) 4 4 example_heap
    = Some h1
    ∧ launch (cuda_correct_currents g_rho_prev g_rho_next g_Jp g_Jm g_Jz
                g_kz g_kr g_inv_k2 g_j_coef g_T 1 4 4) 4 4 h1 = Some h2
    ∧ ∀ iz ir x y z, (iz < 4)%nat → (ir < 4)%nat →
        rdf g_inv_k2 iz ir example_heap = Some (RtoC x) →
        rdf g_kz iz ir example_heap = Some (RtoC y) →
        rdf g_kr iz ir example_heap = Some (RtoC z) →
        x = 0 ∨ x * (y * y + z * z) = 1 →
        rd g_Jp iz ir h2 = rd g_Jp iz ir h1
        ∧ rd g_Jm iz ir h2 = rd g_Jm iz ir h1
        ∧ rd g_Jz iz ir h2 = rd g_Jz iz ir h1.
Proof.
  apply (correct_currents_twice g_rho_prev g_rho_next g_Jp g_Jm g_Jz
    g_kz g_kr g_inv_k2 g_j_coef g_T 1 4 4 4 4 example_heap).
  - by apply (bool_decide_unpack _).
  - by apply (bool_decide_unpack _).
  - solve_alloc.
  - solve_alloc.
  - lia.
  - lia.
Defined.

(** The push of E from the divergences on the memory of the scenario. *)
Lemma push_eb_div_rho_E_formulas_witness :
  ∃ h', launch (golden_push c_SI epsilon_0_SI mu_0_SI 1 0 true false) 4 4
          (golden 1 C0 C1) = Some h'
    ∧ ∀ iz ir, (iz < 4)%nat → (ir < 4)%nat →
        ∃ s, cell_at g_Ep g_Em g_Ez g_Bp g_Bm g_Bz g_Jp g_Jm g_Jz
               g_rho_prev g_rho_next g_rho_prev_coef g_rho_next_coef g_j_coef
               g_C g_S_w g_T g_T_rho g_kr g_kz (golden 1 C0 C1) iz ir s
          ∧ let div_E :=
              (v_kr s * (v_Ep s - v_Em s) + Ci * v_kz s * v_Ez s)%C in
            let div_J :=
              (v_kr s * (v_Jp s - v_Jm s) + Ci * v_kz s * v_Jz s)%C in
            let rho_diff :=
              ((v_T s * v_rho_next_coef s - v_rho_prev_coef s)
                 * epsilon_0_SI * div_E
               + v_T_rho s * v_rho_next_coef s * 1 * div_J)%C in
            rd g_Ep iz ir h' = Some (Ep_push c_SI mu_0_SI 0 s rho_diff)
            ∧ rd g_Em iz ir h' = Some (Em_push c_SI mu_0_SI 0 s rho_diff)
            ∧ rd g_Ez iz ir h' = Some (Ez_push c_SI mu_0_SI 0 s rho_diff).
Proof.
  apply (push_eb_div_rho_E_formulas c_SI epsilon_0_SI mu_0_SI
    g_Ep g_Em g_Ez g_Bp g_Bm g_Bz g_Jp g_Jm g_Jz g_rho_prev g_rho_next
    g_rho_prev_coef g_rho_next_coef g_j_coef g_C g_S_w g_T g_T_rho
    g_kr g_kz 1 0 4 4 4 4 (golden 1 C0 C1)).
  - by apply (bool_decide_unpack _).
  - by apply (bool_decide_unpack _).
  - solve_alloc.
  - solve_alloc.
  - lia.
  - lia.
Defined.

(** The push of E without feedback on the memory of the scenario. *)
Lemma push_eb_no_feedback_E_formulas_witness :
  ∃ h', launch (golden_push c_SI epsilon_0_SI mu_0_SI 1 0 false false) 4 4
          (golden 1 C0 C1) = Some h'
    ∧ ∀ iz ir, (iz < 4)%nat → (ir < 4)%nat →
        ∃ s, cell_at g_Ep g_Em g_Ez g_Bp g_Bm g_Bz g_Jp g_Jm g_Jz
               g_rho_prev g_rho_next g_rho_prev_coef g_rho_next_coef g_j_coef
               g_C g_S_w g_T g_T_rho g_kr g_kz (golden 1 C0 C1) iz ir s
          ∧ rd g_Ep iz ir h'
            = Some (v_T s * v_C s * v_Ep s
                    + c2 c_SI * v_T s * v_S_w s
                      * (- Ci * half * v_kr s * v_Bz s + v_kz s * v_Bp s))%C
          ∧ rd g_Em iz ir h'
            = Some (v_T s * v_C s * v_Em s
                    + c2 c_SI * v_T s * v_S_w s
                      * (- Ci * half * v_kr s * v_Bz s - v_kz s * v_Bm s))%C
          ∧ rd g_Ez iz ir h'
            = Some (v_T s * v_C s * v_Ez s
                    + c2 c_SI * v_T s * v_S_w s
                      * (Ci * v_kr s * v_Bp s + Ci * v_kr s * v_Bm s))%C.
Proof.
  apply (push_eb_no_feedback_E_formulas c_SI epsilon_0_SI mu_0_SI
    g_Ep g_Em g_Ez g_Bp g_Bm g_Bz g_Jp g_Jm g_Jz g_rho_prev g_rho_next
    g_rho_prev_coef g_rho_next_coef g_j_coef g_C g_S_w g_T g_T_rho
    g_kr g_kz 1 0 4 4 false 4 4 (golden 1 C0 C1)).
  - by apply (bool_decide_unpack _).
  - by apply (bool_decide_unpack _).
  - solve_alloc.
  - solve_alloc.
  - lia.
  - lia.
Defined.

(** The divergence of B in the push of the scenario. *)
Lemma push_eb_divB_witness :
  ∃ h', launch (golden_push c_SI epsilon_0_SI mu_0_SI 1 0 true false) 4 4
          (golden 1 C0 C1) = Some h'
    ∧ ∀ iz ir, (iz < 4)%nat → (ir < 4)%nat →
        ∃ s s',
          cell_at g_Ep g_Em g_Ez g_Bp g_Bm g_Bz g_Jp g_Jm g_Jz
            g_rho_prev g_rho_next g_rho_prev_coef g_rho_next_coef g_j_coef
            g_C g_S_w g_T g_T_rho g_kr g_kz (golden 1 C0 C1) iz ir s
          ∧ cell_at g_Ep g_Em g_Ez g_Bp g_Bm g_Bz g_Jp g_Jm g_Jz
              g_rho_prev g_rho_next g_rho_prev_coef g_rho_next_coef g_j_coef
              g_C g_S_w g_T g_T_rho g_kr g_kz h' iz ir s'
          ∧ divB s' = (v_T s * v_C s * divB s)%C
          ∧ (divB s = C0 → divB s' = C0).
Proof.
  apply (push_eb_divB c_SI epsilon_0_SI mu_0_SI
    g_Ep g_Em g_Ez g_Bp g_Bm g_Bz g_Jp g_Jm g_Jz g_rho_prev g_rho_next
    g_rho_prev_coef g_rho_next_coef g_j_coef g_C g_S_w g_T g_T_rho
    g_kr g_kz 1 0 4 4 true false 4 4 (golden 1 C0 C1)).
  - by apply (bool_decide_unpack _).
  - by apply (bool_decide_unpack _).
  - solve_alloc.
  - solve_alloc.
  - lia.
  - lia.
Defined.

(** The divergence of E in the push of the scenario without feedback. *)
Lemma push_eb_no_feedback_divE_witness :
  ∃ h', launch (golden_push c_SI epsilon_0_SI mu_0_SI 1 0 false false) 4 4
          (golden 1 C0 C1) = Some h'
    ∧ ∀ iz ir, (iz < 4)%nat → (ir < 4)%nat →
        ∃ s s',
          cell_at g_Ep g_Em g_Ez g_Bp g_Bm g_Bz g_Jp g_Jm g_Jz
            g_rho_prev g_rho_next g_rho_prev_coef g_rho_next_coef g_j_coef
            g_C g_S_w g_T g_T_rho g_kr g_kz (golden 1 C0 C1) iz ir s
          ∧ cell_at g_Ep g_Em g_Ez g_Bp g_Bm g_Bz g_Jp g_Jm g_Jz
              g_rho_prev g_rho_next g_rho_prev_coef g_rho_next_coef g_j_coef
              g_C g_S_w g_T g_T_rho g_kr g_kz h' iz ir s'
          ∧ divE s' = (v_T s * v_C s * divE s)%C.
Proof.
  apply (push_eb_no_feedback_divE c_SI epsilon_0_SI mu_0_SI
    g_Ep g_Em g_Ez g_Bp g_Bm g_Bz g_Jp g_Jm g_Jz g_rho_prev g_rho_next
    g_rho_prev_coef g_rho_next_coef g_j_coef g_C g_S_w g_T g_T_rho
    g_kr g_kz 1 0 4 4 false 4 4 (golden 1 C0 C1)).
  - by apply (bool_decide_unpack _).
  - by apply (bool_decide_unpack _).
  - solve_alloc.
  - solve_alloc.
  - lia.
  - lia.
Defined.

(** The divergence of E in the push of the scenario with feedback. *)
Lemma push_eb_feedback_divE_witness :
  ∃ h', launch (golden_push c_SI epsilon_0_SI mu_0_SI 1 0 true false) 4 4
          (golden 1 C0 C1) = Some h'
    ∧ ∀ iz ir, (iz < 4)%nat → (ir < 4)%nat →
        ∃ s s',
          cell_at g_Ep g_Em g_Ez g_Bp g_Bm g_Bz g_Jp g_Jm g_Jz
            g_rho_prev g_rho_next g_rho_prev_coef g_rho_next_coef g_j_coef
            g_C g_S_w g_T g_T_rho g_kr g_kz (golden 1 C0 C1) iz ir s
          ∧ cell_at g_Ep g_Em g_Ez g_Bp g_Bm g_Bz g_Jp g_Jm g_Jz
              g_rho_prev g_rho_next g_rho_prev_coef g_rho_next_coef g_j_coef
              g_C g_S_w g_T g_T_rho g_kr g_kz h' iz ir s'
          ∧ divE s'
            = (v_T s * v_C s * divE s
               + (v_kr s * v_kr s + v_kz s * v_kz s)
                 * rho_diff_of epsilon_0_SI 1 s false
               + (v_j_coef s * Ci * v_kz s * 0
                  - c2 c_SI * v_T s * v_S_w s * mu_0_SI) * divJ s)%C.
Proof.
  apply (push_eb_feedback_divE c_SI epsilon_0_SI mu_0_SI
    g_Ep g_Em g_Ez g_Bp g_Bm g_Bz g_Jp g_Jm g_Jz g_rho_prev g_rho_next
    g_rho_prev_coef g_rho_next_coef g_j_coef g_C g_S_w g_T g_T_rho
    g_kr g_kz 1 0 4 4 false 4 4 (golden 1 C0 C1)).
  - by apply (bool_decide_unpack _).
  - by apply (bool_decide_unpack _).
  - solve_alloc.
  - solve_alloc.
  - lia.
  - lia.
Defined.

(** The scalar filter on the current of the example memory. *)
Lemma filter_scalar_scales_witness :
  ∃ h', launch (cuda_filter_scalar g_Jz g_kr 4 4) 4 4 example_heap = Some h'
    ∧ (∀ a, a ≠ g_Jz → c128 h' !! a = c128 example_heap !! a)
    ∧ f64 h' = f64 example_heap ∧ f64v h' = f64v example_heap
    ∧ ∀ iz ir, (iz < 4)%nat → (ir < 4)%nat →
        ∃ x y, rd g_Jz iz ir example_heap = Some x
          ∧ rdf g_kr iz ir example_heap = Some (RtoC y)
          ∧ rd g_Jz iz ir h' = Some (RtoC y * x)%C.
Proof.
  apply (filter_scalar_scales g_Jz g_kr 4 4 4 4 example_heap).
  - solve_alloc.
  - solve_alloc.
  - lia.
  - lia.
Defined.

(** The vector filter on the currents of the example memory. *)
Lemma filter_vector_scales_witness :
  ∃ h', launch (cuda_filter_vector g_Jp g_Jm g_Jz g_kr 4 4) 4 4 example_heap
        = Some h'
    ∧ (∀ a, a ∉ [g_Jp; g_Jm; g_Jz] → c128 h' !! a = c128 example_heap !! a)
    ∧ f64 h' = f64 example_heap ∧ f64v h' = f64v example_heap
    ∧ ∀ iz ir, (iz < 4)%nat → (ir < 4)%nat →
        ∃ xr xt xz y,
          rd g_Jp iz ir example_heap = Some xr
          ∧ rd g_Jm iz ir example_heap = Some xt
          ∧ rd g_Jz iz ir example_heap = Some xz
          ∧ rdf g_kr iz ir example_heap = Some (RtoC y)
          ∧ rd g_Jp iz ir h' = Some (RtoC y * xr)%C
          ∧ rd g_Jm iz ir h' = Some (RtoC y * xt)%C
          ∧ rd g_Jz iz ir h' = Some (RtoC y * xz)%C.
Proof.
  apply (filter_vector_scales g_Jp g_Jm g_Jz g_kr 4 4 4 4 example_heap).
  - by apply (bool_decide_unpack _).
  - solve_alloc.
  - solve_alloc.
  - lia.
  - lia.
Defined.
